(** * Bit-encoded connection storage and destination ranking

    A shallow embedding of [src/storage.ts] (class [ConnectionsStorage]) and
    of the records of [src/interfaces.ts], with the properties of the
    specification stated and proved over it.

    Conventions of the embedding.
    - A JavaScript [number] holding an integer is a [Z]; array positions that
      the code obtains from the registry are [nat].  Non-integral numbers and
      [NaN] are outside the model.
    - A [Date] is its time value ([getTime()]), milliseconds as a [Z].  The
      [date] field of a [Connection] is a string in the source that
      [setConnection] immediately turns into a [Date]; the record below holds
      that time value.
    - The methods run in a state-and-exception monad over the fields of the
      class: a thrown exception keeps the state reached so far, as a caller
      that catches it would observe. *)

From Stdlib Require Import ZArith Lia.
From stdpp Require Import base option list sorting gmap strings numbers.

Local Open Scope Z_scope.

(** * The program *)

(** ** Bit vectors *)

(** The [bitset] package that [storage.ts] imports is not among the sources;
    the module below is its model.  Section 4.3 of the specification fixes
    what the store needs of it: bitwise and, or, not, population count and
    the enumeration of the set bits in ascending order, where [not] may be
    kept as a complement flag next to a finite bit vector.  A finite vector
    together with such a flag is a two's-complement integer: a non-negative
    [Z] is a finite set of positions, a negative [Z] is the complement of
    one. *)
Module BitSet.

(** Modelled from the spec: the type of the bit vectors of the absent
    [bitset] package, a finite vector with a complement flag (section 4.3). *)
Definition t := Z.

(** Modelled from the spec: [new BitSet()], the vector an airport slot is
    created with (section 3, lifecycle). *)
Definition empty : t := 0.

(** Modelled from the spec: [b.set(ndx, 1)].  It updates the vector in
    place; the embedding writes the result back where the vector is stored.
    Setting a bit that is set changes nothing (section 4.2). *)
Definition set (b : t) (ndx : nat) : t := Z.setbit b (Z.of_nat ndx).

(** Modelled from the spec: whether position [ndx] is set. *)
Definition get (b : t) (ndx : nat) : bool := Z.testbit b (Z.of_nat ndx).

(** Modelled from the spec: [new BitSet(array)], the vector with the
    positions of the array set (section 4.4, [originsVector]). *)
Definition fromArray (l : list nat) : t := foldr (fun ndx b => set b ndx) empty l.

(** Modelled from the spec: bitwise and (section 4.3); a new vector, the
    operands are left alone. *)
Definition and (a b : t) : t := Z.land a b.

(** Modelled from the spec: bitwise or (section 4.3); a new vector, the
    operands are left alone. *)
Definition or (a b : t) : t := Z.lor a b.

(** Modelled from the spec: bitwise not (section 4.3), the complement of the
    vector over all positions, consumed by a following [and]; a new vector,
    the operand is left alone. *)
Definition not (a : t) : t := Z.lnot a.

(** The vectors without the complement flag. *)
Definition finite (b : t) : Prop := 0 <= b.

Fixpoint pos_cardinality (p : positive) : nat :=
  match p with
  | xH => 1
  | xO q => pos_cardinality q
  | xI q => S (pos_cardinality q)
  end.

Fixpoint pos_toArray (p : positive) (i : nat) : list nat :=
  match p with
  | xH => [i]
  | xO q => pos_toArray q (S i)
  | xI q => i :: pos_toArray q (S i)
  end.

(** Modelled from the spec: the set positions in ascending order
    (section 4.3), for a finite vector.  On a vector with the complement
    flag the package puts [Infinity] in front; no such vector reaches
    [toArray] in [storage.ts], where every receiver of it is an intersection
    with a finite vector (lemma [BitSetFacts.receivers_finite]), and the
    model answers with the empty list there. *)
Definition toArray (b : t) : list nat :=
  match b with
  | Zpos p => pos_toArray p 0
  | _ => []
  end.

(** Modelled from the spec: the population count (section 4.3), for a finite
    vector.  On a vector with the complement flag the package answers
    [Infinity]; as for [toArray], no such vector reaches [cardinality] in
    [storage.ts], and the model answers 0 there. *)
Definition cardinality (b : t) : Z :=
  match b with
  | Zpos p => Z.of_nat (pos_cardinality p)
  | _ => 0
  end.

End BitSet.

(** ** Records of [interfaces.ts] *)

Record Destination := mkDestination {
  code : string;
  availableOrigins : Z;
  totalStops : Z;
  unavailableOutboundOrigins : list string;
  outboundShoulderNights : Z;
  unavailableInboundOrigins : list string;
  inboundShoulderNights : Z;
}.

Record OriginInput := mkOriginInput {
  origin_code : string;
  origin_count : Z;
}.

Record Connection := mkConnection {
  originAirportCode : string;
  destinationAirportCode : string;
  date : Z;
  stops : Z;
  arriveNextDay : Z;
}.

(** ** The state of a [ConnectionsStorage] *)

Definition MAX_STOPS_SUPPORTED : Z := 2.
Definition MAX_DAYS_SUPPORTED : Z := 360.

(** One store: days, then anchor airports, then stop counts. *)
Abbreviation Store := (list (list (list BitSet.t))).

Record ConnectionsStorage := mkStorage {
  outboundStorage : Store;
  inboundStorage : Store;
  airports : gmap string nat;
  airportsArray : list string;
  startDate : Z;
}.

(** ** Exceptions and the monad of the methods *)

(** The two [Error]s that the class throws itself, and the [TypeError] that
    JavaScript raises when a property of [undefined] is read, which is what
    indexing past the end of an array leads to. *)
Inductive Exception :=
| StopsNotSupported
| DateOutsideRange
| TypeError.

Inductive Res (A : Type) :=
| Ok (a : A)
| Throw (e : Exception).
Arguments Ok {A} a.
Arguments Throw {A} e.

Definition M (A : Type) : Type := ConnectionsStorage -> Res A * ConnectionsStorage.

Definition ret {A} (a : A) : M A := fun s => (Ok a, s).

Definition throw {A} (e : Exception) : M A := fun s => (Throw e, s).

Definition bind {A B} (m : M A) (f : A -> M B) : M B :=
  fun s => match m s with
           | (Ok a, s') => f a s'
           | (Throw e, s') => (Throw e, s')
           end.

Definition gets {A} (f : ConnectionsStorage -> A) : M A := fun s => (Ok (f s), s).

#[global] Instance M_ret : MRet M := @ret.
#[global] Instance M_bind : MBind M := fun A B f m => bind m f.

(** [a[k]] for a number [k]: [undefined] below zero and past the end. *)
Definition at_index {A} (a : list A) (k : Z) : option A :=
  if k <? 0 then None else a !! Z.to_nat k.

(** Reading a property of a value that may be [undefined]. *)
Definition defined {A} (o : option A) : M A :=
  match o with
  | Some a => ret a
  | None => throw TypeError
  end.

(** [for (const x of xs) acc = body(acc, x)], stopping at the first throw. *)
Fixpoint foldM {A B} (body : A -> B -> M A) (xs : list B) (acc : A) : M A :=
  match xs with
  | [] => ret acc
  | x :: xs' => acc' ← body acc x; foldM body xs' acc'
  end.

(** The values [1, 2, ..., n] of a counter [j] in [for (j = 1; j <= n; j++)]. *)
Definition upto (n : Z) : list Z := Z.of_nat <$> seq 1 (Z.to_nat n).

(** ** Construction and registration *)

(** [constructor(initDate)]: [MAX_DAYS_SUPPORTED] empty rows in each store. *)
Definition init (initDate : Z) : ConnectionsStorage :=
  {| outboundStorage := replicate (Z.to_nat MAX_DAYS_SUPPORTED) [];
     inboundStorage := replicate (Z.to_nat MAX_DAYS_SUPPORTED) [];
     airports := ∅;
     airportsArray := [];
     startDate := initDate |}.

(** The slot pushed for a new airport: one empty vector per stop count
    [k = 0 .. MAX_STOPS_SUPPORTED]. *)
Definition newSlot : list BitSet.t :=
  replicate (Z.to_nat (MAX_STOPS_SUPPORTED + 1)) BitSet.empty.

(** The loop [for (i = 0; i < n; i++) store[i].push(slot)] of [addAirport].
    The constructor allocates the [n = MAX_DAYS_SUPPORTED] rows and nothing
    removes a row, so each [store[i]] is there. *)
Fixpoint pushSlots (n : nat) (store : Store) : Store :=
  match n, store with
  | S n', row :: rest => (row ++ [newSlot]) :: pushSlots n' rest
  | _, _ => store
  end.

Definition addAirport (airportCode : string) : M bool :=
  fun s =>
    match airports s !! airportCode with
    | Some _ => (Ok false, s)
    | None =>
        (Ok true,
         {| outboundStorage := pushSlots (Z.to_nat MAX_DAYS_SUPPORTED) (outboundStorage s);
            inboundStorage := pushSlots (Z.to_nat MAX_DAYS_SUPPORTED) (inboundStorage s);
            airports := <[airportCode := size (airports s)]> (airports s);
            airportsArray := airportsArray s ++ [airportCode];
            startDate := startDate s |})
    end.

(** ** Validation *)

Definition _validateStops (stops : Z) : M unit :=
  if (stops <? 0) || (stops >? MAX_STOPS_SUPPORTED)
  then throw StopsNotSupported
  else ret tt.

Definition _validateDateIndex (index : Z) : M unit :=
  if (index <? 0) || (index >? MAX_DAYS_SUPPORTED)
  then throw DateOutsideRange
  else ret tt.

Definition MS_PER_DAY : Z := 1000 * 3600 * 24.

Definition _convertDateToArrayIndex (date : Z) : M Z :=
  start ← gets startDate;
  let timeDifference := date - start in
  let dateIndex := timeDifference / MS_PER_DAY in
  _validateDateIndex dateIndex;;
  ret dateIndex.

(** ** Writing a connection *)

(** [store[day][anchor][stops].set(other, 1)]: the vector is updated in
    place; reading through a missing level raises [TypeError]. *)
Definition setBit (store : Store) (day : Z) (anchor : nat) (stops : Z) (other : nat)
  : option Store :=
  row ← at_index store day;
  slot ← row !! anchor;
  b ← at_index slot stops;
  Some (<[Z.to_nat day := <[anchor := <[Z.to_nat stops := BitSet.set b other]> slot]> row]> store).

Definition setOutboundBit (day : Z) (anchor : nat) (stops : Z) (other : nat) : M unit :=
  fun s =>
    match setBit (outboundStorage s) day anchor stops other with
    | Some store' =>
        (Ok tt,
         {| outboundStorage := store';
            inboundStorage := inboundStorage s;
            airports := airports s;
            airportsArray := airportsArray s;
            startDate := startDate s |})
    | None => (Throw TypeError, s)
    end.

Definition setInboundBit (day : Z) (anchor : nat) (stops : Z) (other : nat) : M unit :=
  fun s =>
    match setBit (inboundStorage s) day anchor stops other with
    | Some store' =>
        (Ok tt,
         {| outboundStorage := outboundStorage s;
            inboundStorage := store';
            airports := airports s;
            airportsArray := airportsArray s;
            startDate := startDate s |})
    | None => (Throw TypeError, s)
    end.

Definition setConnection (c : Connection) : M unit :=
  _validateStops (stops c);;
  addAirport (originAirportCode c);;
  addAirport (destinationAirportCode c);;
  dateIndex ← _convertDateToArrayIndex (date c);
  let arrivalDateIndex := dateIndex + arriveNextDay c in
  _validateDateIndex arrivalDateIndex;;
  originIndex ← gets (fun s => airports s !! originAirportCode c);
  destinationIndex ← gets (fun s => airports s !! destinationAirportCode c);
  match originIndex, destinationIndex with
  | Some originIndex, Some destinationIndex =>
      setOutboundBit arrivalDateIndex destinationIndex (stops c) originIndex;;
      setInboundBit dateIndex originIndex (stops c) destinationIndex
  | _, _ => ret tt
  end.

(** ** Reading the stores *)

(** [this.<store>[day][anchor][k]], where [sel] picks the store.  A missing
    day or anchor raises [TypeError]; a missing last level is [undefined]. *)
Definition storeAt (sel : ConnectionsStorage -> Store) (day : Z) (anchor k : nat)
  : M (option BitSet.t) :=
  store ← gets sel;
  row ← defined (at_index store day);
  slot ← defined (row !! anchor);
  mret (slot !! k).

(** A vector that is the receiver of a method call must be there. *)
Definition receiver (sel : ConnectionsStorage -> Store) (day : Z) (anchor k : nat)
  : M BitSet.t :=
  storeAt sel day anchor k ≫= defined.

(** A vector passed as an argument: the package reads [undefined] as the
    empty vector. *)
Definition operand (o : option BitSet.t) : BitSet.t := default BitSet.empty o.

(** [store[day][i][0].or(store[day][i][1]).or(store[day][i][2])]. *)
Definition availableConnections (sel : ConnectionsStorage -> Store) (day : Z) (i : nat)
  : M BitSet.t :=
  b0 ← receiver sel day i 0;
  b1 ← storeAt sel day i 1;
  b2 ← storeAt sel day i 2;
  mret (BitSet.or (BitSet.or b0 (operand b1)) (operand b2)).

Definition _prepareOriginVector (origins : list string) : M BitSet.t :=
  registry ← gets airports;
  mret (BitSet.fromArray (omap (fun origin => registry !! origin) origins)).

(** [getOutboundStopsCount] and [getInboundStopsCount] are the same text over
    the two stores. *)
Definition getStopsCount (sel : ConnectionsStorage -> Store)
    (originsVector : BitSet.t) (index : Z) (destinationIndex : nat) : M Z :=
  direct ← receiver sel index destinationIndex 0;
  let directNeg := BitSet.and (BitSet.not direct) originsVector in
  oneStop ← receiver sel index destinationIndex 1;
  let oneStopCounter := BitSet.cardinality (BitSet.and oneStop directNeg) in
  oneStop' ← receiver sel index destinationIndex 1;
  let oneStopNeg := BitSet.not oneStop' in
  twoStop ← receiver sel index destinationIndex 2;
  let twoStopCounter :=
    BitSet.cardinality (BitSet.and (BitSet.and twoStop directNeg) oneStopNeg) * 2 in
  mret (oneStopCounter + twoStopCounter).

Definition getOutboundStopsCount := getStopsCount outboundStorage.
Definition getInboundStopsCount := getStopsCount inboundStorage.

(** [this.airportsArray[index]]; every index the ranking asks for is a
    registered one (lemmas [wf_codeAt] and [wf_weight]), so [undefined] does
    not arise and stands as the empty string. *)
Definition codeAt (arr : list string) (index : nat) : string := default "" (arr !! index).

Definition getUnavailableOrigins (availableConnections originsVector : BitSet.t)
    (currentAirportIndex : nat) : M (list string) :=
  arr ← gets airportsArray;
  mret (codeAt arr <$>
        filter (fun arrayIndex => arrayIndex ≠ currentAirportIndex)
          (BitSet.toArray (BitSet.and (BitSet.not availableConnections) originsVector))).

Definition sumArray (arr : list Z) : Z := foldl Z.add 0 arr.

(** ** Ranking *)

(** The variables of one direction of the candidate loop. *)
Record Side := mkSide {
  available : BitSet.t;
  count : Z;
  stopsTotal : Z;
  shoulderNights : Z;
}.

(** [originsMap.get(this.airportsArray[ind])!]: the count of a served
    origin.  The non-null assertion holds for the indices of the origins
    vector (lemma [wf_weight]); the default stands for [undefined]. *)
Definition weight (arr : list string) (originsMap : gmap string Z) (ind : nat) : Z :=
  default 0 (arr !! ind ≫= fun c => originsMap !! c).

(** The body guarded by the innermost [if] of a shoulder loop, at distance
    [j] on day [day]. *)
Definition shoulderBody (sel : ConnectionsStorage -> Store) (originsMap : gmap string Z)
    (originsVector : BitSet.t) (i : nat) (day j : Z) (v : Side) : M Side :=
  aocSn ← availableConnections sel day i;
  let currentRequiredOrigins := BitSet.and (BitSet.not (available v)) originsVector in
  sc ← getStopsCount sel currentRequiredOrigins day i;
  let temp := BitSet.and aocSn currentRequiredOrigins in
  let temporaryCardinality := BitSet.cardinality temp in
  arr ← gets airportsArray;
  mret {| available := BitSet.or (available v) aocSn;
          count := count v + temporaryCardinality;
          stopsTotal := stopsTotal v + sc;
          shoulderNights :=
            shoulderNights v
            + sumArray ((fun ind => weight arr originsMap ind) <$> BitSet.toArray temp) * j |}.

(** The values of a direction on the anchor day. *)
Definition anchorSide (sel : ConnectionsStorage -> Store) (originsVector : BitSet.t)
    (index : Z) (i : nat) : M Side :=
  avail ← availableConnections sel index i;
  let cnt := BitSet.cardinality (BitSet.and avail originsVector) in
  total ← getStopsCount sel originsVector index i;
  mret {| available := avail; count := cnt; stopsTotal := total; shoulderNights := 0 |}.

Definition outboundSide (originsMap : gmap string Z) (originsVector : BitSet.t)
    (originsLength outboundIndex maxOutboundShoulderNights : Z) (i : nat) : M Side :=
  v ← anchorSide outboundStorage originsVector outboundIndex i;
  if (count v <? originsLength) && (maxOutboundShoulderNights >? 0)
  then
    foldM (fun v j =>
             if count v <? originsLength
             then shoulderBody outboundStorage originsMap originsVector i (outboundIndex - j) j v
             else mret v)
          (upto maxOutboundShoulderNights) v
  else mret v.

Definition inboundSide (originsMap : gmap string Z) (originsVector : BitSet.t)
    (originsLength inboundIndex maxInboundShoulderNights : Z) (i : nat) : M Side :=
  v ← anchorSide inboundStorage originsVector inboundIndex i;
  if count v <? originsLength
  then
    foldM (fun v j =>
             if (count v <? originsLength) && (maxInboundShoulderNights >? 0)
             then shoulderBody inboundStorage originsMap originsVector i (inboundIndex + j) j v
             else mret v)
          (upto maxInboundShoulderNights) v
  else mret v.

(** The body of the candidate loop: the record pushed for airport [i]. *)
Definition candidate (originsMap : gmap string Z) (originsVector : BitSet.t)
    (originsLength outboundIndex inboundIndex : Z)
    (maxOutboundShoulderNights maxInboundShoulderNights : Z) (i : nat) : M Destination :=
  out ← outboundSide originsMap originsVector originsLength outboundIndex
          maxOutboundShoulderNights i;
  inb ← inboundSide originsMap originsVector originsLength inboundIndex
          maxInboundShoulderNights i;
  arr ← gets airportsArray;
  unavailableOut ← getUnavailableOrigins (available out) originsVector i;
  unavailableIn ← getUnavailableOrigins (available inb) originsVector i;
  mret {| code := codeAt arr i;
          availableOrigins := count out + count inb;
          totalStops := stopsTotal out + stopsTotal inb;
          unavailableOutboundOrigins := unavailableOut;
          outboundShoulderNights := shoulderNights out;
          unavailableInboundOrigins := unavailableIn;
          inboundShoulderNights := shoulderNights inb |}.

(** [result.sort((a, b) => b.availableOrigins - a.availableOrigins)]:
    [Array.prototype.sort] is stable, and a stable sort has one possible
    outcome, which insertion from the right computes (lemmas
    [sortByAvailable_sorted], [sortByAvailable_perm] and
    [sortByAvailable_stable]). *)
Fixpoint insertByAvailable (x : Destination) (l : list Destination) : list Destination :=
  match l with
  | [] => [x]
  | y :: l' =>
      if availableOrigins y <=? availableOrigins x
      then x :: y :: l'
      else y :: insertByAvailable x l'
  end.

Definition sortByAvailable (l : list Destination) : list Destination :=
  foldr insertByAvailable [] l.

(** [new Map(origins.map(({ code, count }) => [code, count]))]: the entries
    are set from left to right, a later one replacing an earlier one. *)
Definition originsMapOf (origins : list OriginInput) : gmap string Z :=
  foldl (fun m o => <[origin_code o := origin_count o]> m) ∅ origins.

(** [[...originsMap.keys()]]; the order of the keys is not observed, a
    vector being built from them. *)
Definition keys (m : gmap string Z) : list string := (map_to_list m).*1.

(** [this.airports.size] is read once: nothing in the loop changes it. *)
Definition getDestinationsForDatePair (origins : list OriginInput)
    (meetingStart meetingEnd : Z)
    (maxOutboundShoulderNights maxInboundShoulderNights take_ : Z)
  : M (list Destination) :=
  let originsMap := originsMapOf origins in
  originsVector ← _prepareOriginVector (keys originsMap);
  outboundIndex ← _convertDateToArrayIndex meetingStart;
  inboundIndex ← _convertDateToArrayIndex meetingEnd;
  n ← gets (fun s => size (airports s));
  result ← foldM (fun result i =>
                    d ← candidate originsMap originsVector (Z.of_nat (length origins))
                          outboundIndex inboundIndex
                          maxOutboundShoulderNights maxInboundShoulderNights i;
                    mret (result ++ [d]))
                 (seq 0 n) [];
  let sorted := sortByAvailable result in
  mret (if take_ >? 0 then take (Z.to_nat take_) sorted else sorted).

(** ** The fixture of the test suite *)

Module Fixture.

(** 2025-01-01T00:00:00Z and the days after it. *)
Definition fixedDate : Z := 1735689600000.
Definition january (n : Z) : Z := fixedDate + (n - 1) * MS_PER_DAY.

Definition connection1 := mkConnection "AAA" "CCC" (january 9) 2 0.
Definition connection2 := mkConnection "AAA" "DDD" (january 10) 0 0.
Definition connection3 := mkConnection "BBB" "CCC" (january 10) 1 0.
Definition connection4 := mkConnection "CCC" "AAA" (january 15) 1 0.
Definition connection5 := mkConnection "DDD" "AAA" (january 15) 0 0.
Definition connection6 := mkConnection "CCC" "BBB" (january 16) 0 0.

Definition fill : M unit :=
  setConnection connection1;;
  setConnection connection2;;
  setConnection connection3;;
  setConnection connection4;;
  setConnection connection5;;
  setConnection connection6.

Definition storage : ConnectionsStorage := (fill (init fixedDate)).2.

Definition origins : list OriginInput :=
  [mkOriginInput "AAA" 2; mkOriginInput "BBB" 1; mkOriginInput "CCC" 1].

Definition totalCounts : list Destination :=
  [ mkDestination "CCC" 4 4 [] 2 [] 1;
    mkDestination "DDD" 2 0 ["CCC"; "BBB"] 0 ["CCC"; "BBB"] 0;
    mkDestination "AAA" 0 0 ["CCC"; "BBB"] 0 ["CCC"; "BBB"] 0;
    mkDestination "BBB" 0 0 ["AAA"; "CCC"] 0 ["AAA"; "CCC"] 0 ].

(** The same call without shoulder nights. *)
Definition strictCounts : list Destination :=
  [ mkDestination "CCC" 2 2 ["AAA"] 0 ["BBB"] 0;
    mkDestination "DDD" 2 0 ["CCC"; "BBB"] 0 ["CCC"; "BBB"] 0;
    mkDestination "AAA" 0 0 ["CCC"; "BBB"] 0 ["CCC"; "BBB"] 0;
    mkDestination "BBB" 0 0 ["AAA"; "CCC"] 0 ["AAA"; "CCC"] 0 ].

Definition connections : list Connection :=
  [connection1; connection2; connection3; connection4; connection5; connection6].

End Fixture.

(** ** Vocabulary of the properties *)

(** A method that reads the state and leaves it as it found it, whether it
    returns or throws. *)
Definition readonly {A} (m : M A) : Prop := forall s, (m s).2 = s.

(** [indexOf] of the specification: the registry lookup. *)
Definition indexOf (s : ConnectionsStorage) (c : string) : option nat := airports s !! c.

(** The day index of a date, before validation. *)
Definition dayIndex (s : ConnectionsStorage) (date : Z) : Z :=
  (date - startDate s) / MS_PER_DAY.

(** The vector [store[day][anchor][stops]], when it is there. *)
Definition vectorAt (store : Store) (day : Z) (anchor : nat) (stops : Z) : option BitSet.t :=
  row ← at_index store day; slot ← row !! anchor; at_index slot stops.

(** Whether the bit [store[day][anchor][stops][other]] is set; a vector that
    is not there has no bit set. *)
Definition bitAt (store : Store) (day : Z) (anchor : nat) (stops : Z) (other : nat) : bool :=
  match vectorAt store day anchor stops with
  | Some b => BitSet.get b other
  | None => false
  end.

(** A sequence of [setConnection] calls, each one running on the state the
    previous one left, whether it returned or threw. *)
Definition runAll (cs : list Connection) (s : ConnectionsStorage) : ConnectionsStorage :=
  foldl (fun s c => (setConnection c s).2) s cs.

(** The states a storage object can be in: built by the constructor and
    changed by the two mutating methods. *)
Inductive reachable : ConnectionsStorage -> Prop :=
| reachable_init initDate :
    reachable (init initDate)
| reachable_addAirport s airportCode :
    reachable s -> reachable (addAirport airportCode s).2
| reachable_setConnection s c :
    reachable s -> reachable (setConnection c s).2.

(** The shape of a store for [n] registered airports. *)
Definition shaped (n : nat) (store : Store) : Prop :=
  length store = Z.to_nat MAX_DAYS_SUPPORTED /\
  Forall (fun row =>
            length row = n /\
            Forall (fun slot : list BitSet.t =>
                      length slot = Z.to_nat (MAX_STOPS_SUPPORTED + 1)) row)
         store.

(** The invariant of the class. *)
Record wf (s : ConnectionsStorage) : Prop := mkWf {
  wf_outbound : shaped (length (airportsArray s)) (outboundStorage s);
  wf_inbound : shaped (length (airportsArray s)) (inboundStorage s);
  wf_size : size (airports s) = length (airportsArray s);
  wf_registry : forall c i, airports s !! c = Some i <-> airportsArray s !! i = Some c;
}.

(** The state after the two [addAirport] calls of [setConnection]. *)
Definition registered (c : Connection) (s : ConnectionsStorage) : ConnectionsStorage :=
  (addAirport (destinationAirportCode c) (addAirport (originAirportCode c) s).2).2.

Definition withOutbound (s : ConnectionsStorage) (store : Store) : ConnectionsStorage :=
  {| outboundStorage := store;
     inboundStorage := inboundStorage s;
     airports := airports s;
     airportsArray := airportsArray s;
     startDate := startDate s |}.

Definition withInbound (s : ConnectionsStorage) (store : Store) : ConnectionsStorage :=
  {| outboundStorage := outboundStorage s;
     inboundStorage := store;
     airports := airports s;
     airportsArray := airportsArray s;
     startDate := startDate s |}.

(** What [_validateDateIndex] lets through. *)
Definition passesDateValidation (index : Z) : bool :=
  negb ((index <? 0) || (index >? MAX_DAYS_SUPPORTED)).

Definition passesStopsValidation (stops : Z) : bool :=
  negb ((stops <? 0) || (stops >? MAX_STOPS_SUPPORTED)).



(** The vector of the registered origins of a call. *)
Definition originsVectorOf (s : ConnectionsStorage) (origins : list OriginInput) : BitSet.t :=
  BitSet.fromArray (omap (fun c => airports s !! c) (keys (originsMapOf origins))).

(** Descending in [availableOrigins]. *)
Definition descending (a b : Destination) : Prop := availableOrigins b <= availableOrigins a.

(** *** Shoulder weighting, in the words of the specification *)

(** The connections a candidate [i] has on one day, all stop counts
    together; a day outside the stores has none. *)
Definition layerAt (sel : ConnectionsStorage -> Store) (s : ConnectionsStorage)
    (day : Z) (i : nat) : BitSet.t :=
  match (availableConnections sel day i s).1 with
  | Ok b => b
  | Throw _ => BitSet.empty
  end.

(** The anchor day followed by the shoulder days at distance 1, 2, ... up
    to the tolerance: going back from the meeting start for the outbound
    side, forward from the meeting end for the inbound side. *)
Definition outboundLayers (s : ConnectionsStorage) (outboundIndex maxOutbound : Z) (i : nat)
  : list BitSet.t :=
  layerAt outboundStorage s outboundIndex i
  :: ((fun j => layerAt outboundStorage s (outboundIndex - j) i) <$> upto maxOutbound).

Definition inboundLayers (s : ConnectionsStorage) (inboundIndex maxInbound : Z) (i : nat)
  : list BitSet.t :=
  layerAt inboundStorage s inboundIndex i
  :: ((fun j => layerAt inboundStorage s (inboundIndex + j) i) <$> upto maxInbound).

(** The distance of the first day, counted from [j] on, that serves the
    origin at position [x]. *)
Fixpoint firstServed (layers : list BitSet.t) (x : nat) (j : Z) : option Z :=
  match layers with
  | [] => None
  | layer :: rest => if BitSet.get layer x then Some j else firstServed rest x (j + 1)
  end.

(** An origin served on the anchor day, or on no day, spends no shoulder
    night. *)
Definition servedDistance (layers : list BitSet.t) (x : nat) : Z :=
  default 0 (firstServed layers x 0).

(** The count written last for a code in the list of origins. *)
Fixpoint lastCount (origins : list OriginInput) (c : string) : option Z :=
  match origins with
  | [] => None
  | o :: rest =>
      match lastCount rest c with
      | Some w => Some w
      | None => if decide (origin_code o = c) then Some (origin_count o) else None
      end
  end.

(** What the origin at position [x] adds: its count times its distance. *)
Definition contribution (s : ConnectionsStorage) (origins : list OriginInput)
    (layers : list BitSet.t) (x : nat) : Z :=
  default 0 (airportsArray s !! x ≫= lastCount origins) * servedDistance layers x.

Definition expectedShoulderNights (s : ConnectionsStorage) (origins : list OriginInput)
    (layers : list BitSet.t) : Z :=
  sumArray (contribution s origins layers <$> BitSet.toArray (originsVectorOf s origins)).

(** The invariant of a shoulder loop after the days in [layers]. *)
Definition loopInv (w : nat -> Z) (positions : list nat) (layers : list BitSet.t) (v : Side)
  : Prop :=
  (forall x, x ∈ positions ->
             BitSet.get (available v) x = true <-> is_Some (firstServed layers x 0)) /\
  count v
  = Z.of_nat (length (filter (fun x => BitSet.get (available v) x = true) positions)) /\
  shoulderNights v = sumArray ((fun x => w x * servedDistance layers x) <$> positions).

(** *** Further vocabulary *)

(** Every vector of a store is finite and has bits at positions below [n]
    only. *)
Definition vectorsBounded (n : nat) (store : Store) : Prop :=
  forall day a st b,
    vectorAt store day a st = Some b ->
    BitSet.finite b /\ forall x, BitSet.get b x = true -> (x < n)%nat.

(** The stops an origin at position [x] needs on a day whose direct,
    one-stop and two-stop vectors are given: those of its connection with
    the fewest stops, and none when it has no connection that day. *)
Definition stopsNeeded (direct oneStop twoStop : BitSet.t) (x : nat) : Z :=
  if BitSet.get direct x then 0
  else if BitSet.get oneStop x then 1
  else if BitSet.get twoStop x then 2
  else 0.

(** Whether one of the days in [layers] serves the origin at position [x]. *)
Definition servedWithin (layers : list BitSet.t) (x : nat) : bool :=
  existsb (fun layer => BitSet.get layer x) layers.

(** The positions of the origins of a call: the indices of its registered
    codes, in ascending order. *)
Definition originPositions (s : ConnectionsStorage) (origins : list OriginInput) : list nat :=
  BitSet.toArray (originsVectorOf s origins).

(** The stops the origin at position [x] needs on day [day] to reach, or to
    leave, the candidate [i]; none when the day has no vectors for it. *)
Definition dayStops (sel : ConnectionsStorage -> Store) (s : ConnectionsStorage)
    (day : Z) (i : nat) (x : nat) : Z :=
  match vectorAt (sel s) day i 0, vectorAt (sel s) day i 1, vectorAt (sel s) day i 2 with
  | Some d0, Some d1, Some d2 => stopsNeeded d0 d1 d2 x
  | _, _, _ => 0
  end.

(** The stops the origin needs on the first of the days that serves it. *)
Fixpoint firstStops (sel : ConnectionsStorage -> Store) (s : ConnectionsStorage)
    (i : nat) (days : list Z) (x : nat) : Z :=
  match days with
  | [] => 0
  | day :: rest =>
      if BitSet.get (layerAt sel s day i) x
      then dayStops sel s day i x
      else firstStops sel s i rest x
  end.

(** The anchor day and the shoulder days of a side, nearest first. *)
Definition outboundDays (outboundIndex maxOutbound : Z) : list Z :=
  outboundIndex :: ((fun j => outboundIndex - j) <$> upto maxOutbound).

Definition inboundDays (inboundIndex maxInbound : Z) : list Z :=
  inboundIndex :: ((fun j => inboundIndex + j) <$> upto maxInbound).

(** A computation whose exceptions, when it raises one, are among [P]. *)
Definition raisesOnly {A} (P : Exception -> Prop) (m : M A) : Prop :=
  forall s e, (m s).1 = Throw e -> P e.



(** * Proofs *)

(** The constants and the loop over the rows stay folded under [simpl]. *)
Arguments pushSlots : simpl never.
Arguments newSlot : simpl never.
Arguments MAX_DAYS_SUPPORTED : simpl never.
Arguments MAX_STOPS_SUPPORTED : simpl never.
Arguments MS_PER_DAY : simpl never.

(** ** The monad *)

Section Monad.
Context {A B : Type}.

Lemma readonly_bind (m : M A) (f : A -> M B) :
  readonly m -> (forall a, readonly (f a)) -> readonly (m ≫= f).
Proof.
  intros Hm Hf s. unfold mbind, M_bind, bind.
  specialize (Hm s). destruct (m s) as [[a|e] s1]; simpl in *; subst; [apply Hf | done].
Qed.

Lemma readonly_run (m : M A) s : readonly m -> m s = ((m s).1, s).
Proof. intros H. specialize (H s). destruct (m s); simpl in *; by subst. Qed.

(** Under [readonly] the monad is a reader with exceptions. *)
Lemma readonly_bind_run (m : M A) (f : A -> M B) s :
  readonly m ->
  ((m ≫= f) s).1 = match (m s).1 with Ok a => (f a s).1 | Throw e => Throw e end.
Proof.
  intros H. unfold mbind, M_bind, bind. rewrite (readonly_run m s H). simpl.
  by destruct (m s).1.
Qed.
End Monad.

Lemma readonly_ret {A} (a : A) : readonly (mret a).
Proof. done. Qed.

Lemma readonly_throw {A} e : readonly (@throw A e).
Proof. done. Qed.

Lemma readonly_gets {A} (f : ConnectionsStorage -> A) : readonly (gets f).
Proof. done. Qed.

Lemma readonly_defined {A} (o : option A) : readonly (defined o).
Proof. by destruct o. Qed.

Lemma readonly_foldM {A B} (body : A -> B -> M A) xs acc :
  (forall a x, readonly (body a x)) -> readonly (foldM body xs acc).
Proof.
  intros Hb. revert acc. induction xs as [|x xs IH]; intros acc; simpl.
  - apply readonly_ret.
  - apply readonly_bind; [apply Hb | intros; apply IH].
Qed.

Lemma readonly_if {A} (b : bool) (m1 m2 : M A) :
  readonly m1 -> readonly m2 -> readonly (if b then m1 else m2).
Proof. by destruct b. Qed.

Create HintDb readonly.
#[global] Hint Resolve readonly_ret readonly_throw readonly_gets readonly_defined
  readonly_if : readonly.

Ltac readonly_tac :=
  repeat first
    [ apply readonly_bind; [| intros ?]
    | apply readonly_foldM; intros ? ?
    | apply readonly_if
    | solve [eauto with readonly] ].

Lemma readonly_validateStops st : readonly (_validateStops st).
Proof. unfold _validateStops. readonly_tac. Qed.

Lemma readonly_validateDateIndex i : readonly (_validateDateIndex i).
Proof. unfold _validateDateIndex. readonly_tac. Qed.

Lemma readonly_convertDateToArrayIndex d : readonly (_convertDateToArrayIndex d).
Proof.
  unfold _convertDateToArrayIndex. readonly_tac.
Qed.

Lemma readonly_storeAt sel day a k : readonly (storeAt sel day a k).
Proof. unfold storeAt. readonly_tac. Qed.

Lemma readonly_receiver sel day a k : readonly (receiver sel day a k).
Proof. unfold receiver. readonly_tac. Qed.

#[global] Hint Resolve readonly_validateStops readonly_validateDateIndex
  readonly_convertDateToArrayIndex readonly_storeAt readonly_receiver : readonly.

Lemma readonly_availableConnections sel day i : readonly (availableConnections sel day i).
Proof. unfold availableConnections. readonly_tac. Qed.

Lemma readonly_prepareOriginVector l : readonly (_prepareOriginVector l).
Proof. unfold _prepareOriginVector. readonly_tac. Qed.

Lemma readonly_getStopsCount sel ov day i : readonly (getStopsCount sel ov day i).
Proof. unfold getStopsCount. readonly_tac. Qed.

Lemma readonly_getUnavailableOrigins a ov i : readonly (getUnavailableOrigins a ov i).
Proof. unfold getUnavailableOrigins. readonly_tac. Qed.

#[global] Hint Resolve readonly_availableConnections readonly_prepareOriginVector
  readonly_getStopsCount readonly_getUnavailableOrigins : readonly.

Lemma readonly_shoulderBody sel om ov i day j v : readonly (shoulderBody sel om ov i day j v).
Proof. unfold shoulderBody. readonly_tac. Qed.

Lemma readonly_anchorSide sel ov day i : readonly (anchorSide sel ov day i).
Proof. unfold anchorSide. readonly_tac. Qed.

#[global] Hint Resolve readonly_shoulderBody readonly_anchorSide : readonly.

Lemma readonly_outboundSide om ov n idx mx i : readonly (outboundSide om ov n idx mx i).
Proof. unfold outboundSide. readonly_tac. Qed.

Lemma readonly_inboundSide om ov n idx mx i : readonly (inboundSide om ov n idx mx i).
Proof. unfold inboundSide. readonly_tac. Qed.

#[global] Hint Resolve readonly_outboundSide readonly_inboundSide : readonly.

Lemma readonly_candidate om ov n oi ii mo mi i : readonly (candidate om ov n oi ii mo mi i).
Proof. unfold candidate. readonly_tac. Qed.

#[global] Hint Resolve readonly_candidate : readonly.

Lemma readonly_getDestinationsForDatePair origins ms me mo mi tk :
  readonly (getDestinationsForDatePair origins ms me mo mi tk).
Proof. unfold getDestinationsForDatePair. readonly_tac. Qed.

(** ** Bit vectors: the facts the store relies on *)

Module BitSetFacts.
Import BitSet.

Lemma get_empty x : get empty x = false.
Proof. unfold get, empty. apply Z.bits_0. Qed.

Lemma get_set b i x : get (set b i) x = bool_decide (i = x) || get b x.
Proof.
  unfold get, set. rewrite Z.setbit_eqb by lia. f_equal.
  case_bool_decide; [apply Z.eqb_eq | apply Z.eqb_neq]; lia.
Qed.

Lemma get_and a b x : get (and a b) x = get a x && get b x.
Proof. apply Z.land_spec. Qed.

Lemma get_or a b x : get (or a b) x = get a x || get b x.
Proof. apply Z.lor_spec. Qed.

Lemma get_not a x : get (not a) x = negb (get a x).
Proof. apply Z.lnot_spec. lia. Qed.

Lemma and_assoc a b c : and a (and b c) = and (and a b) c.
Proof. apply Z.land_assoc. Qed.

Lemma set_set b i : set (set b i) i = set b i.
Proof.
  unfold set. rewrite !Z.setbit_spec'.
  by rewrite <- Z.lor_assoc, Z.lor_diag.
Qed.

Lemma finite_empty : finite empty.
Proof. done. Qed.

Lemma finite_set b i : finite b -> finite (set b i).
Proof.
  unfold finite, set. intros H. rewrite Z.setbit_spec'.
  apply Z.lor_nonneg. split; [done |]. apply Z.pow_nonneg. lia.
Qed.

Lemma finite_fromArray l : finite (fromArray l).
Proof. induction l; simpl; [apply finite_empty | by apply finite_set]. Qed.

Lemma and_finite_r a b : finite b -> finite (and a b).
Proof. unfold finite, and. intros H. apply Z.land_nonneg. by right. Qed.

Lemma and_finite_l a b : finite a -> finite (and a b).
Proof. unfold finite, and. intros H. apply Z.land_nonneg. by left. Qed.

Lemma testbit_xO_succ p (k : nat) :
  Z.testbit (Z.pos p~0) (Z.of_nat (S k)) = Z.testbit (Z.pos p) (Z.of_nat k).
Proof.
  rewrite Nat2Z.inj_succ, Pos2Z.inj_xO. apply Z.testbit_even_succ. lia.
Qed.

Lemma testbit_xI_succ p (k : nat) :
  Z.testbit (Z.pos p~1) (Z.of_nat (S k)) = Z.testbit (Z.pos p) (Z.of_nat k).
Proof.
  rewrite Nat2Z.inj_succ, Pos2Z.inj_xI. apply Z.testbit_odd_succ. lia.
Qed.

Lemma testbit_xH_succ (k : nat) : Z.testbit 1 (Z.of_nat (S k)) = false.
Proof.
  rewrite Nat2Z.inj_succ. change 1 with (2 * 0 + 1).
  rewrite Z.testbit_odd_succ by lia. apply Z.bits_0.
Qed.

Lemma elem_of_pos_toArray p i x :
  x ∈ pos_toArray p i <->
  (i <= x)%nat /\ Z.testbit (Z.pos p) (Z.of_nat (x - i)) = true.
Proof.
  revert i. induction p as [q IH | q IH |]; intros i; simpl.
  - rewrite elem_of_cons, IH. split.
    + intros [-> | [Hle Hb]].
      * split; [lia |]. by replace (i - i)%nat with 0%nat by lia.
      * split; [lia |]. replace (x - i)%nat with (S (x - S i)) by lia.
        by rewrite testbit_xI_succ.
    + intros [Hle Hb]. destruct (decide (x = i)) as [-> | Hne]; [by left | right].
      split; [lia |]. replace (x - i)%nat with (S (x - S i)) in Hb by lia.
      by rewrite testbit_xI_succ in Hb.
  - rewrite IH. split.
    + intros [Hle Hb]. split; [lia |]. replace (x - i)%nat with (S (x - S i)) by lia.
      by rewrite testbit_xO_succ.
    + intros [Hle Hb]. destruct (decide (x = i)) as [-> | Hne].
      * by replace (i - i)%nat with 0%nat in Hb by lia.
      * split; [lia |]. replace (x - i)%nat with (S (x - S i)) in Hb by lia.
        by rewrite testbit_xO_succ in Hb.
  - rewrite list_elem_of_singleton. split.
    + intros ->. split; [lia |]. by replace (i - i)%nat with 0%nat by lia.
    + intros [Hle Hb]. destruct (decide (x = i)) as [-> | Hne]; [done |].
      replace (x - i)%nat with (S (x - S i)) in Hb by lia.
      by rewrite testbit_xH_succ in Hb.
Qed.

Lemma elem_of_toArray b x : finite b -> x ∈ toArray b <-> get b x = true.
Proof.
  unfold finite, toArray, get. destruct b as [| p | p]; intros Hb.
  - rewrite Z.bits_0. split; [by intros ?%elem_of_nil | done].
  - rewrite elem_of_pos_toArray. replace (x - 0)%nat with x by lia. split.
    + by intros [_ ?].
    + intros ?. split; [lia | done].
  - lia.
Qed.

Lemma pos_toArray_sorted p i :
  StronglySorted lt (pos_toArray p i) /\ Forall (fun x => (i <= x)%nat) (pos_toArray p i).
Proof.
  revert i. induction p as [q IH | q IH |]; intros i; simpl.
  - destruct (IH (S i)) as [Hs Hf]. split.
    + constructor; [done |]. eapply List.Forall_impl; [| exact Hf]. simpl. lia.
    + constructor; [lia |]. eapply List.Forall_impl; [| exact Hf]. simpl. lia.
  - destruct (IH (S i)) as [Hs Hf]. split; [done |].
    eapply List.Forall_impl; [| exact Hf]. simpl. lia.
  - split; repeat constructor.
Qed.

(** The set bits come out in ascending order. *)
Lemma toArray_sorted b : StronglySorted lt (toArray b).
Proof.
  unfold toArray. destruct b; try constructor. apply pos_toArray_sorted.
Qed.

Lemma toArray_NoDup b : NoDup (toArray b).
Proof.
  generalize (toArray_sorted b). induction 1 as [| x l Hs IH Hx]; constructor; [| done].
  intros Hin. rewrite list.Forall_forall in Hx. specialize (Hx _ Hin). lia.
Qed.

Lemma length_pos_toArray p i : length (pos_toArray p i) = pos_cardinality p.
Proof. revert i. induction p; intros i; simpl; auto. Qed.

Lemma cardinality_length b : cardinality b = Z.of_nat (length (toArray b)).
Proof.
  unfold cardinality, toArray. destruct b; simpl; [done | | done].
  by rewrite length_pos_toArray.
Qed.

Lemma cardinality_nonneg b : 0 <= cardinality b.
Proof. rewrite cardinality_length. lia. Qed.

(** Two strictly ascending lists with the same members are the same list. *)
Lemma sorted_ext (l1 l2 : list nat) :
  StronglySorted lt l1 -> StronglySorted lt l2 ->
  (forall x, x ∈ l1 <-> x ∈ l2) -> l1 = l2.
Proof.
  intros H1 H2 Hiff. apply (StronglySorted_unique_strong lt); [| done | done |].
  - intros; lia.
  - apply NoDup_Permutation; [| | done].
    + clear -H1. induction H1 as [| x l Hs IH Hx]; constructor; [| done].
      intros Hin. rewrite list.Forall_forall in Hx. specialize (Hx _ Hin). lia.
    + clear -H2. induction H2 as [| x l Hs IH Hx]; constructor; [| done].
      intros Hin. rewrite list.Forall_forall in Hx. specialize (Hx _ Hin). lia.
Qed.

Lemma sorted_filter (P : nat -> Prop) `{!forall x, Decision (P x)} (l : list nat) :
  StronglySorted lt l -> StronglySorted lt (filter P l).
Proof.
  induction 1 as [| x l Hs IH Hx]; [constructor |].
  rewrite filter_cons. case_decide; [| done].
  constructor; [done |]. rewrite list.Forall_forall in *.
  intros y [_ Hy]%list_elem_of_filter. auto.
Qed.

(** Intersecting with a finite vector keeps those of its positions that
    the other vector has. *)
Lemma toArray_and a o :
  finite o -> toArray (and a o) = filter (fun x => get a x = true) (toArray o).
Proof.
  intros Ho. apply sorted_ext.
  - apply toArray_sorted.
  - apply sorted_filter, toArray_sorted.
  - intros x. rewrite list_elem_of_filter, !elem_of_toArray by auto using and_finite_r.
    rewrite get_and, andb_true_iff. tauto.
Qed.

(** The receivers of [cardinality] and [toArray] in [storage.ts], for a
    finite origins vector [ov]: the anchor count, the one-stop and two-stop
    counters, the origins served on a shoulder day and the unavailable
    origins.  The vector of required origins handed to the stop count of a
    shoulder day is the last of them, so every [ov] of a stop count is
    finite as well. *)
Lemma receivers_finite ov avail direct oneStop twoStop aocSn :
  finite ov ->
  finite (and avail ov) /\
  finite (and oneStop (and (not direct) ov)) /\
  finite (and (and twoStop (and (not direct) ov)) (not oneStop)) /\
  finite (and aocSn (and (not avail) ov)) /\
  finite (and (not avail) ov).
Proof.
  intros Hov. repeat split; auto using and_finite_r, and_finite_l.
Qed.

Lemma elem_of_fromArray l x : get (fromArray l) x = true <-> x ∈ l.
Proof.
  induction l as [| y l IH]; simpl.
  - rewrite get_empty. split; [done | by intros ?%elem_of_nil].
  - rewrite get_set, orb_true_iff, bool_decide_eq_true, IH, elem_of_cons.
    intuition congruence.
Qed.

End BitSetFacts.

(** ** Registration *)

Lemma addAirport_Ok c s : exists b, (addAirport c s).1 = Ok b.
Proof. unfold addAirport. destruct (airports s !! c); eauto. Qed.

Lemma addAirport_known c s i :
  airports s !! c = Some i -> addAirport c s = (Ok false, s).
Proof. intros H. unfold addAirport. by rewrite H. Qed.

Lemma addAirport_registered c s : is_Some (airports (addAirport c s).2 !! c).
Proof.
  unfold addAirport. destruct (airports s !! c) eqn:E; simpl.
  - by rewrite E.
  - rewrite lookup_insert_eq. eauto.
Qed.

Lemma addAirport_lookup_mono c s c' i :
  airports s !! c' = Some i -> airports (addAirport c s).2 !! c' = Some i.
Proof.
  intros H. unfold addAirport. destruct (airports s !! c) eqn:E; simpl; [done |].
  rewrite lookup_insert_ne; [done |]. congruence.
Qed.

Lemma addAirport_startDate c s : startDate (addAirport c s).2 = startDate s.
Proof. unfold addAirport. by destruct (airports s !! c). Qed.

(** ** [setConnection], step by step *)

Lemma registered_origin c s : is_Some (airports (registered c s) !! originAirportCode c).
Proof.
  unfold registered.
  destruct (addAirport_registered (originAirportCode c) s) as [i Hi].
  exists i. by apply addAirport_lookup_mono.
Qed.

Lemma registered_destination c s :
  is_Some (airports (registered c s) !! destinationAirportCode c).
Proof. apply addAirport_registered. Qed.

Lemma registered_startDate c s : startDate (registered c s) = startDate s.
Proof. unfold registered. by rewrite !addAirport_startDate. Qed.

Lemma setConnection_unfold c s :
  setConnection c s =
  if passesStopsValidation (stops c) then
    let sb := registered c s in
    let day := dayIndex s (date c) in
    let arrival := day + arriveNextDay c in
    if passesDateValidation day && passesDateValidation arrival then
      match airports sb !! originAirportCode c, airports sb !! destinationAirportCode c with
      | Some oi, Some di =>
          match setBit (outboundStorage sb) arrival di (stops c) oi with
          | Some out' =>
              match setBit (inboundStorage sb) day oi (stops c) di with
              | Some in' => (Ok tt, withInbound (withOutbound sb out') in')
              | None => (Throw TypeError, withOutbound sb out')
              end
          | None => (Throw TypeError, sb)
          end
      | _, _ => (Ok tt, sb)
      end
    else (Throw DateOutsideRange, sb)
  else (Throw StopsNotSupported, s).
Proof.
  unfold setConnection, passesStopsValidation, passesDateValidation, dayIndex.
  unfold mbind, M_bind, bind, _validateStops.
  destruct ((stops c <? 0) || (stops c >? MAX_STOPS_SUPPORTED)); simpl; [done |].
  unfold registered.
  destruct (addAirport_Ok (originAirportCode c) s) as [b1 Hb1].
  pose proof (addAirport_startDate (originAirportCode c) s) as Hd1.
  destruct (addAirport (originAirportCode c) s) as [r1 s1]; simpl in *; subst r1.
  destruct (addAirport_Ok (destinationAirportCode c) s1) as [b2 Hb2].
  pose proof (addAirport_startDate (destinationAirportCode c) s1) as Hd2.
  destruct (addAirport (destinationAirportCode c) s1) as [r2 s2]; simpl in *; subst r2.
  unfold _convertDateToArrayIndex, mbind, M_bind, bind, gets, _validateDateIndex; simpl.
  rewrite Hd2, Hd1.
  set (day := (date c - startDate s) / MS_PER_DAY).
  destruct ((day <? 0) || (day >? MAX_DAYS_SUPPORTED)); simpl; [done |].
  destruct ((day + arriveNextDay c <? 0) || (day + arriveNextDay c >? MAX_DAYS_SUPPORTED));
    simpl; [done |].
  destruct (airports s2 !! originAirportCode c) as [oi |]; [| done].
  destruct (airports s2 !! destinationAirportCode c) as [di |]; [| done].
  unfold setOutboundBit, setInboundBit, withInbound, withOutbound; simpl.
  destruct (setBit (outboundStorage s2) _ _ _ _); simpl; [| done].
  by destruct (setBit (inboundStorage s2) _ _ _ _).
Qed.

Lemma setConnection_invalid_stops c s :
  passesStopsValidation (stops c) = false ->
  setConnection c s = (Throw StopsNotSupported, s).
Proof. intros H. rewrite setConnection_unfold. by rewrite H. Qed.

Lemma setConnection_stops_error_iff c s :
  (setConnection c s).1 = Throw StopsNotSupported <->
  stops c < 0 \/ MAX_STOPS_SUPPORTED < stops c.
Proof.
  rewrite setConnection_unfold. unfold passesStopsValidation.
  destruct (Z.ltb_spec (stops c) 0); destruct (Z.gtb_spec (stops c) MAX_STOPS_SUPPORTED);
    simpl; try (split; [intros _ | done]; lia).
  split; [| lia]. intros Hthrow. exfalso. revert Hthrow.
  destruct (_ && _); [| done].
  repeat (case_match; try done).
Qed.

(** The date error is thrown exactly when the stops are accepted and one of
    the two day indices is below zero or above [MAX_DAYS_SUPPORTED]. *)
Lemma setConnection_date_error_iff c s :
  (setConnection c s).1 = Throw DateOutsideRange <->
  passesStopsValidation (stops c) = true /\
  (dayIndex s (date c) < 0 \/ MAX_DAYS_SUPPORTED < dayIndex s (date c) \/
   dayIndex s (date c) + arriveNextDay c < 0 \/
   MAX_DAYS_SUPPORTED < dayIndex s (date c) + arriveNextDay c).
Proof.
  rewrite setConnection_unfold. unfold passesDateValidation.
  destruct (passesStopsValidation (stops c)); simpl; [| split; [done | by intros [? _]]].
  set (day := dayIndex s (date c)).
  destruct (Z.ltb_spec day 0); destruct (Z.gtb_spec day MAX_DAYS_SUPPORTED);
    destruct (Z.ltb_spec (day + arriveNextDay c) 0);
    destruct (Z.gtb_spec (day + arriveNextDay c) MAX_DAYS_SUPPORTED);
    simpl; try (split; [intros _; split; [done | lia] | done]).
  split; [| lia]. intros Hthrow. exfalso. revert Hthrow.
  repeat (case_match; try done).
Qed.

(** ** Writing one bit *)

Lemma at_index_Some {A} (l : list A) k x :
  at_index l k = Some x <-> 0 <= k /\ l !! Z.to_nat k = Some x.
Proof.
  unfold at_index. destruct (Z.ltb_spec k 0); [| intuition lia].
  split; [done | lia].
Qed.

Lemma at_index_insert {A} (l : list A) k k' x :
  0 <= k -> is_Some (at_index l k) ->
  at_index (<[Z.to_nat k := x]> l) k' = if decide (k' = k) then Some x else at_index l k'.
Proof.
  intros Hk [y [_ Hy]%at_index_Some]. apply lookup_lt_Some in Hy.
  unfold at_index. destruct (Z.ltb_spec k' 0).
  - case_decide; [lia | done].
  - rewrite list_lookup_insert. repeat case_decide; try done; try lia.
Qed.

Lemma setBit_vectorAt store day a st o store' :
  setBit store day a st o = Some store' ->
  exists b,
    vectorAt store day a st = Some b /\
    forall day' a' st',
      vectorAt store' day' a' st' =
      if decide (day' = day /\ a' = a /\ st' = st)
      then Some (BitSet.set b o)
      else vectorAt store day' a' st'.
Proof.
  unfold setBit, vectorAt. intros H.
  destruct (at_index store day) as [row |] eqn:Hrow; [| done]. simpl in H.
  destruct (row !! a) as [slot |] eqn:Hslot; [| done]. simpl in H.
  destruct (at_index slot st) as [b |] eqn:Hb; [| done]. simpl in H.
  injection H as <-. exists b. split; [by simpl; rewrite Hslot; simpl; rewrite Hb |].
  intros day' a' st'.
  pose proof Hrow as [Hday _]%at_index_Some.
  pose proof Hb as [Hst _]%at_index_Some.
  rewrite at_index_insert by (done || by eexists).
  destruct (decide (day' = day)) as [-> |]; simpl.
  - rewrite list_lookup_insert. apply lookup_lt_Some in Hslot as Hlen.
    destruct (decide (a = a' /\ (a < length row)%nat)) as [[<- _] | Hn]; simpl.
    + rewrite at_index_insert by (done || by eexists).
      destruct (decide (st' = st)) as [-> |].
      * by rewrite decide_True.
      * rewrite decide_False by tauto. by rewrite Hrow; simpl; rewrite Hslot.
    + rewrite decide_False by (intuition (subst; tauto || lia)). by rewrite Hrow.
  - by rewrite decide_False by tauto.
Qed.

Lemma bitAt_setBit store day a st o store' day' a' st' o' :
  setBit store day a st o = Some store' ->
  bitAt store' day' a' st' o' =
  bool_decide (day' = day /\ a' = a /\ st' = st /\ o' = o) || bitAt store day' a' st' o'.
Proof.
  intros (b & Hb & Hall)%setBit_vectorAt. unfold bitAt. rewrite Hall.
  case_decide as Hd.
  - destruct Hd as (-> & -> & ->). rewrite Hb, BitSetFacts.get_set.
    f_equal. apply bool_decide_ext. intuition congruence.
  - rewrite bool_decide_eq_false_2 by tauto. done.
Qed.

Lemma setBit_idempotent store day a st o store' :
  setBit store day a st o = Some store' -> setBit store' day a st o = Some store'.
Proof.
  unfold setBit. intros H.
  destruct (at_index store day) as [row |] eqn:Hrow; [| done]. simpl in H.
  destruct (row !! a) as [slot |] eqn:Hslot; [| done]. simpl in H.
  destruct (at_index slot st) as [b |] eqn:Hb; [| done]. simpl in H.
  injection H as <-.
  pose proof Hrow as [Hday _]%at_index_Some.
  pose proof Hb as [Hst _]%at_index_Some.
  rewrite at_index_insert, decide_True by (done || by eexists). simpl.
  rewrite list_lookup_insert_eq by by eapply lookup_lt_Some. simpl.
  rewrite at_index_insert, decide_True by (done || by eexists). simpl.
  by rewrite !list_insert_insert_eq, BitSetFacts.set_set.
Qed.

(** Pushing the slot of a new airport leaves every bit as it was. *)
Lemma lookup_pushSlots n store k :
  pushSlots n store !! k =
  (fun row => if decide (k < n)%nat then row ++ [newSlot] else row) <$> store !! k.
Proof.
  revert store k. induction n as [| n IH]; intros store k.
  - destruct (decide (k < 0)%nat); [lia |]. change (pushSlots 0 store) with store.
    by destruct (store !! k).
  - destruct store as [| row rest]; [done |].
    destruct k as [| k].
    + destruct (decide (0 < S n)%nat); [done | lia].
    + change (pushSlots (S n) (row :: rest) !! S k) with (pushSlots n rest !! k).
      rewrite IH. change ((row :: rest) !! S k) with (rest !! k).
      destruct (rest !! k); [| done].
      destruct (decide (k < n)%nat); destruct (decide (S k < S n)%nat); done || lia.
Qed.

Lemma length_pushSlots n store : length (pushSlots n store) = length store.
Proof. revert store. induction n; intros [|]; simpl; auto. Qed.

Lemma vectorAt_newSlot st b : at_index newSlot st = Some b -> b = BitSet.empty.
Proof.
  intros [_ H]%at_index_Some. by apply lookup_replicate_1 in H as [-> _].
Qed.

Lemma bitAt_pushSlots n store day a st o :
  bitAt (pushSlots n store) day a st o = bitAt store day a st o.
Proof.
  unfold bitAt, vectorAt.
  destruct (at_index store day) as [row |] eqn:Hrow.
  - apply at_index_Some in Hrow as [Hday Hrow].
    assert (at_index (pushSlots n store) day
            = Some (if decide (Z.to_nat day < n)%nat then row ++ [newSlot] else row)) as ->.
    { apply at_index_Some. split; [done |]. by rewrite lookup_pushSlots, Hrow. }
    simpl. case_decide; [| done]. rewrite lookup_app.
    destruct (row !! a) as [slot |] eqn:Hslot; simpl; [done |].
    destruct ([newSlot] !! (a - length row)%nat) as [slot |] eqn:Hnew; simpl; [| done].
    apply list_elem_of_lookup_2, list_elem_of_singleton in Hnew as ->.
    destruct (at_index newSlot st) as [b |] eqn:Hb; [| done].
    apply vectorAt_newSlot in Hb as ->. apply BitSetFacts.get_empty.
  - assert (at_index (pushSlots n store) day = None) as ->; [| done].
    unfold at_index in *. destruct (day <? 0); [done |].
    by rewrite lookup_pushSlots, Hrow.
Qed.

(** ** What a call of [setConnection] keeps *)

Lemma addAirport_bitAt_outbound c s day a st o :
  bitAt (outboundStorage (addAirport c s).2) day a st o = bitAt (outboundStorage s) day a st o.
Proof.
  unfold addAirport. destruct (airports s !! c); simpl; [done |]. apply bitAt_pushSlots.
Qed.

Lemma addAirport_bitAt_inbound c s day a st o :
  bitAt (inboundStorage (addAirport c s).2) day a st o = bitAt (inboundStorage s) day a st o.
Proof.
  unfold addAirport. destruct (airports s !! c); simpl; [done |]. apply bitAt_pushSlots.
Qed.

Lemma registered_bitAt_outbound c s day a st o :
  bitAt (outboundStorage (registered c s)) day a st o = bitAt (outboundStorage s) day a st o.
Proof. unfold registered. by rewrite !addAirport_bitAt_outbound. Qed.

Lemma registered_bitAt_inbound c s day a st o :
  bitAt (inboundStorage (registered c s)) day a st o = bitAt (inboundStorage s) day a st o.
Proof. unfold registered. by rewrite !addAirport_bitAt_inbound. Qed.

Lemma registered_lookup_mono c s c' i :
  airports s !! c' = Some i -> airports (registered c s) !! c' = Some i.
Proof. intros H. unfold registered. by do 2 apply addAirport_lookup_mono. Qed.

(** The four states a call can end in. *)
Lemma setConnection_cases c s :
  let sb := registered c s in
  let s' := (setConnection c s).2 in
  s' = s \/ s' = sb \/
  (exists arrival di oi out',
     setBit (outboundStorage sb) arrival di (stops c) oi = Some out' /\
     (s' = withOutbound sb out' \/
      exists day in',
        setBit (inboundStorage sb) day oi (stops c) di = Some in' /\
        s' = withInbound (withOutbound sb out') in')).
Proof.
  intros sb s'. subst s'. rewrite setConnection_unfold. fold sb.
  destruct (passesStopsValidation _); [| by left].
  cbv zeta. destruct (_ && _); [| by right; left].
  destruct (airports sb !! originAirportCode c) as [oi |]; [| by right; left].
  destruct (airports sb !! destinationAirportCode c) as [di |]; [| by right; left].
  destruct (setBit (outboundStorage sb) _ _ _ _) as [out' |] eqn:Hout; [| by right; left].
  right; right. exists (dayIndex s (date c) + arriveNextDay c), di, oi, out'.
  split; [done |].
  destruct (setBit (inboundStorage sb) _ _ _ _) as [in' |] eqn:Hin; [| by left].
  right. by exists (dayIndex s (date c)), in'.
Qed.

(** Append-only: a call of [setConnection], returning or throwing, keeps
    the registry entries and the bits that were there. *)
Lemma setConnection_keeps c s :
  let s' := (setConnection c s).2 in
  startDate s' = startDate s /\
  (forall c' i, airports s !! c' = Some i -> airports s' !! c' = Some i) /\
  (forall day a st o,
     bitAt (outboundStorage s) day a st o = true ->
     bitAt (outboundStorage s') day a st o = true) /\
  (forall day a st o,
     bitAt (inboundStorage s) day a st o = true ->
     bitAt (inboundStorage s') day a st o = true).
Proof.
  intros s'. subst s'.
  destruct (setConnection_cases c s)
    as [-> | [-> | (arr & di & oi & out' & Hout & [-> | (day & in' & Hin & ->)])]];
    simpl; rewrite ?registered_startDate; (split; [done |]);
    (split; [auto using registered_lookup_mono |]); split; intros d a st o Hb;
    rewrite ?(bitAt_setBit _ _ _ _ _ _ _ _ _ _ Hout), ?(bitAt_setBit _ _ _ _ _ _ _ _ _ _ Hin),
      ?registered_bitAt_outbound, ?registered_bitAt_inbound, ?Hb, ?orb_true_r; done.
Qed.

Lemma runAll_keeps cs s :
  startDate (runAll cs s) = startDate s /\
  (forall c' i, airports s !! c' = Some i -> airports (runAll cs s) !! c' = Some i) /\
  (forall day a st o,
     bitAt (outboundStorage s) day a st o = true ->
     bitAt (outboundStorage (runAll cs s)) day a st o = true) /\
  (forall day a st o,
     bitAt (inboundStorage s) day a st o = true ->
     bitAt (inboundStorage (runAll cs s)) day a st o = true).
Proof.
  revert s. induction cs as [| c cs IH]; intros s; [done |]. simpl.
  destruct (setConnection_keeps c s) as (Hd & Hr & Ho & Hi).
  destruct (IH (setConnection c s).2) as (Hd' & Hr' & Ho' & Hi').
  split; [congruence |]. split; [auto |]. split; auto.
Qed.


(** ** The invariant *)

Lemma shaped_init : shaped 0 (replicate (Z.to_nat MAX_DAYS_SUPPORTED) []).
Proof.
  split; [apply length_replicate |].
  apply list.Forall_forall. intros row [-> _]%elem_of_replicate. by split.
Qed.

Lemma shaped_pushSlots n store :
  shaped n store -> shaped (S n) (pushSlots (Z.to_nat MAX_DAYS_SUPPORTED) store).
Proof.
  intros [Hlen Hrows]. split; [by rewrite length_pushSlots |].
  apply Forall_lookup. intros k row' Hk. rewrite lookup_pushSlots in Hk.
  destruct (store !! k) as [row |] eqn:Hrow; [| done].
  pose proof (lookup_lt_Some _ _ _ Hrow) as Hlt.
  simpl in Hk. rewrite decide_True in Hk by lia. injection Hk as <-.
  destruct (Forall_lookup_1 _ _ _ _ Hrows Hrow) as [Hn Hslots].
  split; [rewrite length_app; simpl; lia |].
  apply Forall_app. split; [done |]. repeat constructor.
Qed.

Lemma shaped_setBit n store day a st o store' :
  shaped n store -> setBit store day a st o = Some store' -> shaped n store'.
Proof.
  intros [Hlen Hrows]. unfold setBit. intros H.
  destruct (at_index store day) as [row |] eqn:Hrow; [| done]. simpl in H.
  destruct (row !! a) as [slot |] eqn:Hslot; [| done]. simpl in H.
  destruct (at_index slot st) as [b |] eqn:Hb; [| done]. simpl in H.
  injection H as <-.
  apply at_index_Some in Hrow as [_ Hrow].
  destruct (Forall_lookup_1 _ _ _ _ Hrows Hrow) as [Hn Hslots].
  pose proof (Forall_lookup_1 _ _ _ _ Hslots Hslot) as Hs.
  split; [by rewrite length_insert |].
  apply Forall_insert; [done |]. split; [by rewrite length_insert |].
  apply Forall_insert; [done |]. by rewrite length_insert.
Qed.

Lemma wf_init initDate : wf (init initDate).
Proof.
  split; simpl; try apply shaped_init; [done |].
  intros c i. by rewrite lookup_empty, lookup_nil.
Qed.

Lemma wf_index_lt s c i : wf s -> airports s !! c = Some i -> (i < length (airportsArray s))%nat.
Proof. intros Hwf H. apply (wf_registry s Hwf) in H. by eapply lookup_lt_Some. Qed.

Lemma wf_addAirport c s : wf s -> wf (addAirport c s).2.
Proof.
  intros Hwf. unfold addAirport. destruct (airports s !! c) eqn:Hc; [done |]. simpl.
  destruct Hwf as [Hout Hin Hsize Hreg].
  split; simpl; rewrite ?length_app, ?Nat.add_1_r.
  - by apply shaped_pushSlots.
  - by apply shaped_pushSlots.
  - by rewrite map_size_insert_None, Hsize.
  - intros c' i. rewrite lookup_insert, lookup_snoc_Some, <- Hreg, Hsize.
    case_decide as Hcc; [subst c' |].
    + split; [intros [= <-]; by right |].
      intros [[_ H] | [-> _]]; [congruence | done].
    + split; [intros H; left; split; [| done] |].
      * apply Hreg in H. by eapply lookup_lt_Some.
      * intros [[_ H] | [_ ?]]; [done | congruence].
Qed.

Lemma wf_registered c s : wf s -> wf (registered c s).
Proof. intros H. unfold registered. by do 2 apply wf_addAirport. Qed.

Lemma wf_withOutbound s store :
  wf s -> shaped (length (airportsArray s)) store -> wf (withOutbound s store).
Proof. intros [] ?. by split. Qed.

Lemma wf_withInbound s store :
  wf s -> shaped (length (airportsArray s)) store -> wf (withInbound s store).
Proof. intros [] ?. by split. Qed.

Lemma wf_setConnection c s : wf s -> wf (setConnection c s).2.
Proof.
  intros Hwf. pose proof (wf_registered c s Hwf) as Hsb.
  destruct (setConnection_cases c s)
    as [-> | [-> | (arr & di & oi & out' & Hout & [-> | (day & in' & Hin & ->)])]];
    [done | done | |].
  - apply wf_withOutbound; [done |].
    eapply shaped_setBit; [apply (wf_outbound _ Hsb) | done].
  - apply wf_withInbound.
    + apply wf_withOutbound; [done |].
      eapply shaped_setBit; [apply (wf_outbound _ Hsb) | done].
    + eapply shaped_setBit; [apply (wf_inbound _ Hsb) | done].
Qed.

Lemma reachable_wf s : reachable s -> wf s.
Proof.
  induction 1; auto using wf_init, wf_addAirport, wf_setConnection.
Qed.

Lemma wf_NoDup s : wf s -> NoDup (airportsArray s).
Proof.
  intros Hwf. apply NoDup_alt. intros i j c Hi Hj.
  apply (wf_registry s Hwf) in Hi, Hj. congruence.
Qed.

Lemma wf_codeAt s i :
  wf s -> (i < size (airports s))%nat -> airportsArray s !! i = Some (codeAt (airportsArray s) i).
Proof.
  intros Hwf Hi. rewrite (wf_size s Hwf) in Hi. unfold codeAt.
  by destruct (lookup_lt_is_Some_2 _ _ Hi) as [c ->].
Qed.


Lemma shaped_setBit_is_Some n store day a st o :
  shaped n store ->
  0 <= day < MAX_DAYS_SUPPORTED -> (a < n)%nat -> 0 <= st < MAX_STOPS_SUPPORTED + 1 ->
  is_Some (setBit store day a st o).
Proof.
  intros [Hlen Hrows] Hday Ha Hst. unfold setBit.
  destruct (lookup_lt_is_Some_2 store (Z.to_nat day)) as [row Hrow]; [lia |].
  destruct (Forall_lookup_1 _ _ _ _ Hrows Hrow) as [Hn Hslots].
  destruct (lookup_lt_is_Some_2 row a) as [slot Hslot]; [lia |].
  pose proof (Forall_lookup_1 _ _ _ _ Hslots Hslot) as Hs. simpl in Hs.
  destruct (lookup_lt_is_Some_2 slot (Z.to_nat st)) as [b Hb]; [lia |].
  assert (at_index store day = Some row) as -> by (apply at_index_Some; split; [lia | done]).
  simpl. rewrite Hslot. simpl.
  assert (at_index slot st = Some b) as -> by (apply at_index_Some; split; [lia | done]).
  simpl. eauto.
Qed.

Lemma passesDateValidation_true index :
  passesDateValidation index = true <-> 0 <= index <= MAX_DAYS_SUPPORTED.
Proof.
  unfold passesDateValidation.
  destruct (Z.ltb_spec index 0); destruct (Z.gtb_spec index MAX_DAYS_SUPPORTED); simpl;
    split; (done || lia).
Qed.





(** ** The bits a store holds *)










(** ** Ranking, step by step *)

Lemma bind_run_Ok {A B} (m : M A) (f : A -> M B) s b :
  readonly m -> ((m ≫= f) s).1 = Ok b ->
  exists a, (m s).1 = Ok a /\ (f a s).1 = Ok b.
Proof.
  intros Hm. rewrite readonly_bind_run by done.
  destruct (m s).1 as [a | e]; [eauto | done].
Qed.

Tactic Notation "run_inv" hyp(H) "as" simple_intropattern(a) simple_intropattern(Ha) :=
  apply bind_run_Ok in H as (a & Ha & H); [| solve [readonly_tac]].

Lemma foldM_app_run {A B} (body : A -> B -> M A) l1 l2 acc s :
  (forall a x, readonly (body a x)) ->
  (foldM body (l1 ++ l2) acc s).1 =
  match (foldM body l1 acc s).1 with
  | Ok acc' => (foldM body l2 acc' s).1
  | Throw e => Throw e
  end.
Proof.
  intros Hb. revert acc. induction l1 as [| x l1 IH]; intros acc; [done |].
  simpl. rewrite !readonly_bind_run by done.
  destruct (body acc x s).1; [apply IH | done].
Qed.

(** The candidate loop pushes one record per index, in order. *)
Lemma foldM_collect {A B} (f : B -> M A) l acc s r :
  (forall x, readonly (f x)) ->
  (foldM (fun result x => d ← f x; mret (result ++ [d])) l acc s).1 = Ok r ->
  exists ds, r = acc ++ ds /\ Forall2 (fun x d => (f x s).1 = Ok d) l ds.
Proof.
  intros Hf. revert acc. induction l as [| x l IH]; intros acc H; simpl in H.
  - injection H as <-. exists []. by rewrite app_nil_r.
  - run_inv H as acc' Hacc. run_inv Hacc as d Hd. injection Hacc as <-.
    destruct (IH _ H) as (ds & -> & Hds). exists (d :: ds).
    split; [by rewrite <- app_assoc | by constructor].
Qed.

Lemma candidate_inv om ov n oi ii mo mi i s d :
  (candidate om ov n oi ii mo mi i s).1 = Ok d ->
  exists out inb,
    (outboundSide om ov n oi mo i s).1 = Ok out /\
    (inboundSide om ov n ii mi i s).1 = Ok inb /\
    code d = codeAt (airportsArray s) i /\
    availableOrigins d = count out + count inb /\
    outboundShoulderNights d = shoulderNights out /\
    inboundShoulderNights d = shoulderNights inb.
Proof.
  unfold candidate. intros H.
  run_inv H as out Hout. run_inv H as inb Hinb. run_inv H as arr Harr.
  run_inv H as uo Huo. run_inv H as ui Hui.
  injection Harr as <-. injection H as <-. exists out, inb. by simpl.
Qed.

Lemma getDestinationsForDatePair_inv origins ms me mo mi tk s r :
  (getDestinationsForDatePair origins ms me mo mi tk s).1 = Ok r ->
  exists ds,
    Forall2 (fun i d =>
               (candidate (originsMapOf origins) (originsVectorOf s origins)
                  (Z.of_nat (length origins)) (dayIndex s ms) (dayIndex s me) mo mi i s).1
               = Ok d)
      (seq 0 (size (airports s))) ds /\
    r = if tk >? 0 then take (Z.to_nat tk) (sortByAvailable ds) else sortByAvailable ds.
Proof.
  unfold getDestinationsForDatePair. intros H.
  run_inv H as ov Hov. run_inv H as outIdx Hout. run_inv H as inIdx Hin. run_inv H as n Hn.
  run_inv H as result Hres. injection H as <-. injection Hn as <-.
  injection Hov as <-.
  unfold _convertDateToArrayIndex in Hout, Hin.
  run_inv Hout as st Hst. run_inv Hout as u Hu. injection Hout as <-. injection Hst as <-.
  run_inv Hin as st Hst. run_inv Hin as u' Hu'. injection Hin as <-. injection Hst as <-.
  apply foldM_collect in Hres as (ds & -> & Hds); [| intros; readonly_tac].
  exists ds. split; [exact Hds | done].
Qed.

Lemma convertDateToArrayIndex_run d s :
  (_convertDateToArrayIndex d s).1
  = if passesDateValidation (dayIndex s d) then Ok (dayIndex s d) else Throw DateOutsideRange.
Proof.
  unfold _convertDateToArrayIndex, mbind, M_bind, bind, gets, _validateDateIndex,
    passesDateValidation, dayIndex.
  by destruct ((d - startDate s) / MS_PER_DAY <? 0),
              ((d - startDate s) / MS_PER_DAY >? MAX_DAYS_SUPPORTED).
Qed.

(** A query whose two dates pass the validation runs the candidate loop. *)
Lemma getDestinationsForDatePair_run origins ms me mo mi tk s :
  (getDestinationsForDatePair origins ms me mo mi tk s).1
  = if passesDateValidation (dayIndex s ms) && passesDateValidation (dayIndex s me)
    then
      match (foldM (fun result i =>
                      d ← candidate (originsMapOf origins) (originsVectorOf s origins)
                            (Z.of_nat (length origins)) (dayIndex s ms) (dayIndex s me)
                            mo mi i;
                      mret (result ++ [d]))
               (seq 0 (size (airports s))) [] s).1 with
      | Ok result =>
          Ok (if tk >? 0 then take (Z.to_nat tk) (sortByAvailable result)
              else sortByAvailable result)
      | Throw e => Throw e
      end
    else Throw DateOutsideRange.
Proof.
  unfold getDestinationsForDatePair.
  rewrite readonly_bind_run by readonly_tac.
  assert ((_prepareOriginVector (keys (originsMapOf origins)) s).1
          = Ok (originsVectorOf s origins)) as -> by reflexivity.
  rewrite readonly_bind_run, convertDateToArrayIndex_run by readonly_tac.
  destruct (passesDateValidation (dayIndex s ms)); [| done].
  rewrite readonly_bind_run, convertDateToArrayIndex_run by readonly_tac.
  destruct (passesDateValidation (dayIndex s me)); [| done].
  rewrite readonly_bind_run by readonly_tac. cbn [gets fst andb].
  rewrite readonly_bind_run by (intros; readonly_tac).
  done.
Qed.

(** A call that returns is the call with [take] 0, cut. *)
Lemma getDestinationsForDatePair_full origins ms me mo mi tk s r :
  (getDestinationsForDatePair origins ms me mo mi tk s).1 = Ok r ->
  exists ds,
    Forall2 (fun i d =>
               (candidate (originsMapOf origins) (originsVectorOf s origins)
                  (Z.of_nat (length origins)) (dayIndex s ms) (dayIndex s me) mo mi i s).1
               = Ok d)
      (seq 0 (size (airports s))) ds /\
    (getDestinationsForDatePair origins ms me mo mi 0 s).1 = Ok (sortByAvailable ds) /\
    r = if tk >? 0 then take (Z.to_nat tk) (sortByAvailable ds) else sortByAvailable ds.
Proof.
  rewrite !getDestinationsForDatePair_run.
  destruct (_ && _); [| done].
  destruct (foldM _ _ _ _).1 as [result | e] eqn:Hres; [| done].
  intros [= <-].
  apply foldM_collect in Hres as (ds & -> & Hds); [| intros; readonly_tac].
  exists ds. by rewrite app_nil_l.
Qed.

(** ** The final sort *)

Lemma insertByAvailable_perm x l : insertByAvailable x l ≡ₚ x :: l.
Proof.
  induction l as [| y l IH]; simpl; [done |].
  case_match; [done |]. rewrite IH. apply Permutation_swap.
Qed.

Lemma sortByAvailable_perm l : sortByAvailable l ≡ₚ l.
Proof.
  induction l as [| x l IH]; [done |]. simpl.
  by rewrite insertByAvailable_perm, IH.
Qed.

Lemma insertByAvailable_sorted x l :
  StronglySorted descending l -> StronglySorted descending (insertByAvailable x l).
Proof.
  induction 1 as [| y l Hs IH Hy]; simpl; [repeat constructor |].
  destruct (Z.leb_spec (availableOrigins y) (availableOrigins x)) as [Hle | Hlt].
  - constructor; [by constructor |]. constructor; [done |].
    eapply List.Forall_impl; [| exact Hy]. unfold descending. simpl. intros. lia.
  - constructor; [done |]. rewrite insertByAvailable_perm.
    constructor; [unfold descending; lia | done].
Qed.

Lemma sortByAvailable_sorted l : StronglySorted descending (sortByAvailable l).
Proof.
  induction l as [| x l IH]; simpl; [constructor | by apply insertByAvailable_sorted].
Qed.

(** The sort is stable: records with the same [availableOrigins] keep the
    order in which the candidate loop pushed them. *)
Lemma insertByAvailable_stable k x l :
  filter (fun d => availableOrigins d = k) (insertByAvailable x l)
  = filter (fun d => availableOrigins d = k) (x :: l).
Proof.
  induction l as [| y l IH]; simpl; [done |].
  destruct (Z.leb_spec (availableOrigins y) (availableOrigins x)) as [Hle | Hlt]; [done |].
  rewrite (filter_cons _ y), IH, !filter_cons.
  repeat case_decide; (done || lia).
Qed.

Lemma sortByAvailable_stable k l :
  filter (fun d => availableOrigins d = k) (sortByAvailable l)
  = filter (fun d => availableOrigins d = k) l.
Proof.
  induction l as [| x l IH]; [done |]. simpl.
  by rewrite insertByAvailable_stable, !filter_cons, IH.
Qed.

Lemma take_sorted {A} (R : A -> A -> Prop) n (l : list A) :
  StronglySorted R l -> StronglySorted R (take n l).
Proof.
  intros H. rewrite <- (take_drop n l) in H. by apply StronglySorted_app_1_l in H.
Qed.

(** ** Coverage grows with the tolerance *)

Lemma shoulderBody_count sel om ov i day j v s v' :
  (shoulderBody sel om ov i day j v s).1 = Ok v' -> count v <= count v'.
Proof.
  unfold shoulderBody. intros H.
  run_inv H as aoc Haoc. run_inv H as sc Hsc. run_inv H as arr Harr.
  injection H as <-. simpl.
  pose proof (BitSetFacts.cardinality_nonneg
                (BitSet.and aoc (BitSet.and (BitSet.not (available v)) ov))).
  lia.
Qed.

Lemma foldM_count_mono (body : Side -> Z -> M Side) l v s v' :
  (forall v j, readonly (body v j)) ->
  (forall v j v', (body v j s).1 = Ok v' -> count v <= count v') ->
  (foldM body l v s).1 = Ok v' -> count v <= count v'.
Proof.
  intros Hro Hb. revert v. induction l as [| j l IH]; intros v H; simpl in H.
  - injection H as <-. lia.
  - apply bind_run_Ok in H as (v1 & H1 & H); [| done].
    apply Hb in H1. apply IH in H. lia.
Qed.

Lemma upto_app m m' :
  m <= m' -> exists rest, upto m' = upto m ++ rest.
Proof.
  intros Hle. unfold upto.
  exists (Z.of_nat <$> seq (1 + Z.to_nat m) (Z.to_nat m' - Z.to_nat m)).
  rewrite <- fmap_app, <- seq_app. do 2 f_equal. lia.
Qed.

Lemma upto_nonpos m : m <= 0 -> upto m = [].
Proof. intros H. unfold upto. by replace (Z.to_nat m) with 0%nat by lia. Qed.

Lemma outboundSide_mono om ov n idx m m' i s v v' :
  m <= m' ->
  (outboundSide om ov n idx m i s).1 = Ok v ->
  (outboundSide om ov n idx m' i s).1 = Ok v' ->
  count v <= count v'.
Proof.
  intros Hle. unfold outboundSide. intros H H'.
  run_inv H as v0 Hv0. run_inv H' as v0' Hv0'.
  rewrite Hv0 in Hv0'. injection Hv0' as <-.
  set (body := fun (v : Side) (j : Z) =>
                 if count v <? n
                 then shoulderBody outboundStorage om ov i (idx - j) j v
                 else mret v) in *.
  assert (forall v j, readonly (body v j)) as Hro by (intros; unfold body; readonly_tac).
  assert (forall v j v', (body v j s).1 = Ok v' -> count v <= count v') as Hb.
  { intros w j w'. unfold body. destruct (count w <? n).
    - apply shoulderBody_count.
    - intros [= <-]. lia. }
  destruct (count v0 <? n); simpl in H, H'; [| injection H as <-; injection H' as <-; lia].
  destruct (Z.gtb_spec m 0) as [Hm | Hm].
  - destruct (Z.gtb_spec m' 0) as [Hm' | Hm']; [| lia].
    destruct (upto_app m m' Hle) as [rest Hrest]. rewrite Hrest in H'.
    rewrite foldM_app_run, H in H' by done.
    by eapply foldM_count_mono.
  - injection H as <-. destruct (m' >? 0).
    + by eapply foldM_count_mono.
    + injection H' as <-. lia.
Qed.

Lemma inboundSide_mono om ov n idx m m' i s v v' :
  m <= m' ->
  (inboundSide om ov n idx m i s).1 = Ok v ->
  (inboundSide om ov n idx m' i s).1 = Ok v' ->
  count v <= count v'.
Proof.
  intros Hle. unfold inboundSide. intros H H'.
  run_inv H as v0 Hv0. run_inv H' as v0' Hv0'.
  rewrite Hv0 in Hv0'. injection Hv0' as <-.
  assert (forall mx v j,
            readonly (if (count v <? n) && (mx >? 0)
                      then shoulderBody inboundStorage om ov i (idx + j) j v
                      else mret v)) as Hro by (intros; readonly_tac).
  assert (forall mx v j v',
            ((if (count v <? n) && (mx >? 0)
              then shoulderBody inboundStorage om ov i (idx + j) j v
              else mret v) s).1 = Ok v' -> count v <= count v') as Hb.
  { intros mx w j w'. destruct (_ && _).
    - apply shoulderBody_count.
    - intros [= <-]. lia. }
  destruct (count v0 <? n); [| injection H as <-; injection H' as <-; lia].
  destruct (Z.gtb_spec m 0) as [Hm | Hm].
  - destruct (Z.gtb_spec m' 0) as [Hm' | Hm']; [| lia].
    destruct (upto_app m m' Hle) as [rest Hrest]. rewrite Hrest in H'.
    rewrite foldM_app_run, H in H' by (intros; apply (Hro 1)).
    eapply (foldM_count_mono _ rest); [| | exact H'].
    + intros; apply (Hro 1).
    + intros; by eapply (Hb 1).
  - rewrite (upto_nonpos m) in H by lia. injection H as <-.
    eapply foldM_count_mono; [| | exact H'].
    + intros; apply Hro.
    + intros; by eapply Hb.
Qed.

(** ** The shape of the result *)

Lemma candidates_codes s (f : nat -> M Destination) ds :
  wf s ->
  (forall i d, (f i s).1 = Ok d -> code d = codeAt (airportsArray s) i) ->
  Forall2 (fun i d => (f i s).1 = Ok d) (seq 0 (size (airports s))) ds ->
  code <$> ds = airportsArray s.
Proof.
  intros Hwf Hf Hds. apply list_eq. intros i. rewrite list_lookup_fmap.
  assert (length (seq 0 (size (airports s))) = length ds) as Hlen
    by by eapply Forall2_length.
  rewrite length_seq in Hlen.
  destruct (ds !! i) as [d |] eqn:Hd; simpl.
  - destruct (Forall2_lookup_r _ _ _ _ _ Hds Hd) as (k & Hk & Hc).
    apply lookup_seq in Hk as [-> Hlt]. simpl in Hc.
    rewrite (Hf _ _ Hc). symmetry. by apply wf_codeAt.
  - symmetry. apply lookup_ge_None. apply lookup_ge_None in Hd.
    rewrite <- (wf_size s Hwf). lia.
Qed.

(** ** Shoulder nights *)

Lemma sumArray_cons a l : sumArray (a :: l) = a + sumArray l.
Proof.
  unfold sumArray.
  assert (forall z, foldl Z.add z l = z + foldl Z.add 0 l) as H.
  { induction l as [| b l IH]; intros z; cbn [foldl]; [lia |].
    rewrite (IH (z + b)), (IH (0 + b)). lia. }
  cbn [foldl]. rewrite (H (0 + a)). lia.
Qed.

Lemma sumArray_nil : sumArray [] = 0.
Proof. done. Qed.

Lemma firstServed_app l1 l2 x j :
  firstServed (l1 ++ l2) x j =
  match firstServed l1 x j with
  | Some d => Some d
  | None => firstServed l2 x (j + Z.of_nat (length l1))
  end.
Proof.
  revert j. induction l1 as [| layer l1 IH]; intros j; simpl.
  - by rewrite Z.add_0_r.
  - destruct (BitSet.get layer x); [done |]. rewrite IH. case_match; [done |].
    f_equal. lia.
Qed.

(** The distance is that of the first layer with the bit, no earlier layer
    having it. *)
Lemma firstServed_Some layers x j0 d :
  firstServed layers x j0 = Some d <->
  exists k layer,
    d = j0 + Z.of_nat k /\ layers !! k = Some layer /\ BitSet.get layer x = true /\
    forall k' layer', (k' < k)%nat -> layers !! k' = Some layer' -> BitSet.get layer' x = false.
Proof.
  revert j0. induction layers as [| layer layers IH]; intros j0; simpl.
  - split; [done | by intros (k & ? & _ & ? & _)].
  - destruct (BitSet.get layer x) eqn:Hget.
    + split.
      * intros [= <-]. exists 0%nat, layer. split; [lia |]. split; [done |].
        split; [done |]. intros; lia.
      * intros (k & layer' & -> & Hk & Hx & Hbefore). destruct k as [| k]; [f_equal; lia |].
        specialize (Hbefore 0%nat layer). simpl in Hbefore.
        rewrite Hbefore in Hget by (done || lia). done.
    + rewrite IH. split.
      * intros (k & layer' & -> & Hk & Hx & Hbefore). exists (S k), layer'.
        split; [lia |]. split; [done |]. split; [done |].
        intros [| k'] l' Hlt Hl'; simpl in Hl'; [congruence |].
        eapply Hbefore; [| done]. lia.
      * intros (k & layer' & -> & Hk & Hx & Hbefore). destruct k as [| k].
        { simpl in Hk. congruence. }
        exists k, layer'. split; [lia |]. split; [done |]. split; [done |].
        intros k' l' Hlt Hl'. apply (Hbefore (S k') l'); [lia | done].
Qed.

Lemma servedDistance_anchor layer rest x :
  BitSet.get layer x = true -> servedDistance (layer :: rest) x = 0.
Proof. intros H. unfold servedDistance. simpl. by rewrite H. Qed.

Lemma originsMapOf_snoc origins o :
  originsMapOf (origins ++ [o]) = <[origin_code o := origin_count o]> (originsMapOf origins).
Proof. unfold originsMapOf. by rewrite foldl_snoc. Qed.

(** The map of the origins holds the last count of each code. *)
Lemma originsMapOf_lookup origins c : originsMapOf origins !! c = lastCount origins c.
Proof.
  unfold originsMapOf.
  assert (forall m : gmap string Z,
            foldl (fun m o => <[origin_code o := origin_count o]> m) m origins !! c
                    = match lastCount origins c with Some w => Some w | None => m !! c end)
    as H; [| rewrite H, lookup_empty; by destruct (lastCount origins c)].
  induction origins as [| o origins IH]; intros m; simpl; [done |].
  rewrite IH. destruct (lastCount origins c); [done |].
  rewrite lookup_insert. by destruct (decide (origin_code o = c)).
Qed.

Lemma layerAt_Ok sel s day i b :
  (availableConnections sel day i s).1 = Ok b -> layerAt sel s day i = b.
Proof. intros H. unfold layerAt. by rewrite H. Qed.

Lemma anchorSide_inv sel ov idx i s v :
  BitSet.finite ov ->
  (anchorSide sel ov idx i s).1 = Ok v ->
  available v = layerAt sel s idx i /\
  count v
  = Z.of_nat (length (filter (fun x => BitSet.get (available v) x = true) (BitSet.toArray ov))) /\
  shoulderNights v = 0.
Proof.
  intros Hov. unfold anchorSide. intros H.
  run_inv H as avail Havail. run_inv H as total Htotal. injection H as <-. simpl.
  split; [by rewrite (layerAt_Ok _ _ _ _ _ Havail) |]. split; [| done].
  by rewrite BitSetFacts.cardinality_length, BitSetFacts.toArray_and.
Qed.

(** One shoulder day: the origins served now are those of the vector that
    the day's layer has and no earlier day had. *)
Lemma shoulderBody_inv sel om ov i day j v s v' :
  BitSet.finite ov ->
  (shoulderBody sel om ov i day j v s).1 = Ok v' ->
  let served :=
    filter (fun x => BitSet.get (layerAt sel s day i) x = true /\
                     BitSet.get (available v) x = false)
           (BitSet.toArray ov) in
  available v' = BitSet.or (available v) (layerAt sel s day i) /\
  count v' = count v + Z.of_nat (length served) /\
  shoulderNights v'
  = shoulderNights v + sumArray (weight (airportsArray s) om <$> served) * j.
Proof.
  intros Hov. unfold shoulderBody. intros H.
  run_inv H as aoc Haoc. run_inv H as sc Hsc. run_inv H as arr Harr.
  injection Harr as <-. injection H as <-. cbn [available count shoulderNights].
  rewrite (layerAt_Ok _ _ _ _ _ Haoc).
  assert (BitSet.toArray (BitSet.and aoc (BitSet.and (BitSet.not (available v)) ov))
          = filter (fun x => BitSet.get aoc x = true /\ BitSet.get (available v) x = false)
              (BitSet.toArray ov)) as Hserved.
  { rewrite BitSetFacts.and_assoc, BitSetFacts.toArray_and by done.
    apply list_filter_iff. intros x.
    rewrite BitSetFacts.get_and, BitSetFacts.get_not, andb_true_iff, negb_true_iff. done. }
  rewrite BitSetFacts.cardinality_length, Hserved. done.
Qed.

Section ShoulderLoop.
Variable w : nat -> Z.
Variable positions : list nat.

Lemma loopInv_anchor layer v :
  available v = layer ->
  count v
  = Z.of_nat (length (filter (fun x => BitSet.get (available v) x = true) positions)) ->
  shoulderNights v = 0 ->
  loopInv w positions [layer] v.
Proof.
  intros Ha Hc Hs. split; [| split; [done |]].
  - intros x _. simpl. rewrite Ha. destruct (BitSet.get layer x); [| split; [done |]].
    + split; eauto.
    + by intros [? ?].
  - rewrite Hs. clear. induction positions as [| x l IH]; [done |].
    rewrite fmap_cons, sumArray_cons, <- IH. unfold servedDistance. simpl.
    destruct (BitSet.get layer x); simpl; lia.
Qed.

(** A day on which the body runs. *)
Lemma loopInv_step layers layer v v' :
  loopInv w positions layers v ->
  let served :=
    filter (fun x => BitSet.get layer x = true /\ BitSet.get (available v) x = false)
           positions in
  available v' = BitSet.or (available v) layer ->
  count v' = count v + Z.of_nat (length served) ->
  shoulderNights v'
  = shoulderNights v + sumArray (w <$> served) * Z.of_nat (length layers) ->
  loopInv w positions (layers ++ [layer]) v'.
Proof.
  intros (Hserved & Hcount & Hnights) served Ha Hc Hs. subst served.
  unfold loopInv. rewrite Ha, Hc, Hs, Hcount, Hnights. clear Ha Hc Hs Hcount Hnights.
  split; [| split].
  - intros x Hx. rewrite BitSetFacts.get_or, orb_true_iff, (Hserved x Hx).
    rewrite firstServed_app. destruct (firstServed layers x 0); simpl.
    + split; eauto.
    + destruct (BitSet.get layer x); split; eauto; intros [[? ?] | ?]; done.
  - induction positions as [| x l IH]; [done |].
    rewrite !filter_cons. rewrite BitSetFacts.get_or.
    assert (forall y, y ∈ l ->
              BitSet.get (available v) y = true <-> is_Some (firstServed layers y 0)) as Hl.
    { intros y Hy. apply Hserved. by right. }
    specialize (IH Hl).
    destruct (BitSet.get (available v) x), (BitSet.get layer x);
      repeat (case_decide; try (simpl in *; intuition congruence));
      simpl in *; lia.
  - induction positions as [| x l IH]; [simpl; rewrite sumArray_nil; lia |].
    assert (forall y, y ∈ l ->
              BitSet.get (available v) y = true <-> is_Some (firstServed layers y 0)) as Hl.
    { intros y Hy. apply Hserved. by right. }
    specialize (IH Hl).
    rewrite filter_cons, !fmap_cons, !sumArray_cons, <- IH.
    specialize (Hserved x (list_elem_of_here _ _)).
    unfold servedDistance at 1 3. rewrite firstServed_app. simpl.
    destruct (firstServed layers x 0) as [d |] eqn:Hd.
    + assert (BitSet.get (available v) x = true) as Hav by (apply Hserved; eauto).
      rewrite decide_False by (rewrite Hav; intuition congruence). simpl. lia.
    + assert (BitSet.get (available v) x = false) as Hav.
      { destruct (BitSet.get (available v) x); [| done].
        destruct Hserved as [Hs _]. by destruct Hs. }
      destruct (BitSet.get layer x) eqn:Hl'.
      * rewrite decide_True by done. rewrite fmap_cons, sumArray_cons. simpl. lia.
      * rewrite decide_False by (intuition congruence). simpl. lia.
Qed.

(** Once as many origins are served as the list of origins is long, no
    later day changes anything. *)
Lemma loopInv_skip n layers more v :
  (Z.of_nat (length positions) <= n) ->
  loopInv w positions layers v ->
  ~ count v < n ->
  loopInv w positions (layers ++ more) v.
Proof.
  intros Hn (Hserved & Hcount & Hnights) Hfull.
  assert (forall x, x ∈ positions -> is_Some (firstServed layers x 0)) as Hall.
  { intros x Hx. apply Hserved; [done |].
    destruct (BitSet.get (available v) x) eqn:Hget; [done |]. exfalso.
    assert (length (filter (fun x => BitSet.get (available v) x = true) positions)
            < length positions)%nat as Hlt; [| lia].
    apply (length_filter_lt _ _ x); [done |]. simpl. congruence. }
  split; [| split; [done |]].
  - intros x Hx. rewrite (Hserved x Hx), firstServed_app.
    destruct (Hall x Hx) as [d ->]. done.
  - rewrite Hnights. f_equal. apply list_fmap_ext. intros k x Hx.
    apply list_elem_of_lookup_2 in Hx. unfold servedDistance. rewrite firstServed_app.
    by destruct (Hall x Hx) as [d ->].
Qed.
End ShoulderLoop.

Lemma shoulderLoop_inv sel om ov i n (dayOf : Z -> Z) (guard : Side -> bool) s :
  BitSet.finite ov ->
  Z.of_nat (length (BitSet.toArray ov)) <= n ->
  (forall v, guard v = false -> ~ count v < n) ->
  forall k layers v v',
    loopInv (weight (airportsArray s) om) (BitSet.toArray ov) layers v ->
    (foldM (fun v j => if guard v then shoulderBody sel om ov i (dayOf j) j v else mret v)
       (Z.of_nat <$> seq (length layers) k) v s).1 = Ok v' ->
    loopInv (weight (airportsArray s) om) (BitSet.toArray ov)
      (layers ++ ((fun j => layerAt sel s (dayOf j) i) <$> (Z.of_nat <$> seq (length layers) k)))
      v'.
Proof.
  intros Hov Hn Hguard k. induction k as [| k IH]; intros layers v v' Hinv H.
  - simpl in H. injection H as <-. by rewrite app_nil_r.
  - cbn [seq fmap list_fmap] in *. simpl in H.
    apply bind_run_Ok in H as (v1 & Hv1 & H); [| readonly_tac].
    assert (loopInv (weight (airportsArray s) om) (BitSet.toArray ov)
              (layers ++ [layerAt sel s (dayOf (Z.of_nat (length layers))) i]) v1) as Hinv1.
    { destruct (guard v) eqn:Hg.
      - apply (shoulderBody_inv _ _ _ _ _ _ _ _ _ Hov) in Hv1 as (Ha & Hc & Hs).
        by eapply loopInv_step.
      - injection Hv1 as <-. eapply loopInv_skip; eauto. }
    specialize (IH (layers ++ [layerAt sel s (dayOf (Z.of_nat (length layers))) i]) v1 v' Hinv1).
    rewrite length_app, Nat.add_1_r in IH. cbn [length] in IH.
    rewrite <- app_assoc in IH. apply IH. exact H.
Qed.

Lemma outboundSide_nights om ov n idx mo i s v :
  BitSet.finite ov ->
  Z.of_nat (length (BitSet.toArray ov)) <= n ->
  (outboundSide om ov n idx mo i s).1 = Ok v ->
  shoulderNights v
  = sumArray ((fun x => weight (airportsArray s) om x
                        * servedDistance (outboundLayers s idx mo i) x)
              <$> BitSet.toArray ov).
Proof.
  intros Hov Hn. unfold outboundSide. intros H.
  run_inv H as v0 Hv0.
  apply (anchorSide_inv _ _ _ _ _ _ Hov) in Hv0 as (Ha & Hc & Hs).
  pose proof (loopInv_anchor (weight (airportsArray s) om) _ _ _ Ha Hc Hs) as Hinv.
  unfold outboundLayers.
  destruct (count v0 <? n) eqn:Hlt; simpl in H.
  - destruct (Z.gtb_spec mo 0) as [Hm | Hm].
    + refine (proj2 (proj2
        (shoulderLoop_inv outboundStorage om ov i n (fun j => idx - j)
           (fun v => count v <? n) s Hov Hn _ (Z.to_nat mo)
           [layerAt outboundStorage s idx i] v0 v Hinv H))).
      intros w Hw. apply Z.ltb_ge in Hw. lia.
    + injection H as <-. rewrite upto_nonpos by lia. apply Hinv.
  - injection H as <-. apply Z.ltb_ge in Hlt.
    refine (proj2 (proj2 (loopInv_skip _ _ n [_] _ v0 Hn Hinv _))). lia.
Qed.

Lemma inboundSide_nights om ov n idx mi i s v :
  BitSet.finite ov ->
  Z.of_nat (length (BitSet.toArray ov)) <= n ->
  (inboundSide om ov n idx mi i s).1 = Ok v ->
  shoulderNights v
  = sumArray ((fun x => weight (airportsArray s) om x
                        * servedDistance (inboundLayers s idx mi i) x)
              <$> BitSet.toArray ov).
Proof.
  intros Hov Hn. unfold inboundSide. intros H.
  run_inv H as v0 Hv0.
  apply (anchorSide_inv _ _ _ _ _ _ Hov) in Hv0 as (Ha & Hc & Hs).
  pose proof (loopInv_anchor (weight (airportsArray s) om) _ _ _ Ha Hc Hs) as Hinv.
  unfold inboundLayers.
  destruct (count v0 <? n) eqn:Hlt.
  - destruct (Z.gtb_spec mi 0) as [Hm | Hm].
    + refine (proj2 (proj2
        (shoulderLoop_inv inboundStorage om ov i n (fun j => idx + j)
           (fun v => (count v <? n) && true) s Hov Hn _ (Z.to_nat mi)
           [layerAt inboundStorage s idx i] v0 v Hinv H))).
      intros w Hw. rewrite andb_true_r in Hw. apply Z.ltb_ge in Hw. lia.
    + rewrite upto_nonpos in * by lia. injection H as <-. apply Hinv.
  - injection H as <-. apply Z.ltb_ge in Hlt.
    refine (proj2 (proj2 (loopInv_skip _ _ n [_] _ v0 Hn Hinv _))). lia.
Qed.

(** ** The origins vector *)

Lemma originsMapOf_size origins : (size (originsMapOf origins) <= length origins)%nat.
Proof.
  induction origins as [| o origins IH] using rev_ind; [done |].
  rewrite originsMapOf_snoc, length_app, map_size_insert. simpl.
  destruct (originsMapOf origins !! origin_code o); simpl; lia.
Qed.

Lemma originsVectorOf_finite s origins : BitSet.finite (originsVectorOf s origins).
Proof. apply BitSetFacts.finite_fromArray. Qed.

Lemma originsVectorOf_length s origins :
  (length (BitSet.toArray (originsVectorOf s origins)) <= length origins)%nat.
Proof.
  etrans; [| apply originsMapOf_size].
  unfold originsVectorOf, keys.
  set (l := omap _ _).
  assert (length l <= size (originsMapOf origins))%nat as Hl.
  { subst l. rewrite <- length_map_to_list, <- (length_fmap fst).
    generalize ((map_to_list (originsMapOf origins)).*1). clear. intros l.
    induction l as [| c l IH]; [done |]. cbn [omap list_omap length].
    destruct (airports s !! c); cbn [length]; lia. }
  etrans; [| exact Hl].
  apply submseteq_length, NoDup_submseteq; [apply BitSetFacts.toArray_NoDup |].
  intros x Hx. apply BitSetFacts.elem_of_toArray in Hx; [| apply BitSetFacts.finite_fromArray].
  by apply BitSetFacts.elem_of_fromArray.
Qed.

(** The non-null assertion of the shoulder loops holds: a position of the
    origins vector is a registered airport whose code is among the origins. *)
Lemma wf_weight s origins x :
  wf s -> x ∈ BitSet.toArray (originsVectorOf s origins) ->
  exists c w, airportsArray s !! x = Some c /\ lastCount origins c = Some w /\
              weight (airportsArray s) (originsMapOf origins) x = w.
Proof.
  intros Hwf Hx.
  apply BitSetFacts.elem_of_toArray in Hx; [| apply originsVectorOf_finite].
  apply BitSetFacts.elem_of_fromArray, list_elem_of_omap in Hx as (c & Hc & Hreg).
  unfold keys in Hc. apply list_elem_of_fmap in Hc as ([c' w] & -> & Hcw).
  apply elem_of_map_to_list in Hcw. simpl in *.
  apply (wf_registry s Hwf) in Hreg.
  exists c', w. rewrite <- originsMapOf_lookup. split; [done |]. split; [done |].
  unfold weight. rewrite Hreg. simpl. by rewrite Hcw.
Qed.

Lemma weight_lastCount s origins x :
  weight (airportsArray s) (originsMapOf origins) x
  = default 0 (airportsArray s !! x ≫= lastCount origins).
Proof.
  unfold weight. destruct (airportsArray s !! x); simpl; [| done].
  by rewrite originsMapOf_lookup.
Qed.

(** ** Calls that return *)

Lemma bind_run_eq {A B} (m : M A) (f : A -> M B) s a :
  readonly m -> (m s).1 = Ok a -> ((m ≫= f) s).1 = (f a s).1.
Proof. intros Hm Ha. by rewrite readonly_bind_run, Ha. Qed.

Lemma storeAt_Ok sel s n day a k :
  shaped n (sel s) ->
  0 <= day < MAX_DAYS_SUPPORTED -> (a < n)%nat -> (k < Z.to_nat (MAX_STOPS_SUPPORTED + 1))%nat ->
  exists b, (storeAt sel day a k s).1 = Ok (Some b).
Proof.
  intros [Hlen Hrows] Hday Ha Hk.
  destruct (lookup_lt_is_Some_2 (sel s) (Z.to_nat day)) as [row Hrow]; [lia |].
  destruct (Forall_lookup_1 _ _ _ _ Hrows Hrow) as [Hn Hslots].
  destruct (lookup_lt_is_Some_2 row a) as [slot Hslot]; [lia |].
  pose proof (Forall_lookup_1 _ _ _ _ Hslots Hslot) as Hs. simpl in Hs.
  destruct (lookup_lt_is_Some_2 slot k) as [b Hb]; [lia |].
  exists b. unfold storeAt.
  rewrite (bind_run_eq _ _ _ (sel s)) by (done || readonly_tac).
  assert (at_index (sel s) day = Some row) as -> by (apply at_index_Some; split; [lia | done]).
  rewrite (bind_run_eq _ _ _ row) by (done || readonly_tac).
  rewrite Hslot. rewrite (bind_run_eq _ _ _ slot) by (done || readonly_tac).
  by rewrite Hb.
Qed.

Lemma receiver_Ok sel s n day a k :
  shaped n (sel s) ->
  0 <= day < MAX_DAYS_SUPPORTED -> (a < n)%nat -> (k < Z.to_nat (MAX_STOPS_SUPPORTED + 1))%nat ->
  exists b, (receiver sel day a k s).1 = Ok b.
Proof.
  intros Hsh Hday Ha Hk. destruct (storeAt_Ok sel s n day a k) as [b Hb]; try done.
  exists b. unfold receiver. by rewrite (bind_run_eq _ _ _ (Some b)) by (done || readonly_tac).
Qed.

Lemma availableConnections_Ok sel s n day i :
  shaped n (sel s) -> 0 <= day < MAX_DAYS_SUPPORTED -> (i < n)%nat ->
  exists b, (availableConnections sel day i s).1 = Ok b.
Proof.
  intros Hsh Hday Hi. unfold availableConnections.
  destruct (receiver_Ok sel s n day i 0) as [b0 Hb0]; try done; [vm_compute; lia |].
  destruct (storeAt_Ok sel s n day i 1) as [b1 Hb1]; try done; [vm_compute; lia |].
  destruct (storeAt_Ok sel s n day i 2) as [b2 Hb2]; try done; [vm_compute; lia |].
  rewrite (bind_run_eq _ _ _ b0) by (done || readonly_tac).
  rewrite (bind_run_eq _ _ _ (Some b1)) by (done || readonly_tac).
  rewrite (bind_run_eq _ _ _ (Some b2)) by (done || readonly_tac).
  eauto.
Qed.

Lemma getStopsCount_Ok sel s n ov day i :
  shaped n (sel s) -> 0 <= day < MAX_DAYS_SUPPORTED -> (i < n)%nat ->
  exists z, (getStopsCount sel ov day i s).1 = Ok z.
Proof.
  intros Hsh Hday Hi. unfold getStopsCount.
  destruct (receiver_Ok sel s n day i 0) as [b0 Hb0]; try done; [vm_compute; lia |].
  destruct (receiver_Ok sel s n day i 1) as [b1 Hb1]; try done; [vm_compute; lia |].
  destruct (receiver_Ok sel s n day i 2) as [b2 Hb2]; try done; [vm_compute; lia |].
  rewrite (bind_run_eq _ _ _ b0) by (done || readonly_tac).
  rewrite (bind_run_eq _ _ _ b1) by (done || readonly_tac).
  rewrite (bind_run_eq _ _ _ b1) by (done || readonly_tac).
  rewrite (bind_run_eq _ _ _ b2) by (done || readonly_tac).
  eauto.
Qed.

Lemma anchorSide_Ok sel s n ov day i :
  shaped n (sel s) -> 0 <= day < MAX_DAYS_SUPPORTED -> (i < n)%nat ->
  exists v, (anchorSide sel ov day i s).1 = Ok v.
Proof.
  intros Hsh Hday Hi. unfold anchorSide.
  destruct (availableConnections_Ok sel s n day i) as [b Hb]; try done.
  destruct (getStopsCount_Ok sel s n ov day i) as [z Hz]; try done.
  rewrite (bind_run_eq _ _ _ b) by (done || readonly_tac).
  rewrite (bind_run_eq _ _ _ z) by (done || readonly_tac).
  eauto.
Qed.

Lemma shoulderBody_Ok sel s n om ov i day j v :
  shaped n (sel s) -> 0 <= day < MAX_DAYS_SUPPORTED -> (i < n)%nat ->
  exists v', (shoulderBody sel om ov i day j v s).1 = Ok v'.
Proof.
  intros Hsh Hday Hi. unfold shoulderBody.
  destruct (availableConnections_Ok sel s n day i) as [b Hb]; try done.
  destruct (getStopsCount_Ok sel s n
              (BitSet.and (BitSet.not (available v)) ov) day i) as [z Hz]; try done.
  rewrite (bind_run_eq _ _ _ b) by (done || readonly_tac).
  rewrite (bind_run_eq _ _ _ z) by (done || readonly_tac).
  rewrite (bind_run_eq _ _ _ (airportsArray s)) by (done || readonly_tac).
  eauto.
Qed.

Lemma foldM_Ok {A B} (body : A -> B -> M A) l acc s :
  (forall a x, readonly (body a x)) ->
  (forall a x, x ∈ l -> exists a', (body a x s).1 = Ok a') ->
  exists r, (foldM body l acc s).1 = Ok r.
Proof.
  intros Hro. revert acc. induction l as [| x l IH]; intros acc Hb; simpl; [eauto |].
  destruct (Hb acc x) as [a' Ha']; [by left |].
  rewrite (bind_run_eq _ _ _ a') by done.
  apply IH. intros a y Hy. apply Hb. by right.
Qed.

Lemma elem_of_upto j m : j ∈ upto m -> 1 <= j <= m.
Proof.
  unfold upto. intros (k & -> & Hk)%list_elem_of_fmap.
  apply elem_of_seq in Hk. lia.
Qed.

Lemma outboundSide_Ok s om ov n idx mo i :
  wf s -> 0 <= idx < MAX_DAYS_SUPPORTED -> mo <= idx ->
  (i < length (airportsArray s))%nat ->
  exists v, (outboundSide om ov n idx mo i s).1 = Ok v.
Proof.
  intros Hwf Hidx Hmo Hi. unfold outboundSide.
  destruct (anchorSide_Ok outboundStorage s _ ov idx i (wf_outbound s Hwf)) as [v0 Hv0];
    try done.
  rewrite (bind_run_eq _ _ _ v0) by (done || readonly_tac).
  destruct (_ && _); [| eauto].
  apply foldM_Ok; [intros; readonly_tac |].
  intros v j Hj%elem_of_upto. destruct (count v <? n); [| eauto].
  eapply shoulderBody_Ok; [apply (wf_outbound s Hwf) | lia | done].
Qed.

Lemma inboundSide_Ok s om ov n idx mi i :
  wf s -> 0 <= idx < MAX_DAYS_SUPPORTED -> idx + mi < MAX_DAYS_SUPPORTED ->
  (i < length (airportsArray s))%nat ->
  exists v, (inboundSide om ov n idx mi i s).1 = Ok v.
Proof.
  intros Hwf Hidx Hmi Hi. unfold inboundSide.
  destruct (anchorSide_Ok inboundStorage s _ ov idx i (wf_inbound s Hwf)) as [v0 Hv0];
    try done.
  rewrite (bind_run_eq _ _ _ v0) by (done || readonly_tac).
  destruct (count v0 <? n); [| eauto].
  apply foldM_Ok; [intros; readonly_tac |].
  intros v j Hj%elem_of_upto. destruct (_ && _); [| eauto].
  eapply shoulderBody_Ok; [apply (wf_inbound s Hwf) | lia | done].
Qed.

Lemma getUnavailableOrigins_Ok s a ov i :
  exists l, (getUnavailableOrigins a ov i s).1 = Ok l.
Proof. unfold getUnavailableOrigins. eexists. reflexivity. Qed.

Lemma candidate_Ok s om ov n oi ii mo mi i :
  wf s ->
  0 <= oi < MAX_DAYS_SUPPORTED -> mo <= oi ->
  0 <= ii < MAX_DAYS_SUPPORTED -> ii + mi < MAX_DAYS_SUPPORTED ->
  (i < length (airportsArray s))%nat ->
  exists d, (candidate om ov n oi ii mo mi i s).1 = Ok d.
Proof.
  intros Hwf Hoi Hmo Hii Hmi Hi. unfold candidate.
  destruct (outboundSide_Ok s om ov n oi mo i) as [out Hout]; try done.
  destruct (inboundSide_Ok s om ov n ii mi i) as [inb Hinb]; try done.
  rewrite (bind_run_eq _ _ _ out) by (done || readonly_tac).
  rewrite (bind_run_eq _ _ _ inb) by (done || readonly_tac).
  rewrite (bind_run_eq _ _ _ (airportsArray s)) by (done || readonly_tac).
  destruct (getUnavailableOrigins_Ok s (available out) ov i) as [uo Huo].
  destruct (getUnavailableOrigins_Ok s (available inb) ov i) as [ui Hui].
  rewrite (bind_run_eq _ _ _ uo) by (done || readonly_tac).
  rewrite (bind_run_eq _ _ _ ui) by (done || readonly_tac).
  eauto.
Qed.

(** When the meeting days and every shoulder day that may be probed lie
    within the rows of the stores, the call returns. *)
Lemma getDestinationsForDatePair_Ok s origins ms me mo mi tk :
  wf s ->
  0 <= dayIndex s ms < MAX_DAYS_SUPPORTED -> mo <= dayIndex s ms ->
  0 <= dayIndex s me < MAX_DAYS_SUPPORTED -> dayIndex s me + mi < MAX_DAYS_SUPPORTED ->
  exists r, (getDestinationsForDatePair origins ms me mo mi tk s).1 = Ok r.
Proof.
  intros Hwf Hs Hmo He Hmi. unfold getDestinationsForDatePair.
  rewrite (bind_run_eq _ _ _ (originsVectorOf s origins)) by (done || readonly_tac).
  assert (forall d, 0 <= dayIndex s d < MAX_DAYS_SUPPORTED ->
                    (_convertDateToArrayIndex d s).1 = Ok (dayIndex s d)) as Hconv.
  { intros d Hd. unfold _convertDateToArrayIndex.
    rewrite (bind_run_eq _ _ _ (startDate s)) by (done || readonly_tac).
    fold (dayIndex s d). unfold _validateDateIndex.
    destruct (Z.ltb_spec (dayIndex s d) 0); [lia |].
    destruct (Z.gtb_spec (dayIndex s d) MAX_DAYS_SUPPORTED); [lia | done]. }
  rewrite (bind_run_eq _ _ _ (dayIndex s ms)) by (auto || readonly_tac).
  rewrite (bind_run_eq _ _ _ (dayIndex s me)) by (auto || readonly_tac).
  rewrite (bind_run_eq _ _ _ (size (airports s))) by (done || readonly_tac).
  destruct (foldM_Ok
              (fun result i =>
                 d ← candidate (originsMapOf origins) (originsVectorOf s origins)
                       (Z.of_nat (length origins)) (dayIndex s ms) (dayIndex s me) mo mi i;
                 mret (result ++ [d]))
              (seq 0 (size (airports s))) [] s) as [result Hres].
  - intros; readonly_tac.
  - intros acc i Hi%elem_of_seq.
    destruct (candidate_Ok s (originsMapOf origins) (originsVectorOf s origins)
                (Z.of_nat (length origins)) (dayIndex s ms) (dayIndex s me) mo mi i)
      as [d Hd]; try done.
    { rewrite <- (wf_size s Hwf). lia. }
    rewrite (bind_run_eq _ _ _ d) by (done || readonly_tac). eauto.
  - rewrite (bind_run_eq _ _ _ result) by (done || readonly_tac). eauto.
Qed.

(** On a well-formed store a connection with accepted stops whose two day
    indices are rows of the stores is written. *)
Lemma setConnection_Ok c s :
  wf s ->
  passesStopsValidation (stops c) = true ->
  0 <= dayIndex s (date c) < MAX_DAYS_SUPPORTED ->
  0 <= dayIndex s (date c) + arriveNextDay c < MAX_DAYS_SUPPORTED ->
  exists s', setConnection c s = (Ok tt, s').
Proof.
  intros Hwf Hstops Hday Harr. pose proof (wf_registered c s Hwf) as Hsb.
  rewrite setConnection_unfold, Hstops. cbv zeta.
  assert (passesDateValidation (dayIndex s (date c)) = true) as ->
    by (apply passesDateValidation_true; lia).
  assert (passesDateValidation (dayIndex s (date c) + arriveNextDay c) = true) as ->
    by (apply passesDateValidation_true; lia).
  simpl.
  destruct (registered_origin c s) as [oi Hoi].
  destruct (registered_destination c s) as [di Hdi].
  rewrite Hoi, Hdi.
  assert (0 <= stops c < MAX_STOPS_SUPPORTED + 1) as Hst.
  { revert Hstops. unfold passesStopsValidation.
    destruct (Z.ltb_spec (stops c) 0); destruct (Z.gtb_spec (stops c) MAX_STOPS_SUPPORTED);
      simpl; (done || lia). }
  destruct (shaped_setBit_is_Some _ (outboundStorage (registered c s))
              (dayIndex s (date c) + arriveNextDay c) di (stops c) oi (wf_outbound _ Hsb))
    as [out' ->]; [done | by eapply wf_index_lt | done |].
  destruct (shaped_setBit_is_Some _ (inboundStorage (registered c s))
              (dayIndex s (date c)) oi (stops c) di (wf_inbound _ Hsb))
    as [in' ->]; [done | by eapply wf_index_lt | done |].
  eauto.
Qed.

(** ** The fixture is a state of the class *)

Lemma reachable_runAll cs s : reachable s -> reachable (runAll cs s).
Proof.
  revert s. induction cs as [| c cs IH]; intros s Hs; [done |].
  simpl. by apply IH, reachable_setConnection.
Qed.

Lemma fixture_reachable : reachable Fixture.storage.
Proof.
  assert (Fixture.storage = runAll Fixture.connections (init Fixture.fixedDate)) as ->
    by (vm_compute; reflexivity).
  apply reachable_runAll, reachable_init.
Qed.

(** * The properties of the specification *)

(** Closed facts are settled by evaluation, one conjunct at a time. *)
Ltac by_evaluation :=
  cbv zeta;
  repeat match goal with |- _ /\ _ => split end;
  try (vm_compute; reflexivity).

(** ** The end-to-end scenario *)

(** C1: on a store started at 2025-01-01 that holds exactly the six
    connections of the fixture, ranking the origins AAA (2), BBB (1) and
    CCC (1) for the meeting from 2025-01-10 to 2025-01-15 with one shoulder
    night on either side and no truncation returns the four records of the
    scenario, in the order CCC, DDD, AAA, BBB. *)
Theorem fixture_ranking :
  Fixture.fill (init Fixture.fixedDate) = (Ok tt, Fixture.storage) /\
  getDestinationsForDatePair Fixture.origins (Fixture.january 10) (Fixture.january 15)
    1 1 0 Fixture.storage
  = (Ok Fixture.totalCounts, Fixture.storage).
Proof. split; vm_compute; reflexivity. Qed.

(** ** Failing calls of [setConnection] *)

(** C2: at a date before the start date the call throws the date error
    after both airports have been registered, so the state it leaves is not
    the state it found. *)
Theorem date_error_after_registration :
  let c := mkConnection "AAA" "BBB" (Fixture.fixedDate - MS_PER_DAY) 0 0 in
  let s := init Fixture.fixedDate in
  (setConnection c s).1 = Throw DateOutsideRange /\
  indexOf s "AAA" = None /\
  indexOf (setConnection c s).2 "AAA" = Some 0%nat /\
  indexOf (setConnection c s).2 "BBB" = Some 1%nat /\
  airportsArray (setConnection c s).2 = ["AAA"; "BBB"] /\
  (setConnection c s).2 <> s.
Proof.
  by_evaluation.
  intros H. apply (f_equal airportsArray) in H. vm_compute in H. discriminate.
Qed.

(** C3: a departure on day index 360 is let through by the date check,
    which compares with [>] where the stores have rows 0 to 359 only; the
    call then fails on the missing row with a [TypeError], not with the date
    error. *)
Theorem day_360_not_a_date_error :
  let c := mkConnection "AAA" "BBB" (Fixture.fixedDate + 360 * MS_PER_DAY) 0 0 in
  let s := init Fixture.fixedDate in
  dayIndex s (date c) = MAX_DAYS_SUPPORTED /\
  _validateDateIndex (dayIndex s (date c)) s = (Ok tt, s) /\
  length (outboundStorage s) = Z.to_nat MAX_DAYS_SUPPORTED /\
  (setConnection c s).1 = Throw TypeError.
Proof. by_evaluation. Qed.

(** ** Coherence of the two stores *)




(** ** Coverage grows with the tolerance *)

(** C5: on a store the class can be in, when two calls that differ only in
    the shoulder tolerances both return, and the tolerances of the second
    are at least those of the first, every candidate that appears in both
    results has at least as many available origins in the second. *)
Theorem shoulder_tolerance_monotone s origins meetingStart meetingEnd take_
    maxOut maxIn maxOut' maxIn' r r' :
  reachable s ->
  maxOut <= maxOut' -> maxIn <= maxIn' ->
  (getDestinationsForDatePair origins meetingStart meetingEnd maxOut maxIn take_ s).1 = Ok r ->
  (getDestinationsForDatePair origins meetingStart meetingEnd maxOut' maxIn' take_ s).1 = Ok r' ->
  forall d d', d ∈ r -> d' ∈ r' -> code d = code d' ->
               availableOrigins d <= availableOrigins d'.
Proof.
  intros Hreach Hout Hin Hr Hr' d d' Hd Hd' Hcode.
  pose proof (reachable_wf s Hreach) as Hwf.
  apply getDestinationsForDatePair_inv in Hr as (ds & Hds & ->).
  apply getDestinationsForDatePair_inv in Hr' as (ds' & Hds' & ->).
  assert (d ∈ ds) as Hd1.
  { rewrite <- sortByAvailable_perm. destruct (take_ >? 0); [by eapply subseteq_take | done]. }
  assert (d' ∈ ds') as Hd1'.
  { rewrite <- sortByAvailable_perm. destruct (take_ >? 0); [by eapply subseteq_take | done]. }
  apply list_elem_of_lookup in Hd1 as [i Hi], Hd1' as [i' Hi'].
  destruct (Forall2_lookup_r _ _ _ _ _ Hds Hi) as (k & Hk & Hc).
  destruct (Forall2_lookup_r _ _ _ _ _ Hds' Hi') as (k' & Hk' & Hc').
  apply lookup_seq in Hk as [-> Hlt], Hk' as [-> Hlt']. simpl in *.
  apply candidate_inv in Hc as (out & inb & Ho & Hi1 & Hcd & Hav & _).
  apply candidate_inv in Hc' as (out' & inb' & Ho' & Hi1' & Hcd' & Hav' & _).
  assert (i = i') as <-.
  { eapply NoDup_lookup; [by apply wf_NoDup | |].
    - by apply wf_codeAt.
    - rewrite wf_codeAt by done. congruence. }
  rewrite Hav, Hav'.
  pose proof (outboundSide_mono _ _ _ _ _ _ _ _ _ _ Hout Ho Ho').
  pose proof (inboundSide_mono _ _ _ _ _ _ _ _ _ _ Hin Hi1 Hi1').
  lia.
Qed.

Lemma shoulder_tolerance_monotone_witness :
  reachable Fixture.storage /\
  (getDestinationsForDatePair Fixture.origins (Fixture.january 10) (Fixture.january 15)
     0 0 0 Fixture.storage).1 = Ok Fixture.strictCounts /\
  (getDestinationsForDatePair Fixture.origins (Fixture.january 10) (Fixture.january 15)
     1 1 0 Fixture.storage).1 = Ok Fixture.totalCounts /\
  availableOrigins (mkDestination "CCC" 2 2 ["AAA"] 0 ["BBB"] 0)
  <= availableOrigins (mkDestination "CCC" 4 4 [] 2 [] 1).
Proof.
  assert ((getDestinationsForDatePair Fixture.origins (Fixture.january 10)
             (Fixture.january 15) 0 0 0 Fixture.storage).1 = Ok Fixture.strictCounts) as H0
    by (vm_compute; reflexivity).
  assert ((getDestinationsForDatePair Fixture.origins (Fixture.january 10)
             (Fixture.january 15) 1 1 0 Fixture.storage).1 = Ok Fixture.totalCounts) as H1
    by (vm_compute; reflexivity).
  split; [apply fixture_reachable |]. split; [exact H0 |]. split; [exact H1 |].
  apply (shoulder_tolerance_monotone Fixture.storage Fixture.origins
           (Fixture.january 10) (Fixture.january 15) 0 0 0 1 1
           Fixture.strictCounts Fixture.totalCounts
           fixture_reachable ltac:(lia) ltac:(lia) H0 H1).
  - apply list_elem_of_here.
  - apply list_elem_of_here.
  - reflexivity.
Defined.

(** ** Shoulder nights are weighted by count and distance *)

(** C6: in a result of [getDestinationsForDatePair] on a store the class
    can be in, the outbound shoulder nights of a candidate are the sum of
    the contributions of the registered origins, and so are the inbound
    ones; each such origin has a (last written) count [w], and contributes
    [w * j] when the first day that serves it, among the anchor day and the
    shoulder days up to the tolerance, is at distance [j]: nothing when that
    is the anchor day, at distance 0, and nothing when no day serves it. *)
Theorem shoulder_weighting s origins meetingStart meetingEnd maxOut maxIn take_ r :
  reachable s ->
  (getDestinationsForDatePair origins meetingStart meetingEnd maxOut maxIn take_ s).1 = Ok r ->
  forall d, d ∈ r ->
    exists i,
      airportsArray s !! i = Some (code d) /\
      outboundShoulderNights d
      = expectedShoulderNights s origins (outboundLayers s (dayIndex s meetingStart) maxOut i) /\
      inboundShoulderNights d
      = expectedShoulderNights s origins (inboundLayers s (dayIndex s meetingEnd) maxIn i) /\
      forall layers x,
        x ∈ BitSet.toArray (originsVectorOf s origins) ->
        exists c w,
          airportsArray s !! x = Some c /\ lastCount origins c = Some w /\
          (forall j, firstServed layers x 0 = Some j ->
                     contribution s origins layers x = w * j) /\
          (firstServed layers x 0 = None -> contribution s origins layers x = 0).
Proof.
  intros Hreach Hr d Hd. pose proof (reachable_wf s Hreach) as Hwf.
  apply getDestinationsForDatePair_inv in Hr as (ds & Hds & ->).
  assert (d ∈ ds) as Hd1.
  { rewrite <- sortByAvailable_perm. destruct (take_ >? 0); [by eapply subseteq_take | done]. }
  apply list_elem_of_lookup in Hd1 as [i Hi].
  destruct (Forall2_lookup_r _ _ _ _ _ Hds Hi) as (k & Hk & Hc).
  apply lookup_seq in Hk as [-> Hlt]. simpl in *.
  apply candidate_inv in Hc as (out & inb & Ho & Hi1 & Hcd & _ & Hon & Hin).
  exists i. split; [rewrite Hcd; by apply wf_codeAt |].
  pose proof (originsVectorOf_finite s origins) as Hfin.
  pose proof (originsVectorOf_length s origins) as Hlen.
  apply outboundSide_nights in Ho; [| done | lia].
  apply inboundSide_nights in Hi1; [| done | lia].
  rewrite Hon, Hin, Ho, Hi1. unfold expectedShoulderNights.
  split; [| split].
  - f_equal. apply list_fmap_ext. intros ? x _. unfold contribution.
    by rewrite weight_lastCount.
  - f_equal. apply list_fmap_ext. intros ? x _. unfold contribution.
    by rewrite weight_lastCount.
  - intros layers x Hx. destruct (wf_weight s origins x Hwf Hx) as (c & w & Hc & Hw & _).
    exists c, w. split; [done |]. split; [done |].
    unfold contribution, servedDistance. rewrite Hc. simpl. rewrite Hw. simpl.
    split; [by intros j -> | intros ->; simpl; lia].
Qed.

Lemma shoulder_weighting_witness :
  reachable Fixture.storage /\
  (getDestinationsForDatePair Fixture.origins (Fixture.january 10) (Fixture.january 15)
     1 1 0 Fixture.storage).1 = Ok Fixture.totalCounts /\
  exists i,
    airportsArray Fixture.storage !! i = Some "CCC" /\
    2 = expectedShoulderNights Fixture.storage Fixture.origins
          (outboundLayers Fixture.storage
             (dayIndex Fixture.storage (Fixture.january 10)) 1 i) /\
    1 = expectedShoulderNights Fixture.storage Fixture.origins
          (inboundLayers Fixture.storage
             (dayIndex Fixture.storage (Fixture.january 15)) 1 i).
Proof.
  assert ((getDestinationsForDatePair Fixture.origins (Fixture.january 10)
             (Fixture.january 15) 1 1 0 Fixture.storage).1 = Ok Fixture.totalCounts) as H1
    by (vm_compute; reflexivity).
  split; [apply fixture_reachable |]. split; [exact H1 |].
  destruct (shoulder_weighting Fixture.storage Fixture.origins
              (Fixture.january 10) (Fixture.january 15) 1 1 0 Fixture.totalCounts
              fixture_reachable H1 (mkDestination "CCC" 4 4 [] 2 [] 1))
    as (i & Hi & Hout & Hin & _); [apply list_elem_of_here |].
  exists i. split; [exact Hi |]. split; [exact Hout | exact Hin].
Defined.

(** ** The result: one record per airport, sorted, truncated *)

(** C7: on a store the class can be in, the call returns when the meeting
    days and the shoulder days that may be probed are rows of the stores;
    and whenever it returns, the candidate loop has produced one record per
    registered airport, in registration order, the same call with [take] 0
    returns these records in descending order of [availableOrigins], and
    the result is the first [take] records of that ranking when [take > 0]
    and the whole ranking otherwise, so that with [take = 0] it has as many
    records as the registry has airports. *)
Theorem ranking_output s origins meetingStart meetingEnd maxOut maxIn take_ :
  reachable s ->
  (0 <= dayIndex s meetingStart < MAX_DAYS_SUPPORTED ->
   maxOut <= dayIndex s meetingStart ->
   0 <= dayIndex s meetingEnd < MAX_DAYS_SUPPORTED ->
   dayIndex s meetingEnd + maxIn < MAX_DAYS_SUPPORTED ->
   exists r,
     (getDestinationsForDatePair origins meetingStart meetingEnd maxOut maxIn take_ s).1
     = Ok r) /\
  forall r,
    (getDestinationsForDatePair origins meetingStart meetingEnd maxOut maxIn take_ s).1 = Ok r ->
    exists records sorted,
      Forall2 (fun i d =>
                 (candidate (originsMapOf origins) (originsVectorOf s origins)
                    (Z.of_nat (length origins))
                    (dayIndex s meetingStart) (dayIndex s meetingEnd) maxOut maxIn i s).1
                 = Ok d)
        (seq 0 (size (airports s))) records /\
      sorted = sortByAvailable records /\
      (getDestinationsForDatePair origins meetingStart meetingEnd maxOut maxIn 0 s).1
      = Ok sorted /\
      code <$> records = airportsArray s /\
      length records = size (airports s) /\
      sorted ≡ₚ records /\
      StronglySorted descending sorted /\
      StronglySorted descending r /\
      (0 < take_ -> r = take (Z.to_nat take_) sorted) /\
      (take_ <= 0 -> r = sorted) /\
      (take_ = 0 -> length r = size (airports s)).
Proof.
  intros Hreach. pose proof (reachable_wf s Hreach) as Hwf.
  split; [by apply getDestinationsForDatePair_Ok |].
  intros r Hr.
  apply getDestinationsForDatePair_full in Hr as (ds & Hds & Hfull & ->).
  exists ds, (sortByAvailable ds).
  assert (length (seq 0 (size (airports s))) = length ds) as Hlen by by eapply Forall2_length.
  rewrite length_seq in Hlen.
  split; [exact Hds |]. split; [done |]. split; [exact Hfull |].
  split; [| split; [done |]; split; [apply sortByAvailable_perm |];
            split; [apply sortByAvailable_sorted |]].
  - eapply candidates_codes; [done | | exact Hds].
    intros i d (? & ? & _ & _ & Hc & _)%candidate_inv. exact Hc.
  - destruct (Z.gtb_spec take_ 0) as [Hpos | Hnon].
    + split; [apply take_sorted, sortByAvailable_sorted |].
      split; [done |]. split; lia.
    + split; [apply sortByAvailable_sorted |].
      split; [lia |]. split; [done |].
      intros _. by rewrite sortByAvailable_perm.
Qed.

Lemma ranking_output_witness :
  reachable Fixture.storage /\
  (exists r,
     (getDestinationsForDatePair Fixture.origins (Fixture.january 10) (Fixture.january 15)
        1 1 2 Fixture.storage).1 = Ok r) /\
  exists records sorted,
    Forall2 (fun i d =>
               (candidate (originsMapOf Fixture.origins)
                  (originsVectorOf Fixture.storage Fixture.origins)
                  (Z.of_nat (length Fixture.origins))
                  (dayIndex Fixture.storage (Fixture.january 10))
                  (dayIndex Fixture.storage (Fixture.january 15)) 1 1 i Fixture.storage).1
               = Ok d)
      (seq 0 (size (airports Fixture.storage))) records /\
    sorted = sortByAvailable records /\
    (getDestinationsForDatePair Fixture.origins (Fixture.january 10) (Fixture.january 15)
       1 1 0 Fixture.storage).1 = Ok sorted /\
    code <$> records = airportsArray Fixture.storage /\
    length records = size (airports Fixture.storage) /\
    sorted ≡ₚ records /\
    StronglySorted descending sorted /\
    StronglySorted descending (take 2 Fixture.totalCounts) /\
    (0 < 2 -> take 2 Fixture.totalCounts = take (Z.to_nat 2) sorted) /\
    (2 <= 0 -> take 2 Fixture.totalCounts = sorted) /\
    (2 = 0 -> length (take 2 Fixture.totalCounts) = size (airports Fixture.storage)).
Proof.
  assert ((getDestinationsForDatePair Fixture.origins (Fixture.january 10)
             (Fixture.january 15) 1 1 2 Fixture.storage).1
          = Ok (take 2 Fixture.totalCounts)) as H1
    by (vm_compute; reflexivity).
  assert (dayIndex Fixture.storage (Fixture.january 10) = 9) as Hstart
    by (vm_compute; reflexivity).
  assert (dayIndex Fixture.storage (Fixture.january 15) = 14) as Hend
    by (vm_compute; reflexivity).
  destruct (ranking_output Fixture.storage Fixture.origins
              (Fixture.january 10) (Fixture.january 15) 1 1 2 fixture_reachable)
    as [Hreturns Hshape].
  split; [apply fixture_reachable |]. split.
  - apply Hreturns; rewrite ?Hstart, ?Hend; unfold MAX_DAYS_SUPPORTED; lia.
  - apply Hshape, H1.
Defined.

(** ** Idempotence *)

(** C8: when [setConnection c] returns, calling it again with the same
    connection returns too and leaves the registry and both stores as the
    first call left them. *)
Theorem setConnection_idempotent c s s1 :
  setConnection c s = (Ok tt, s1) -> setConnection c s1 = (Ok tt, s1).
Proof.
  rewrite !setConnection_unfold.
  destruct (passesStopsValidation _); [| done]. cbv zeta.
  destruct (_ && _) eqn:Hdates; [| done].
  destruct (registered_origin c s) as [oi Hoi].
  destruct (registered_destination c s) as [di Hdi].
  rewrite Hoi, Hdi.
  destruct (setBit (outboundStorage _) _ _ _ _) as [out' |] eqn:Hout; [| done].
  destruct (setBit (inboundStorage _) _ _ _ _) as [in' |] eqn:Hin; [| done].
  intros [= <-].
  assert (registered c (withInbound (withOutbound (registered c s) out') in')
          = withInbound (withOutbound (registered c s) out') in') as Hreg.
  { unfold registered at 1.
    rewrite (addAirport_known (originAirportCode c) _ oi) by done.
    by rewrite (addAirport_known (destinationAirportCode c) _ di). }
  rewrite Hreg. unfold dayIndex in *. simpl. rewrite registered_startDate, Hdates, Hoi, Hdi.
  by rewrite (setBit_idempotent _ _ _ _ _ _ Hout), (setBit_idempotent _ _ _ _ _ _ Hin).
Qed.

Lemma setConnection_idempotent_witness :
  setConnection Fixture.connection1 (setConnection Fixture.connection1 (init Fixture.fixedDate)).2
  = (Ok tt, (setConnection Fixture.connection1 (init Fixture.fixedDate)).2).
Proof.
  apply (setConnection_idempotent Fixture.connection1 (init Fixture.fixedDate)).
  vm_compute. reflexivity.
Defined.

(** ** Ranking reads only *)

(** C9: whatever its arguments and whether it returns or throws,
    [getDestinationsForDatePair] leaves the registry, the array of codes and
    every vector of both stores as they were, and so does the stop count it
    calls. *)
Theorem getDestinationsForDatePair_reads_only origins meetingStart meetingEnd
    maxOutboundShoulderNights maxInboundShoulderNights take_ s :
  let s' := (getDestinationsForDatePair origins meetingStart meetingEnd
               maxOutboundShoulderNights maxInboundShoulderNights take_ s).2 in
  airports s' = airports s /\
  airportsArray s' = airportsArray s /\
  outboundStorage s' = outboundStorage s /\
  inboundStorage s' = inboundStorage s /\
  startDate s' = startDate s /\
  forall originsVector index destinationIndex,
    (getOutboundStopsCount originsVector index destinationIndex s).2 = s /\
    (getInboundStopsCount originsVector index destinationIndex s).2 = s.
Proof.
  cbv zeta. rewrite readonly_getDestinationsForDatePair.
  repeat match goal with |- _ /\ _ => split end; try reflexivity.
  intros ov index i. split; apply readonly_getStopsCount.
Qed.

(** ** The branch that returns without writing *)

(** C10: a connection that departs on day index 359 and arrives the next
    day passes the stop check and both date checks, and yet the call throws
    a [TypeError] and writes neither bit. *)
Theorem validated_call_writes_no_bit :
  let c := mkConnection "AAA" "BBB" (Fixture.fixedDate + 359 * MS_PER_DAY) 0 1 in
  let s := init Fixture.fixedDate in
  let s' := (setConnection c s).2 in
  passesStopsValidation (stops c) = true /\
  passesDateValidation (dayIndex s (date c)) = true /\
  passesDateValidation (dayIndex s (date c) + arriveNextDay c) = true /\
  (setConnection c s).1 = Throw TypeError /\
  indexOf s' "AAA" = Some 0%nat /\ indexOf s' "BBB" = Some 1%nat /\
  bitAt (outboundStorage s') (dayIndex s (date c) + arriveNextDay c) 1 (stops c) 0 = false /\
  bitAt (inboundStorage s') (dayIndex s (date c)) 0 (stops c) 1 = false.
Proof. by_evaluation. Qed.

(** * Further properties of the code *)

(** ** The registry *)

(** X1: in every state the class can be in, the registry and the array of
    codes are inverse to each other: a code has index [i] exactly when the
    array holds it at position [i]; the registry has as many entries as the
    array, and no code occurs twice in the array. *)
Theorem registry_bijection s :
  reachable s ->
  (forall c i, indexOf s c = Some i <-> airportsArray s !! i = Some c) /\
  size (airports s) = length (airportsArray s) /\
  NoDup (airportsArray s).
Proof.
  intros Hwf%reachable_wf. split; [apply (wf_registry s Hwf) |].
  split; [apply (wf_size s Hwf) | by apply wf_NoDup].
Qed.

Lemma registry_bijection_witness :
  reachable Fixture.storage /\
  (indexOf Fixture.storage "DDD" = Some 2%nat <->
   airportsArray Fixture.storage !! 2%nat = Some "DDD").
Proof.
  split; [apply fixture_reachable |].
  apply (registry_bijection Fixture.storage fixture_reachable).
Defined.

(** X2: [addAirport] always returns; it returns [true] exactly when the
    code was not registered, in which case the code gets the next free
    index, the size of the registry; the codes registered before keep their
    index; and calling it again with the same code returns [false] and
    changes nothing. *)
Theorem addAirport_registers c s :
  let s' := (addAirport c s).2 in
  (addAirport c s).1 = Ok (bool_decide (indexOf s c = None)) /\
  indexOf s' c = Some (default (size (airports s)) (indexOf s c)) /\
  (forall c', c' <> c -> indexOf s' c' = indexOf s c') /\
  airportsArray s' = airportsArray s ++ match indexOf s c with Some _ => [] | None => [c] end /\
  addAirport c s' = (Ok false, s').
Proof.
  unfold indexOf, addAirport. destruct (airports s !! c) as [i |] eqn:Hc; simpl.
  - rewrite Hc, app_nil_r. by repeat (split; [done |]).
  - rewrite lookup_insert_eq. repeat (split; [done |]).
    split; [intros c' Hne; by rewrite lookup_insert_ne |]. done.
Qed.

(** X3: [addAirport] sets no bit and clears none, in either store; and when
    the code is new, in a state the class can be in, every day of both
    stores gets for it a slot of three empty vectors, one per stop count. *)
Theorem addAirport_keeps_bits c s :
  reachable s ->
  let s' := (addAirport c s).2 in
  (forall day a st o,
     bitAt (outboundStorage s') day a st o = bitAt (outboundStorage s) day a st o /\
     bitAt (inboundStorage s') day a st o = bitAt (inboundStorage s) day a st o) /\
  (indexOf s c = None ->
   forall day st,
     0 <= day < MAX_DAYS_SUPPORTED -> 0 <= st <= MAX_STOPS_SUPPORTED ->
     vectorAt (outboundStorage s') day (size (airports s)) st = Some BitSet.empty /\
     vectorAt (inboundStorage s') day (size (airports s)) st = Some BitSet.empty).
Proof.
  intros Hwf%reachable_wf. cbv zeta. split.
  - intros day a st o.
    by rewrite addAirport_bitAt_outbound, addAirport_bitAt_inbound.
  - unfold indexOf, addAirport. intros Hc day st Hday Hst. rewrite Hc. simpl.
    assert (forall store, shaped (length (airportsArray s)) store ->
              vectorAt (pushSlots (Z.to_nat MAX_DAYS_SUPPORTED) store) day
                (size (airports s)) st = Some BitSet.empty) as Hnew.
    { intros store [Hlen Hrows]. unfold vectorAt.
      destruct (lookup_lt_is_Some_2 store (Z.to_nat day)) as [row Hrow]; [lia |].
      destruct (Forall_lookup_1 _ _ _ _ Hrows Hrow) as [Hn _].
      assert (at_index (pushSlots (Z.to_nat MAX_DAYS_SUPPORTED) store) day
              = Some (row ++ [newSlot])) as ->.
      { apply at_index_Some. split; [lia |].
        rewrite lookup_pushSlots, Hrow. simpl. by rewrite decide_True by lia. }
      simpl. rewrite (wf_size s Hwf), <- Hn.
      rewrite lookup_app_r, Nat.sub_diag by done. simpl.
      unfold at_index. destruct (Z.ltb_spec st 0); [lia |].
      unfold newSlot. rewrite lookup_replicate_2; [done |].
      unfold MAX_STOPS_SUPPORTED in *. lia. }
    split; apply Hnew; [apply (wf_outbound s Hwf) | apply (wf_inbound s Hwf)].
Qed.

Lemma addAirport_keeps_bits_witness :
  reachable Fixture.storage /\
  indexOf Fixture.storage "EEE" = None /\
  vectorAt (outboundStorage (addAirport "EEE" Fixture.storage).2) 9
    (size (airports Fixture.storage)) 1 = Some BitSet.empty.
Proof.
  split; [apply fixture_reachable |].
  assert (indexOf Fixture.storage "EEE" = None) as Hnew by (vm_compute; reflexivity).
  split; [exact Hnew |].
  apply (addAirport_keeps_bits "EEE" Fixture.storage fixture_reachable);
    [exact Hnew | unfold MAX_DAYS_SUPPORTED; lia | unfold MAX_STOPS_SUPPORTED; lia].
Defined.

(** ** Validation *)

(** X4: [setConnection] throws the stops error exactly when the number of
    stops is below 0 or above [MAX_STOPS_SUPPORTED], and then nothing has
    been registered or written: the state is the one the call found. *)
Theorem setConnection_stops_error c s :
  ((setConnection c s).1 = Throw StopsNotSupported <->
   stops c < 0 \/ MAX_STOPS_SUPPORTED < stops c) /\
  ((setConnection c s).1 = Throw StopsNotSupported -> (setConnection c s).2 = s).
Proof.
  split; [apply setConnection_stops_error_iff |].
  intros H%setConnection_stops_error_iff.
  rewrite setConnection_invalid_stops; [done |].
  unfold passesStopsValidation.
  destruct (Z.ltb_spec (stops c) 0); [done |].
  destruct (Z.gtb_spec (stops c) MAX_STOPS_SUPPORTED); [done | lia].
Qed.

(** X5: the day index does not depend on the time of day: a date [k] whole
    days and [t] milliseconds, less than a day, after the start date is
    converted to [k], for [k] from 0 to [MAX_DAYS_SUPPORTED] included, and is
    refused with the date error for any other [k]; the state is not
    touched. *)
Theorem convertDateToArrayIndex_day s k t :
  0 <= t < MS_PER_DAY ->
  _convertDateToArrayIndex (startDate s + k * MS_PER_DAY + t) s
  = (if (k <? 0) || (k >? MAX_DAYS_SUPPORTED) then Throw DateOutsideRange else Ok k, s).
Proof.
  intros Ht. unfold _convertDateToArrayIndex, mbind, M_bind, bind, gets, _validateDateIndex.
  replace ((startDate s + k * MS_PER_DAY + t - startDate s) / MS_PER_DAY) with k.
  - by destruct ((k <? 0) || (k >? MAX_DAYS_SUPPORTED)).
  - replace (startDate s + k * MS_PER_DAY + t - startDate s) with (t + k * MS_PER_DAY) by lia.
    rewrite Z.div_add by (unfold MS_PER_DAY; lia).
    rewrite Z.div_small by done. lia.
Qed.

Lemma convertDateToArrayIndex_day_witness :
  0 <= 3600000 < MS_PER_DAY /\
  _convertDateToArrayIndex (startDate Fixture.storage + 9 * MS_PER_DAY + 3600000)
    Fixture.storage
  = (Ok 9, Fixture.storage).
Proof.
  assert (0 <= 3600000 < MS_PER_DAY) as Ht by (unfold MS_PER_DAY; lia).
  split; [exact Ht |].
  exact (convertDateToArrayIndex_day Fixture.storage 9 3600000 Ht).
Defined.

(** ** Writing connections *)

(** X6: in a state the class can be in, [setConnection] returns for every
    connection with 0 to [MAX_STOPS_SUPPORTED] stops whose departure and
    arrival day indices are rows of the stores, whether or not its airports
    are registered. *)
Theorem setConnection_returns c s :
  reachable s ->
  0 <= stops c <= MAX_STOPS_SUPPORTED ->
  0 <= dayIndex s (date c) < MAX_DAYS_SUPPORTED ->
  0 <= dayIndex s (date c) + arriveNextDay c < MAX_DAYS_SUPPORTED ->
  exists s', setConnection c s = (Ok tt, s').
Proof.
  intros Hwf%reachable_wf Hstops Hday Harr. apply setConnection_Ok; try done.
  unfold passesStopsValidation.
  destruct (Z.ltb_spec (stops c) 0); [lia |].
  destruct (Z.gtb_spec (stops c) MAX_STOPS_SUPPORTED); [lia | done].
Qed.

Lemma setConnection_returns_witness :
  reachable Fixture.storage /\
  exists s',
    setConnection (mkConnection "DDD" "EEE" (Fixture.january 20) 1 1) Fixture.storage
    = (Ok tt, s').
Proof.
  split; [apply fixture_reachable |].
  assert (dayIndex Fixture.storage (Fixture.january 20) = 19) as Hday
    by (vm_compute; reflexivity).
  apply (setConnection_returns (mkConnection "DDD" "EEE" (Fixture.january 20) 1 1)
           Fixture.storage fixture_reachable); simpl; rewrite ?Hday;
    unfold MAX_STOPS_SUPPORTED, MAX_DAYS_SUPPORTED; lia.
Defined.

(** X7: a call of [setConnection] that returns changes exactly two bits:
    in the outbound store the bit of the origin in the vector of the arrival
    day, the destination and the stops becomes set, in the inbound store
    the bit of the destination in the vector of the departure day, the
    origin and the stops; every other bit of both stores, and the start
    date, are as before. *)
Theorem setConnection_frame c s s' :
  setConnection c s = (Ok tt, s') ->
  exists oi di,
    indexOf s' (originAirportCode c) = Some oi /\
    indexOf s' (destinationAirportCode c) = Some di /\
    startDate s' = startDate s /\
    forall day a st o,
      bitAt (outboundStorage s') day a st o
      = bool_decide (day = dayIndex s (date c) + arriveNextDay c /\ a = di /\
                     st = stops c /\ o = oi)
        || bitAt (outboundStorage s) day a st o /\
      bitAt (inboundStorage s') day a st o
      = bool_decide (day = dayIndex s (date c) /\ a = oi /\ st = stops c /\ o = di)
        || bitAt (inboundStorage s) day a st o.
Proof.
  rewrite setConnection_unfold. unfold indexOf.
  destruct (passesStopsValidation _); [| done]. cbv zeta.
  destruct (_ && _); [| done].
  destruct (registered_origin c s) as [oi Hoi].
  destruct (registered_destination c s) as [di Hdi].
  rewrite Hoi, Hdi.
  destruct (setBit (outboundStorage _) _ _ _ _) as [out' |] eqn:Hout; [| done].
  destruct (setBit (inboundStorage _) _ _ _ _) as [in' |] eqn:Hin; [| done].
  intros [= <-]. exists oi, di. simpl.
  split; [done |]. split; [done |]. split; [apply registered_startDate |].
  intros day a st o.
  rewrite (bitAt_setBit _ _ _ _ _ _ _ _ _ _ Hout), (bitAt_setBit _ _ _ _ _ _ _ _ _ _ Hin).
  by rewrite registered_bitAt_outbound, registered_bitAt_inbound.
Qed.

Lemma setConnection_frame_witness :
  exists oi di,
    indexOf (setConnection Fixture.connection1 (init Fixture.fixedDate)).2 "AAA" = Some oi /\
    indexOf (setConnection Fixture.connection1 (init Fixture.fixedDate)).2 "CCC" = Some di /\
    bitAt (outboundStorage (setConnection Fixture.connection1 (init Fixture.fixedDate)).2)
      9 0 0 1 = false.
Proof.
  destruct (setConnection_frame Fixture.connection1 (init Fixture.fixedDate)
              (setConnection Fixture.connection1 (init Fixture.fixedDate)).2)
    as (oi & di & Hoi & Hdi & _ & Hbits); [vm_compute; reflexivity |].
  exists oi, di. split; [exact Hoi |]. split; [exact Hdi |].
  destruct (Hbits 9 0%nat 0 1%nat) as [-> _].
  apply orb_false_iff. split; [| vm_compute; reflexivity].
  apply bool_decide_eq_false. intros [Hday _]. vm_compute in Hday. discriminate.
Defined.

(** X8: the stores are append-only and the indices are stable: through any
    sequence of [setConnection] calls, returning or throwing, the start date
    stays, every registered code keeps its index and every bit that is set
    stays set. *)
Theorem stores_append_only cs s :
  startDate (runAll cs s) = startDate s /\
  (forall c i, indexOf s c = Some i -> indexOf (runAll cs s) c = Some i) /\
  (forall day a st o,
     bitAt (outboundStorage s) day a st o = true ->
     bitAt (outboundStorage (runAll cs s)) day a st o = true) /\
  (forall day a st o,
     bitAt (inboundStorage s) day a st o = true ->
     bitAt (inboundStorage (runAll cs s)) day a st o = true).
Proof. apply runAll_keeps. Qed.

(** ** The vectors of the stores *)

Lemma vectorAt_pushSlots n store day a st b :
  vectorAt (pushSlots n store) day a st = Some b ->
  vectorAt store day a st = Some b \/ b = BitSet.empty.
Proof.
  unfold vectorAt.
  destruct (at_index store day) as [row |] eqn:Hrow.
  - apply at_index_Some in Hrow as [Hday Hrow].
    assert (at_index (pushSlots n store) day
            = Some (if decide (Z.to_nat day < n)%nat then row ++ [newSlot] else row)) as ->.
    { apply at_index_Some. split; [done |]. by rewrite lookup_pushSlots, Hrow. }
    simpl. case_decide; [| by left]. rewrite lookup_app.
    destruct (row !! a) as [slot |] eqn:Hslot; simpl; [by left |].
    destruct ([newSlot] !! (a - length row)%nat) as [slot |] eqn:Hnew; simpl; [| done].
    apply list_elem_of_lookup_2, list_elem_of_singleton in Hnew as ->.
    intros Hb%vectorAt_newSlot. by right.
  - assert (at_index (pushSlots n store) day = None) as ->; [| done].
    unfold at_index in *. destruct (day <? 0); [done |].
    by rewrite lookup_pushSlots, Hrow.
Qed.

Lemma vectorsBounded_init n : vectorsBounded n (replicate (Z.to_nat MAX_DAYS_SUPPORTED) []).
Proof.
  intros day a st b. unfold vectorAt.
  destruct (at_index _ day) as [row |] eqn:Hrow; [| done].
  apply at_index_Some in Hrow as [_ [-> _]%lookup_replicate_1]. done.
Qed.

Lemma vectorsBounded_pushSlots n k store :
  vectorsBounded n store -> vectorsBounded (S n) (pushSlots k store).
Proof.
  intros Hb day a st b [H | ->]%vectorAt_pushSlots.
  - destruct (Hb _ _ _ _ H) as [Hfin Hlt]. split; [done |].
    intros x Hx. specialize (Hlt x Hx). lia.
  - split; [apply BitSetFacts.finite_empty |].
    intros x. by rewrite BitSetFacts.get_empty.
Qed.

Lemma vectorsBounded_setBit n store day a st o store' :
  vectorsBounded n store -> (o < n)%nat ->
  setBit store day a st o = Some store' -> vectorsBounded n store'.
Proof.
  intros Hb Ho (b & Hold & Hall)%setBit_vectorAt day' a' st' b'. rewrite Hall.
  case_decide; [| apply Hb]. intros [= <-].
  destruct (Hb _ _ _ _ Hold) as [Hfin Hlt].
  split; [by apply BitSetFacts.finite_set |].
  intros x. rewrite BitSetFacts.get_set, orb_true_iff, bool_decide_eq_true.
  intros [<- | Hx]; [done | by apply Hlt].
Qed.

Lemma vectorsBounded_addAirport c s :
  vectorsBounded (length (airportsArray s)) (outboundStorage s) ->
  vectorsBounded (length (airportsArray s)) (inboundStorage s) ->
  vectorsBounded (length (airportsArray (addAirport c s).2)) (outboundStorage (addAirport c s).2) /\
  vectorsBounded (length (airportsArray (addAirport c s).2)) (inboundStorage (addAirport c s).2).
Proof.
  intros Ho Hi. unfold addAirport. destruct (airports s !! c); simpl; [done |].
  rewrite length_app, Nat.add_1_r. split; by apply vectorsBounded_pushSlots.
Qed.

Lemma reachable_vectorsBounded s :
  reachable s ->
  vectorsBounded (length (airportsArray s)) (outboundStorage s) /\
  vectorsBounded (length (airportsArray s)) (inboundStorage s).
Proof.
  induction 1 as [d | s c Hs [Ho Hi] | s c Hs [Ho Hi]].
  - split; apply vectorsBounded_init.
  - by apply vectorsBounded_addAirport.
  - pose proof (reachable_wf s Hs) as Hwf. pose proof (wf_registered c s Hwf) as Hsb.
    assert (vectorsBounded (length (airportsArray (registered c s)))
              (outboundStorage (registered c s)) /\
            vectorsBounded (length (airportsArray (registered c s)))
              (inboundStorage (registered c s))) as [Ho' Hi'].
    { unfold registered.
      destruct (vectorsBounded_addAirport (originAirportCode c) s Ho Hi) as [Ho1 Hi1].
      by apply vectorsBounded_addAirport. }
    rewrite setConnection_unfold.
    destruct (passesStopsValidation _); [| done]. cbv zeta.
    destruct (_ && _); [| done].
    destruct (airports (registered c s) !! originAirportCode c) as [oi |] eqn:Hoi; [| done].
    destruct (airports (registered c s) !! destinationAirportCode c) as [di |] eqn:Hdi;
      [| done].
    pose proof (wf_index_lt _ _ _ Hsb Hoi) as Hoi_lt.
    pose proof (wf_index_lt _ _ _ Hsb Hdi) as Hdi_lt.
    destruct (setBit (outboundStorage _) _ _ _ _) as [out' |] eqn:Hout; [| done].
    pose proof (vectorsBounded_setBit _ _ _ _ _ _ _ Ho' Hoi_lt Hout) as Hout'.
    destruct (setBit (inboundStorage _) _ _ _ _) as [in' |] eqn:Hin; [| done].
    pose proof (vectorsBounded_setBit _ _ _ _ _ _ _ Hi' Hdi_lt Hin) as Hin'.
    done.
Qed.

Lemma shaped_vectorAt n store day a st :
  shaped n store ->
  0 <= day < MAX_DAYS_SUPPORTED -> (a < n)%nat -> 0 <= st <= MAX_STOPS_SUPPORTED ->
  is_Some (vectorAt store day a st).
Proof.
  intros [Hlen Hrows] Hday Ha Hst. unfold vectorAt.
  destruct (lookup_lt_is_Some_2 store (Z.to_nat day)) as [row Hrow]; [lia |].
  destruct (Forall_lookup_1 _ _ _ _ Hrows Hrow) as [Hn Hslots].
  destruct (lookup_lt_is_Some_2 row a) as [slot Hslot]; [lia |].
  pose proof (Forall_lookup_1 _ _ _ _ Hslots Hslot) as Hs. simpl in Hs.
  destruct (lookup_lt_is_Some_2 slot (Z.to_nat st)) as [b Hb].
  { unfold MAX_STOPS_SUPPORTED in *. lia. }
  assert (at_index store day = Some row) as -> by (apply at_index_Some; split; [lia | done]).
  simpl. rewrite Hslot. simpl.
  assert (at_index slot st = Some b) as -> by (apply at_index_Some; split; [lia | done]).
  eauto.
Qed.

(** X9: in every state the class can be in, both stores hold a vector for
    every day from 0 to 359, every registered airport and every stop count
    from 0 to 2; each stored vector is finite and has bits only at the
    indices of registered airports. *)
Theorem stores_well_formed s :
  reachable s ->
  forall sel, sel = outboundStorage \/ sel = inboundStorage ->
    (forall day a st,
       0 <= day < MAX_DAYS_SUPPORTED -> (a < size (airports s))%nat ->
       0 <= st <= MAX_STOPS_SUPPORTED ->
       is_Some (vectorAt (sel s) day a st)) /\
    (forall day a st b,
       vectorAt (sel s) day a st = Some b ->
       BitSet.finite b /\
       forall x, BitSet.get b x = true -> (x < size (airports s))%nat).
Proof.
  intros Hreach sel Hsel. pose proof (reachable_wf s Hreach) as Hwf.
  destruct (reachable_vectorsBounded s Hreach) as [Ho Hi].
  rewrite (wf_size s Hwf).
  destruct Hsel as [-> | ->].
  - split; [| exact Ho]. intros day a st Hday Ha Hst.
    by apply (shaped_vectorAt _ _ _ _ _ (wf_outbound s Hwf)).
  - split; [| exact Hi]. intros day a st Hday Ha Hst.
    by apply (shaped_vectorAt _ _ _ _ _ (wf_inbound s Hwf)).
Qed.

Lemma stores_well_formed_witness :
  reachable Fixture.storage /\
  is_Some (vectorAt (outboundStorage Fixture.storage) 359 3 2).
Proof.
  split; [apply fixture_reachable |].
  apply (stores_well_formed Fixture.storage fixture_reachable outboundStorage
           (or_introl eq_refl)).
  - unfold MAX_DAYS_SUPPORTED; lia.
  - vm_compute. lia.
  - unfold MAX_STOPS_SUPPORTED; lia.
Defined.

(** ** The origins vector *)

(** X10: [_prepareOriginVector] always returns, leaves the state alone and
    yields a finite vector whose set positions are exactly the indices of
    the given codes that are registered: codes the registry does not know
    are dropped, and neither the order of the codes nor a repeated code
    makes a difference. *)
Theorem prepareOriginVector_positions origins s :
  exists v,
    _prepareOriginVector origins s = (Ok v, s) /\
    BitSet.finite v /\
    (forall x, BitSet.get v x = true <-> exists c, c ∈ origins /\ indexOf s c = Some x) /\
    BitSet.cardinality v <= Z.of_nat (length origins).
Proof.
  eexists. split; [reflexivity |]. split; [apply BitSetFacts.finite_fromArray |].
  split.
  - intros x. rewrite BitSetFacts.elem_of_fromArray, list_elem_of_omap. done.
  - rewrite BitSetFacts.cardinality_length. apply inj_le.
    etrans; [| apply (length_filter (fun c => is_Some (airports s !! c)) origins)].
    etrans.
    + apply submseteq_length, NoDup_submseteq; [apply BitSetFacts.toArray_NoDup |].
      intros x Hx.
      apply BitSetFacts.elem_of_toArray in Hx; [| apply BitSetFacts.finite_fromArray].
      apply BitSetFacts.elem_of_fromArray in Hx. exact Hx.
    + clear. induction origins as [| c l IH]; [done |].
      rewrite filter_cons. cbn [omap list_omap].
      destruct (airports s !! c) eqn:Hc.
      * rewrite decide_True by eauto. simpl. lia.
      * rewrite decide_False by (by intros [? ?]). done.
Qed.

(** ** The stop count *)

Lemma storeAt_inv sel day a k s o :
  (storeAt sel day a k s).1 = Ok o ->
  exists row slot,
    at_index (sel s) day = Some row /\ row !! a = Some slot /\ o = slot !! k.
Proof.
  unfold storeAt. intros H.
  run_inv H as store Hstore. injection Hstore as <-.
  run_inv H as row Hrow. run_inv H as slot Hslot. injection H as <-.
  destruct (at_index (sel s) day) as [row' |]; [| done]. injection Hrow as ->.
  destruct (row !! a) as [slot' |] eqn:Hlook; [| done]. injection Hslot as ->.
  by exists row, slot.
Qed.

Lemma receiver_run sel day a k s :
  (receiver sel day a k s).1
  = match vectorAt (sel s) day a (Z.of_nat k) with
    | Some b => Ok b
    | None => Throw TypeError
    end.
Proof.
  unfold receiver, storeAt, vectorAt.
  rewrite readonly_bind_run by readonly_tac.
  rewrite readonly_bind_run by readonly_tac. cbn [gets fst].
  rewrite readonly_bind_run by readonly_tac.
  destruct (at_index (sel s) day) as [row |]; [| done]. simpl.
  rewrite readonly_bind_run by readonly_tac.
  destruct (row !! a) as [slot |]; [| done]. simpl.
  unfold at_index. destruct (Z.ltb_spec (Z.of_nat k) 0); [lia |].
  rewrite Nat2Z.id. by destruct (slot !! k).
Qed.

Lemma receiver_inv sel day a k s b :
  (receiver sel day a k s).1 = Ok b -> vectorAt (sel s) day a (Z.of_nat k) = Some b.
Proof.
  unfold receiver. intros H. run_inv H as o Ho.
  apply storeAt_inv in Ho as (row & slot & Hrow & Hslot & ->).
  destruct (slot !! k) as [b' |] eqn:Hb; [| done]. injection H as ->.
  unfold vectorAt. rewrite Hrow. simpl. rewrite Hslot. simpl.
  apply at_index_Some. split; [lia |]. by rewrite Nat2Z.id.
Qed.

(** A finite vector that is a part of a finite vector [ov] lists the
    positions of [ov] it has. *)
Lemma toArray_part b ov (f : nat -> bool) :
  BitSet.finite b -> BitSet.finite ov ->
  (forall x, BitSet.get b x = f x && BitSet.get ov x) ->
  BitSet.toArray b = filter (fun x => f x = true) (BitSet.toArray ov).
Proof.
  intros Hb Hov Hf. apply BitSetFacts.sorted_ext.
  - apply BitSetFacts.toArray_sorted.
  - apply BitSetFacts.sorted_filter, BitSetFacts.toArray_sorted.
  - intros x. rewrite list_elem_of_filter, !BitSetFacts.elem_of_toArray by done.
    rewrite Hf, andb_true_iff. tauto.
Qed.

Lemma stopsNeeded_sum d0 d1 d2 (l : list nat) :
  Z.of_nat (length (filter (fun x => negb (BitSet.get d0 x) && BitSet.get d1 x = true) l))
  + Z.of_nat (length (filter (fun x => negb (BitSet.get d0 x) && negb (BitSet.get d1 x)
                                       && BitSet.get d2 x = true) l)) * 2
  = sumArray (stopsNeeded d0 d1 d2 <$> l).
Proof.
  induction l as [| x l IH]; [done |].
  rewrite fmap_cons, sumArray_cons, <- IH, !filter_cons. unfold stopsNeeded.
  destruct (BitSet.get d0 x), (BitSet.get d1 x), (BitSet.get d2 x); simpl; lia.
Qed.

Lemma stopsNeeded_range d0 d1 d2 (l : list nat) :
  0 <= sumArray (stopsNeeded d0 d1 d2 <$> l) <= 2 * Z.of_nat (length l).
Proof.
  induction l as [| x l IH]; [done |].
  rewrite fmap_cons, sumArray_cons. cbn [length]. unfold stopsNeeded at 1 3.
  destruct (BitSet.get d0 x), (BitSet.get d1 x), (BitSet.get d2 x); lia.
Qed.

Lemma getStopsCount_inv sel ov day i s z :
  BitSet.finite ov ->
  (getStopsCount sel ov day i s).1 = Ok z ->
  exists d0 d1 d2,
    vectorAt (sel s) day i 0 = Some d0 /\
    vectorAt (sel s) day i 1 = Some d1 /\
    vectorAt (sel s) day i 2 = Some d2 /\
    z = sumArray (stopsNeeded d0 d1 d2 <$> BitSet.toArray ov).
Proof.
  intros Hov. unfold getStopsCount. intros H.
  run_inv H as d0 H0. run_inv H as d1 H1. run_inv H as d1' H1'. run_inv H as d2 H2.
  injection H as <-.
  apply receiver_inv in H0, H1, H1', H2. rewrite H1 in H1'. injection H1' as <-.
  exists d0, d1, d2. repeat (split; [done |]).
  rewrite <- stopsNeeded_sum, !BitSetFacts.cardinality_length.
  rewrite (toArray_part (BitSet.and d1 (BitSet.and (BitSet.not d0) ov)) ov
             (fun x => negb (BitSet.get d0 x) && BitSet.get d1 x)).
  - rewrite (toArray_part
               (BitSet.and (BitSet.and d2 (BitSet.and (BitSet.not d0) ov)) (BitSet.not d1)) ov
               (fun x => negb (BitSet.get d0 x) && negb (BitSet.get d1 x)
                         && BitSet.get d2 x)); [done | | done |].
    + apply BitSetFacts.and_finite_l, BitSetFacts.and_finite_r, BitSetFacts.and_finite_r, Hov.
    + intros x. rewrite !BitSetFacts.get_and, !BitSetFacts.get_not.
      destruct (BitSet.get d0 x), (BitSet.get d1 x), (BitSet.get d2 x), (BitSet.get ov x); done.
  - apply BitSetFacts.and_finite_r, BitSetFacts.and_finite_r, Hov.
  - done.
  - intros x. rewrite !BitSetFacts.get_and, !BitSetFacts.get_not.
    destruct (BitSet.get d0 x), (BitSet.get d1 x), (BitSet.get ov x); done.
Qed.

(** X11: for a finite vector of origins, the stop count of a day and a
    candidate, outbound or inbound, is the sum over the origins of the
    vector of the stops each one needs that day: 0 with a direct
    connection, else 1 with a one-stop connection, else 2 with a two-stop
    connection, and 0 without any; it lies between 0 and twice the number
    of origins, and it throws only when a vector of that day and candidate
    is missing. *)
Theorem getStopsCount_per_origin ov day i s :
  BitSet.finite ov ->
  forall sel, sel = outboundStorage \/ sel = inboundStorage ->
    match (getStopsCount sel ov day i s).1 with
    | Ok z =>
        exists d0 d1 d2,
          vectorAt (sel s) day i 0 = Some d0 /\
          vectorAt (sel s) day i 1 = Some d1 /\
          vectorAt (sel s) day i 2 = Some d2 /\
          z = sumArray (stopsNeeded d0 d1 d2 <$> BitSet.toArray ov) /\
          0 <= z <= 2 * BitSet.cardinality ov
    | Throw e =>
        e = TypeError /\
        (vectorAt (sel s) day i 0 = None \/ vectorAt (sel s) day i 1 = None \/
         vectorAt (sel s) day i 2 = None)
    end.
Proof.
  intros Hov sel _.
  destruct (getStopsCount sel ov day i s).1 as [z | e] eqn:H.
  - apply getStopsCount_inv in H as (d0 & d1 & d2 & H0 & H1 & H2 & ->); [| done].
    exists d0, d1, d2. do 4 (split; [done |]).
    rewrite BitSetFacts.cardinality_length. apply stopsNeeded_range.
  - revert H. unfold getStopsCount.
    rewrite readonly_bind_run, (receiver_run sel day i 0) by readonly_tac.
    change (Z.of_nat 0) with 0.
    destruct (vectorAt (sel s) day i 0) as [d0 |]; [| intros [= <-]; auto].
    rewrite readonly_bind_run, (receiver_run sel day i 1) by readonly_tac.
    change (Z.of_nat 1) with 1.
    destruct (vectorAt (sel s) day i 1) as [d1 |] eqn:H1; [| intros [= <-]; auto].
    rewrite readonly_bind_run, (receiver_run sel day i 1) by readonly_tac.
    change (Z.of_nat 1) with 1. rewrite H1.
    rewrite readonly_bind_run, (receiver_run sel day i 2) by readonly_tac.
    change (Z.of_nat 2) with 2.
    destruct (vectorAt (sel s) day i 2) as [d2 |]; [done | intros [= <-]; auto].
Qed.

Lemma getStopsCount_per_origin_witness :
  BitSet.finite 11 /\
  match (getStopsCount outboundStorage 11 9 1 Fixture.storage).1 with
  | Ok z =>
      exists d0 d1 d2,
        vectorAt (outboundStorage Fixture.storage) 9 1 0 = Some d0 /\
        vectorAt (outboundStorage Fixture.storage) 9 1 1 = Some d1 /\
        vectorAt (outboundStorage Fixture.storage) 9 1 2 = Some d2 /\
        z = sumArray (stopsNeeded d0 d1 d2 <$> BitSet.toArray 11) /\
        0 <= z <= 2 * BitSet.cardinality 11
  | Throw e =>
      e = TypeError /\
      (vectorAt (outboundStorage Fixture.storage) 9 1 0 = None \/
       vectorAt (outboundStorage Fixture.storage) 9 1 1 = None \/
       vectorAt (outboundStorage Fixture.storage) 9 1 2 = None)
  end.
Proof.
  assert (BitSet.finite 11) as Hfin by (unfold BitSet.finite; lia).
  split; [exact Hfin |].
  exact (getStopsCount_per_origin 11 9 1%nat Fixture.storage Hfin outboundStorage
           (or_introl eq_refl)).
Defined.

(** ** The two sides of a candidate, in closed form *)

Lemma firstServed_servedWithin layers x j :
  is_Some (firstServed layers x j) <-> servedWithin layers x = true.
Proof.
  revert j. induction layers as [| layer layers IH]; intros j; simpl.
  - split; [by intros [? ?] | done].
  - destruct (BitSet.get layer x); simpl; [split; eauto | apply IH].
Qed.

Lemma filter_ext_in {A} (P Q : A -> Prop) `{!forall x, Decision (P x)}
    `{!forall x, Decision (Q x)} (l : list A) :
  (forall x, x ∈ l -> P x <-> Q x) -> filter P l = filter Q l.
Proof.
  induction l as [| x l IH]; intros Hiff; [done |].
  rewrite !filter_cons, IH by (intros y Hy; apply Hiff; by right).
  destruct (Hiff x (list_elem_of_here _ _)). repeat case_decide; done || tauto.
Qed.

Lemma outboundSide_loopInv om ov n idx mo i s v :
  BitSet.finite ov ->
  Z.of_nat (length (BitSet.toArray ov)) <= n ->
  (outboundSide om ov n idx mo i s).1 = Ok v ->
  loopInv (weight (airportsArray s) om) (BitSet.toArray ov) (outboundLayers s idx mo i) v.
Proof.
  intros Hov Hn. unfold outboundSide. intros H.
  run_inv H as v0 Hv0.
  apply (anchorSide_inv _ _ _ _ _ _ Hov) in Hv0 as (Ha & Hc & Hs).
  pose proof (loopInv_anchor (weight (airportsArray s) om) _ _ _ Ha Hc Hs) as Hinv.
  unfold outboundLayers.
  destruct (count v0 <? n) eqn:Hlt; simpl in H.
  - destruct (Z.gtb_spec mo 0) as [Hm | Hm].
    + refine (shoulderLoop_inv outboundStorage om ov i n (fun j => idx - j)
                (fun v => count v <? n) s Hov Hn _ (Z.to_nat mo)
                [layerAt outboundStorage s idx i] v0 v Hinv H).
      intros w Hw. apply Z.ltb_ge in Hw. lia.
    + injection H as <-. rewrite upto_nonpos by lia. apply Hinv.
  - injection H as <-. apply Z.ltb_ge in Hlt.
    refine (loopInv_skip _ _ n [_] _ v0 Hn Hinv _). lia.
Qed.

Lemma inboundSide_loopInv om ov n idx mi i s v :
  BitSet.finite ov ->
  Z.of_nat (length (BitSet.toArray ov)) <= n ->
  (inboundSide om ov n idx mi i s).1 = Ok v ->
  loopInv (weight (airportsArray s) om) (BitSet.toArray ov) (inboundLayers s idx mi i) v.
Proof.
  intros Hov Hn. unfold inboundSide. intros H.
  run_inv H as v0 Hv0.
  apply (anchorSide_inv _ _ _ _ _ _ Hov) in Hv0 as (Ha & Hc & Hs).
  pose proof (loopInv_anchor (weight (airportsArray s) om) _ _ _ Ha Hc Hs) as Hinv.
  unfold inboundLayers.
  destruct (count v0 <? n) eqn:Hlt.
  - destruct (Z.gtb_spec mi 0) as [Hm | Hm].
    + refine (shoulderLoop_inv inboundStorage om ov i n (fun j => idx + j)
                (fun v => (count v <? n) && true) s Hov Hn _ (Z.to_nat mi)
                [layerAt inboundStorage s idx i] v0 v Hinv H).
      intros w Hw. rewrite andb_true_r in Hw. apply Z.ltb_ge in Hw. lia.
    + rewrite upto_nonpos in * by lia. injection H as <-. apply Hinv.
  - injection H as <-. apply Z.ltb_ge in Hlt.
    refine (loopInv_skip _ _ n [_] _ v0 Hn Hinv _). lia.
Qed.

(** What the invariant says at the end of a side: the count is the number
    of origins some day serves, and the origins left are those no day
    serves. *)
Lemma loopInv_closed w positions layers v :
  loopInv w positions layers v ->
  count v
  = Z.of_nat (length (filter (fun x => servedWithin layers x = true) positions)) /\
  filter (fun x => BitSet.get (available v) x = false) positions
  = filter (fun x => servedWithin layers x = false) positions.
Proof.
  intros (Hserved & Hcount & _). split.
  - rewrite Hcount. do 2 f_equal. apply filter_ext_in. intros x Hx.
    by rewrite (Hserved x Hx), firstServed_servedWithin.
  - apply filter_ext_in. intros x Hx.
    pose proof (Hserved x Hx) as H. rewrite firstServed_servedWithin in H.
    destruct (BitSet.get (available v) x), (servedWithin layers x); intuition congruence.
Qed.

Lemma candidate_inv_full om ov n oi ii mo mi i s d :
  BitSet.finite ov ->
  (candidate om ov n oi ii mo mi i s).1 = Ok d ->
  exists out inb,
    (outboundSide om ov n oi mo i s).1 = Ok out /\
    (inboundSide om ov n ii mi i s).1 = Ok inb /\
    d = {| code := codeAt (airportsArray s) i;
           availableOrigins := count out + count inb;
           totalStops := stopsTotal out + stopsTotal inb;
           unavailableOutboundOrigins :=
             codeAt (airportsArray s) <$>
             filter (fun x => x <> i)
               (filter (fun x => BitSet.get (available out) x = false) (BitSet.toArray ov));
           outboundShoulderNights := shoulderNights out;
           unavailableInboundOrigins :=
             codeAt (airportsArray s) <$>
             filter (fun x => x <> i)
               (filter (fun x => BitSet.get (available inb) x = false) (BitSet.toArray ov));
           inboundShoulderNights := shoulderNights inb |}.
Proof.
  intros Hov. unfold candidate. intros H.
  run_inv H as out Hout. run_inv H as inb Hinb. run_inv H as arr Harr.
  run_inv H as uo Huo. run_inv H as ui Hui.
  injection Harr as <-. injection H as <-. exists out, inb.
  split; [done |]. split; [done |].
  assert (forall avail,
            BitSet.toArray (BitSet.and (BitSet.not avail) ov)
            = filter (fun x => BitSet.get avail x = false) (BitSet.toArray ov)) as Hun.
  { intros avail. rewrite BitSetFacts.toArray_and by done.
    apply list_filter_iff. intros x. by rewrite BitSetFacts.get_not, negb_true_iff. }
  unfold getUnavailableOrigins in Huo, Hui.
  run_inv Huo as arr Harr. injection Harr as <-. injection Huo as <-.
  run_inv Hui as arr Harr. injection Harr as <-. injection Hui as <-.
  by rewrite !Hun.
Qed.

(** Every record of a result is the record of one candidate. *)
Lemma result_record s origins ms me mo mi tk r d :
  wf s ->
  (getDestinationsForDatePair origins ms me mo mi tk s).1 = Ok r ->
  d ∈ r ->
  exists i out inb,
    airportsArray s !! i = Some (code d) /\
    loopInv (weight (airportsArray s) (originsMapOf origins)) (originPositions s origins)
      (outboundLayers s (dayIndex s ms) mo i) out /\
    loopInv (weight (airportsArray s) (originsMapOf origins)) (originPositions s origins)
      (inboundLayers s (dayIndex s me) mi i) inb /\
    d = {| code := codeAt (airportsArray s) i;
           availableOrigins := count out + count inb;
           totalStops := stopsTotal out + stopsTotal inb;
           unavailableOutboundOrigins :=
             codeAt (airportsArray s) <$>
             filter (fun x => x <> i)
               (filter (fun x => BitSet.get (available out) x = false)
                  (originPositions s origins));
           outboundShoulderNights := shoulderNights out;
           unavailableInboundOrigins :=
             codeAt (airportsArray s) <$>
             filter (fun x => x <> i)
               (filter (fun x => BitSet.get (available inb) x = false)
                  (originPositions s origins));
           inboundShoulderNights := shoulderNights inb |}.
Proof.
  intros Hwf Hr Hd.
  apply getDestinationsForDatePair_inv in Hr as (ds & Hds & ->).
  assert (d ∈ ds) as Hd1.
  { rewrite <- sortByAvailable_perm. destruct (tk >? 0); [by eapply subseteq_take | done]. }
  apply list_elem_of_lookup in Hd1 as [i Hi].
  destruct (Forall2_lookup_r _ _ _ _ _ Hds Hi) as (k & Hk & Hc).
  apply lookup_seq in Hk as [-> Hlt]. simpl in *.
  pose proof (originsVectorOf_finite s origins) as Hfin.
  pose proof (originsVectorOf_length s origins) as Hlen.
  apply candidate_inv_full in Hc as (out & inb & Ho & Hi1 & Hrec); [| done].
  exists i, out, inb.
  split; [rewrite Hrec; simpl; by apply wf_codeAt |].
  split; [apply outboundSide_loopInv in Ho; [done | done | lia] |].
  split; [apply inboundSide_loopInv in Hi1; [done | done | lia] |].
  exact Hrec.
Qed.

Lemma lastCount_Some_elem origins c w :
  lastCount origins c = Some w ->
  exists o, o ∈ origins /\ origin_code o = c /\ origin_count o = w.
Proof.
  induction origins as [| o origins IH]; simpl; [done |].
  destruct (lastCount origins c) as [w' |].
  - intros [= ->]. destruct (IH eq_refl) as (o' & Ho' & Hc & Hw).
    exists o'. split; [by right | done].
  - case_decide; [| done]. intros [= <-]. exists o. split; [by left | done].
Qed.

(** X12: in a result of [getDestinationsForDatePair] on a state the class
    can be in, the available origins of a candidate are the number of
    registered origins that some day from the meeting start back to the
    outbound tolerance serves, plus the number that some day from the
    meeting end on to the inbound tolerance serves; an origin counts once
    per side however many days serve it, so the value lies between 0 and
    twice the length of the list of origins. *)
Theorem available_origins_closed_form
    s origins meetingStart meetingEnd maxOut maxIn take_ r :
  reachable s ->
  (getDestinationsForDatePair origins meetingStart meetingEnd maxOut maxIn take_ s).1 = Ok r ->
  forall d, d ∈ r ->
    exists i,
      airportsArray s !! i = Some (code d) /\
      availableOrigins d
      = Z.of_nat (length (filter
            (fun x => servedWithin (outboundLayers s (dayIndex s meetingStart) maxOut i) x
                      = true)
            (originPositions s origins)))
        + Z.of_nat (length (filter
            (fun x => servedWithin (inboundLayers s (dayIndex s meetingEnd) maxIn i) x
                      = true)
            (originPositions s origins))) /\
      0 <= availableOrigins d <= 2 * Z.of_nat (length origins).
Proof.
  intros Hwf%reachable_wf Hr d Hd.
  destruct (result_record _ _ _ _ _ _ _ _ _ Hwf Hr Hd)
    as (i & out & inb & Hi & [Hco _]%loopInv_closed & [Hci _]%loopInv_closed & ->).
  exists i. split; [done |]. simpl. rewrite Hco, Hci. split; [done |].
  pose proof (originsVectorOf_length s origins) as Hlen. fold (originPositions s origins) in Hlen.
  pose proof (length_filter
                (fun x => servedWithin (outboundLayers s (dayIndex s meetingStart) maxOut i) x
                          = true) (originPositions s origins)).
  pose proof (length_filter
                (fun x => servedWithin (inboundLayers s (dayIndex s meetingEnd) maxIn i) x
                          = true) (originPositions s origins)).
  lia.
Qed.

Lemma available_origins_closed_form_witness :
  reachable Fixture.storage /\
  (getDestinationsForDatePair Fixture.origins (Fixture.january 10) (Fixture.january 15)
     1 1 0 Fixture.storage).1 = Ok Fixture.totalCounts /\
  exists i,
    airportsArray Fixture.storage !! i = Some "CCC" /\
    4 = Z.of_nat (length (filter
          (fun x => servedWithin
                      (outboundLayers Fixture.storage
                         (dayIndex Fixture.storage (Fixture.january 10)) 1 i) x = true)
          (originPositions Fixture.storage Fixture.origins)))
        + Z.of_nat (length (filter
          (fun x => servedWithin
                      (inboundLayers Fixture.storage
                         (dayIndex Fixture.storage (Fixture.january 15)) 1 i) x = true)
          (originPositions Fixture.storage Fixture.origins))).
Proof.
  assert ((getDestinationsForDatePair Fixture.origins (Fixture.january 10)
             (Fixture.january 15) 1 1 0 Fixture.storage).1 = Ok Fixture.totalCounts) as H1
    by (vm_compute; reflexivity).
  split; [apply fixture_reachable |]. split; [exact H1 |].
  destruct (available_origins_closed_form Fixture.storage Fixture.origins
              (Fixture.january 10) (Fixture.january 15) 1 1 0 Fixture.totalCounts
              fixture_reachable H1 (mkDestination "CCC" 4 4 [] 2 [] 1))
    as (i & Hi & Hav & _); [apply list_elem_of_here |].
  exists i. split; [exact Hi | exact Hav].
Defined.

(** X13: in a result on a state the class can be in, the unavailable
    outbound origins of a candidate are the codes of the registered origins,
    other than the candidate itself, that no day from the meeting start
    back to the tolerance serves, in ascending order of their index, and
    likewise inbound; the candidate's own code is in neither list, and every
    listed code is a registered code of the list of origins. *)
Theorem unavailable_origins_closed_form
    s origins meetingStart meetingEnd maxOut maxIn take_ r :
  reachable s ->
  (getDestinationsForDatePair origins meetingStart meetingEnd maxOut maxIn take_ s).1 = Ok r ->
  forall d, d ∈ r ->
    exists i,
      airportsArray s !! i = Some (code d) /\
      unavailableOutboundOrigins d
      = codeAt (airportsArray s) <$>
        filter (fun x => x <> i)
          (filter (fun x => servedWithin
                              (outboundLayers s (dayIndex s meetingStart) maxOut i) x = false)
             (originPositions s origins)) /\
      unavailableInboundOrigins d
      = codeAt (airportsArray s) <$>
        filter (fun x => x <> i)
          (filter (fun x => servedWithin
                              (inboundLayers s (dayIndex s meetingEnd) maxIn i) x = false)
             (originPositions s origins)) /\
      (code d ∉ unavailableOutboundOrigins d) /\
      (code d ∉ unavailableInboundOrigins d) /\
      forall c, c ∈ unavailableOutboundOrigins d \/ c ∈ unavailableInboundOrigins d ->
                is_Some (indexOf s c) /\ exists o, o ∈ origins /\ origin_code o = c.
Proof.
  intros Hwf%reachable_wf Hr d Hd.
  destruct (result_record _ _ _ _ _ _ _ _ _ Hwf Hr Hd)
    as (i & out & inb & Hi & [_ Huo]%loopInv_closed & [_ Hui]%loopInv_closed & ->).
  simpl in Hi. exists i. split; [done |]. simpl. rewrite Huo, Hui.
  split; [done |]. split; [done |].
  assert (forall (P : nat -> Prop) `{!forall x, Decision (P x)} c,
            c ∈ codeAt (airportsArray s) <$>
                filter (fun x => x <> i) (filter P (originPositions s origins)) ->
            exists x, x <> i /\ airportsArray s !! x = Some c /\
                      exists w, lastCount origins c = Some w) as Hmem.
  { intros P HP c (x & -> & Hx)%list_elem_of_fmap.
    apply list_elem_of_filter in Hx as [Hne Hx]. apply list_elem_of_filter in Hx as [_ Hx].
    destruct (wf_weight s origins x Hwf Hx) as (c & w & Hc & Hw & _).
    exists x. unfold codeAt. rewrite Hc. simpl. eauto. }
  assert (forall (P : nat -> Prop) `{!forall x, Decision (P x)},
            codeAt (airportsArray s) i ∉
            codeAt (airportsArray s) <$>
              filter (fun x => x <> i) (filter P (originPositions s origins))) as Hself.
  { intros P HP (x & Hne & Hx & _)%Hmem. apply Hne.
    eapply NoDup_lookup; [by apply wf_NoDup | exact Hx | exact Hi]. }
  split; [apply Hself |]. split; [apply Hself |].
  intros c [Hc | Hc]; apply Hmem in Hc as (x & _ & Hx & w & Hw);
    (split; [exists x; by apply (wf_registry s Hwf) |]);
    apply lastCount_Some_elem in Hw as (o & Ho & Hoc & _); eauto.
Qed.

Lemma unavailable_origins_closed_form_witness :
  reachable Fixture.storage /\
  (getDestinationsForDatePair Fixture.origins (Fixture.january 10) (Fixture.january 15)
     1 1 0 Fixture.storage).1 = Ok Fixture.totalCounts /\
  "DDD" ∉ ["CCC"; "BBB"].
Proof.
  assert ((getDestinationsForDatePair Fixture.origins (Fixture.january 10)
             (Fixture.january 15) 1 1 0 Fixture.storage).1 = Ok Fixture.totalCounts) as H1
    by (vm_compute; reflexivity).
  split; [apply fixture_reachable |]. split; [exact H1 |].
  destruct (unavailable_origins_closed_form Fixture.storage Fixture.origins
              (Fixture.january 10) (Fixture.january 15) 1 1 0 Fixture.totalCounts
              fixture_reachable H1
              (mkDestination "DDD" 2 0 ["CCC"; "BBB"] 0 ["CCC"; "BBB"] 0))
    as (i & _ & _ & _ & Hself & _).
  - apply list_elem_of_further, list_elem_of_here.
  - exact Hself.
Defined.

(** ** The total of stops, in closed form *)

Lemma storeAt_run sel day a k s :
  (storeAt sel day a k s).1
  = match at_index (sel s) day with
    | Some row => match row !! a with
                  | Some slot => Ok (slot !! k)
                  | None => Throw TypeError
                  end
    | None => Throw TypeError
    end.
Proof.
  unfold storeAt.
  rewrite readonly_bind_run by readonly_tac. cbn [gets fst].
  rewrite readonly_bind_run by readonly_tac.
  destruct (at_index (sel s) day) as [row |]; [| done]. simpl.
  rewrite readonly_bind_run by readonly_tac.
  by destruct (row !! a) as [slot |].
Qed.

Lemma storeAt_vectorAt sel day a k s b :
  vectorAt (sel s) day a (Z.of_nat k) = Some b -> (storeAt sel day a k s).1 = Ok (Some b).
Proof.
  rewrite storeAt_run. unfold vectorAt.
  destruct (at_index (sel s) day) as [row |]; [| done]. simpl.
  destruct (row !! a) as [slot |]; [| done]. simpl.
  intros [_ H]%at_index_Some. rewrite Nat2Z.id in H. by rewrite H.
Qed.

(** The layer of a day is the union of its three vectors. *)
Lemma layerAt_vectors sel s day i d0 d1 d2 :
  vectorAt (sel s) day i 0 = Some d0 ->
  vectorAt (sel s) day i 1 = Some d1 ->
  vectorAt (sel s) day i 2 = Some d2 ->
  layerAt sel s day i = BitSet.or (BitSet.or d0 d1) d2.
Proof.
  intros H0 H1 H2. unfold layerAt, availableConnections.
  rewrite readonly_bind_run, (receiver_run sel day i 0) by readonly_tac.
  change (Z.of_nat 0) with 0. rewrite H0.
  rewrite readonly_bind_run, (storeAt_vectorAt sel day i 1 s d1) by (done || readonly_tac).
  rewrite readonly_bind_run, (storeAt_vectorAt sel day i 2 s d2) by (done || readonly_tac).
  done.
Qed.

Lemma dayStops_unserved sel s day i x :
  BitSet.get (layerAt sel s day i) x = false -> dayStops sel s day i x = 0.
Proof.
  unfold dayStops.
  destruct (vectorAt (sel s) day i 0) as [d0 |] eqn:H0; [| done].
  destruct (vectorAt (sel s) day i 1) as [d1 |] eqn:H1; [| done].
  destruct (vectorAt (sel s) day i 2) as [d2 |] eqn:H2; [| done].
  rewrite (layerAt_vectors _ _ _ _ _ _ _ H0 H1 H2), !BitSetFacts.get_or.
  unfold stopsNeeded.
  by destruct (BitSet.get d0 x), (BitSet.get d1 x), (BitSet.get d2 x).
Qed.

Lemma dayStops_range sel s day i x : 0 <= dayStops sel s day i x <= 2.
Proof.
  unfold dayStops, stopsNeeded. repeat case_match; lia.
Qed.

Lemma firstStops_range sel s i days x : 0 <= firstStops sel s i days x <= 2.
Proof.
  induction days as [| day days IH]; simpl; [lia |].
  case_match; [apply dayStops_range | done].
Qed.

Lemma firstStops_app sel s i days1 days2 x :
  firstStops sel s i (days1 ++ days2) x
  = if servedWithin ((fun day => layerAt sel s day i) <$> days1) x
    then firstStops sel s i days1 x
    else firstStops sel s i days2 x.
Proof.
  induction days1 as [| day days1 IH]; simpl; [done |].
  destruct (BitSet.get (layerAt sel s day i) x); simpl; [done | apply IH].
Qed.

Lemma getStopsCount_dayStops sel ov day i s z :
  BitSet.finite ov ->
  (getStopsCount sel ov day i s).1 = Ok z ->
  z = sumArray (dayStops sel s day i <$> BitSet.toArray ov).
Proof.
  intros Hov (d0 & d1 & d2 & H0 & H1 & H2 & ->)%getStopsCount_inv; [| done].
  f_equal. apply list_fmap_ext. intros _ x _. unfold dayStops. by rewrite H0, H1, H2.
Qed.

Lemma anchorSide_stops sel ov idx i s v :
  BitSet.finite ov ->
  (anchorSide sel ov idx i s).1 = Ok v ->
  stopsTotal v = sumArray (firstStops sel s i [idx] <$> BitSet.toArray ov).
Proof.
  intros Hov. unfold anchorSide. intros H.
  run_inv H as avail Havail. run_inv H as total Htotal. injection H as <-. simpl.
  rewrite (getStopsCount_dayStops _ _ _ _ _ _ Hov Htotal).
  f_equal. apply list_fmap_ext. intros _ x _.
  destruct (BitSet.get (layerAt sel s idx i) x) eqn:Hx; [done |].
  by apply dayStops_unserved.
Qed.

Lemma shoulderBody_stops sel om ov i day j v s v' :
  BitSet.finite ov ->
  (shoulderBody sel om ov i day j v s).1 = Ok v' ->
  stopsTotal v'
  = stopsTotal v
    + sumArray (dayStops sel s day i <$>
                filter (fun x => BitSet.get (available v) x = false) (BitSet.toArray ov)).
Proof.
  intros Hov. unfold shoulderBody. intros H.
  run_inv H as aoc Haoc. run_inv H as sc Hsc. run_inv H as arr Harr.
  injection H as <-. simpl.
  apply getStopsCount_dayStops in Hsc; [| by apply BitSetFacts.and_finite_r].
  rewrite Hsc, BitSetFacts.toArray_and by done. do 3 f_equal.
  apply list_filter_iff. intros x. by rewrite BitSetFacts.get_not, negb_true_iff.
Qed.

Section StopsLoop.
Variable sel : ConnectionsStorage -> Store.
Variable s : ConnectionsStorage.
Variable i : nat.
Variable w : nat -> Z.
Variable positions : list nat.

Lemma stops_step days day v :
  loopInv w positions ((fun day => layerAt sel s day i) <$> days) v ->
  stopsTotal v = sumArray (firstStops sel s i days <$> positions) ->
  stopsTotal v
  + sumArray (dayStops sel s day i <$>
              filter (fun x => BitSet.get (available v) x = false) positions)
  = sumArray (firstStops sel s i (days ++ [day]) <$> positions).
Proof.
  intros (Hserved & _ & _) ->. clear -Hserved.
  induction positions as [| x l IH]; [done |].
  assert (forall y, y ∈ l ->
            BitSet.get (available v) y = true <->
            is_Some (firstServed ((fun day => layerAt sel s day i) <$> days) y 0)) as Hl.
  { intros y Hy. apply Hserved. by right. }
  specialize (IH Hl).
  rewrite filter_cons, !fmap_cons, !sumArray_cons, <- IH.
  pose proof (Hserved x (list_elem_of_here _ _)) as Hx.
  rewrite firstServed_servedWithin in Hx.
  rewrite firstStops_app. simpl.
  destruct (servedWithin _ x) eqn:Hsw.
  - rewrite decide_False by (destruct Hx as [_ Hx]; rewrite Hx; done). lia.
  - assert (BitSet.get (available v) x = false) as Hav.
    { destruct (BitSet.get (available v) x); [| done]. by destruct Hx as [-> _]. }
    rewrite decide_True by done. rewrite fmap_cons, sumArray_cons.
    assert (firstStops sel s i days x = 0) as ->.
    { clear -Hsw. induction days as [| d ds IHd]; [done |]. simpl in *.
      destruct (BitSet.get (layerAt sel s d i) x); [done | by apply IHd]. }
    destruct (BitSet.get (layerAt sel s day i) x) eqn:Hday; [lia |].
    rewrite (dayStops_unserved _ _ _ _ _ Hday). lia.
Qed.

Lemma stops_skip n days more v :
  Z.of_nat (length positions) <= n ->
  loopInv w positions ((fun day => layerAt sel s day i) <$> days) v ->
  ~ count v < n ->
  sumArray (firstStops sel s i (days ++ more) <$> positions)
  = sumArray (firstStops sel s i days <$> positions).
Proof.
  intros Hn (Hserved & Hcount & _) Hfull.
  f_equal. apply list_fmap_ext. intros _ x Hx%list_elem_of_lookup_2.
  rewrite firstStops_app.
  assert (servedWithin ((fun day => layerAt sel s day i) <$> days) x = true) as ->; [| done].
  apply (firstServed_servedWithin _ _ 0), Hserved; [done |].
  destruct (BitSet.get (available v) x) eqn:Hget; [done |]. exfalso.
  assert (length (filter (fun x => BitSet.get (available v) x = true) positions)
          < length positions)%nat as Hlt; [| lia].
  apply (length_filter_lt _ _ x); [done |]. simpl. congruence.
Qed.
End StopsLoop.

Lemma shoulderLoop_stops sel om ov i n (dayOf : Z -> Z) (guard : Side -> bool) s :
  BitSet.finite ov ->
  Z.of_nat (length (BitSet.toArray ov)) <= n ->
  (forall v, guard v = false -> ~ count v < n) ->
  forall k days v v',
    loopInv (weight (airportsArray s) om) (BitSet.toArray ov)
      ((fun day => layerAt sel s day i) <$> days) v ->
    stopsTotal v = sumArray (firstStops sel s i days <$> BitSet.toArray ov) ->
    (foldM (fun v j => if guard v then shoulderBody sel om ov i (dayOf j) j v else mret v)
       (Z.of_nat <$> seq (length days) k) v s).1 = Ok v' ->
    stopsTotal v'
    = sumArray (firstStops sel s i (days ++ (dayOf <$> (Z.of_nat <$> seq (length days) k)))
                <$> BitSet.toArray ov).
Proof.
  intros Hov Hn Hguard k. induction k as [| k IH]; intros days v v' Hinv Hstops H.
  - simpl in H. injection H as <-. by rewrite app_nil_r.
  - cbn [seq fmap list_fmap] in *. simpl in H.
    apply bind_run_Ok in H as (v1 & Hv1 & H); [| readonly_tac].
    set (day := dayOf (Z.of_nat (length days))) in *.
    assert (loopInv (weight (airportsArray s) om) (BitSet.toArray ov)
              ((fun day => layerAt sel s day i) <$> (days ++ [day])) v1 /\
            stopsTotal v1
            = sumArray (firstStops sel s i (days ++ [day]) <$> BitSet.toArray ov))
      as [Hinv1 Hstops1].
    { rewrite fmap_app. cbn [fmap list_fmap].
      destruct (guard v) eqn:Hg.
      - pose proof (shoulderBody_stops _ _ _ _ _ _ _ _ _ Hov Hv1) as Hst.
        apply (shoulderBody_inv _ _ _ _ _ _ _ _ _ Hov) in Hv1 as (Ha & Hc & Hs).
        split.
        + eapply loopInv_step; [exact Hinv | exact Ha | exact Hc |].
          by rewrite length_fmap.
        + rewrite Hst. by apply (stops_step _ _ _ (weight (airportsArray s) om)).
      - injection Hv1 as <-. split.
        + eapply loopInv_skip; eauto.
        + rewrite Hstops. symmetry.
          eapply (stops_skip _ _ _ (weight (airportsArray s) om)); eauto. }
    specialize (IH (days ++ [day]) v1 v' Hinv1 Hstops1).
    rewrite length_app, Nat.add_1_r in IH. cbn [length] in IH.
    rewrite <- app_assoc in IH. apply IH. exact H.
Qed.

Lemma layers_of_days sel s i idx (f : Z -> Z) js :
  layerAt sel s idx i :: ((fun j => layerAt sel s (f j) i) <$> js)
  = (fun day => layerAt sel s day i) <$> (idx :: (f <$> js)).
Proof. cbn [fmap list_fmap]. f_equal. by rewrite <- list_fmap_compose. Qed.

Lemma outboundSide_stops om ov n idx mo i s v :
  BitSet.finite ov ->
  Z.of_nat (length (BitSet.toArray ov)) <= n ->
  (outboundSide om ov n idx mo i s).1 = Ok v ->
  stopsTotal v
  = sumArray (firstStops outboundStorage s i (outboundDays idx mo) <$> BitSet.toArray ov).
Proof.
  intros Hov Hn. unfold outboundSide. intros H.
  run_inv H as v0 Hv0.
  pose proof (anchorSide_stops _ _ _ _ _ _ Hov Hv0) as Hst.
  apply (anchorSide_inv _ _ _ _ _ _ Hov) in Hv0 as (Ha & Hc & Hs).
  pose proof (loopInv_anchor (weight (airportsArray s) om) _ _ _ Ha Hc Hs) as Hinv.
  unfold outboundDays.
  destruct (count v0 <? n) eqn:Hlt; simpl in H.
  - destruct (Z.gtb_spec mo 0) as [Hm | Hm].
    + refine (shoulderLoop_stops outboundStorage om ov i n (fun j => idx - j)
                (fun v => count v <? n) s Hov Hn _ (Z.to_nat mo) [idx] v0 v Hinv Hst H).
      intros w Hw. apply Z.ltb_ge in Hw. lia.
    + injection H as <-. rewrite upto_nonpos by lia. apply Hst.
  - injection H as <-. apply Z.ltb_ge in Hlt. rewrite Hst. symmetry.
    refine (stops_skip outboundStorage s i (weight (airportsArray s) om) _ n [idx] _ v0
              Hn Hinv _). lia.
Qed.

Lemma inboundSide_stops om ov n idx mi i s v :
  BitSet.finite ov ->
  Z.of_nat (length (BitSet.toArray ov)) <= n ->
  (inboundSide om ov n idx mi i s).1 = Ok v ->
  stopsTotal v
  = sumArray (firstStops inboundStorage s i (inboundDays idx mi) <$> BitSet.toArray ov).
Proof.
  intros Hov Hn. unfold inboundSide. intros H.
  run_inv H as v0 Hv0.
  pose proof (anchorSide_stops _ _ _ _ _ _ Hov Hv0) as Hst.
  apply (anchorSide_inv _ _ _ _ _ _ Hov) in Hv0 as (Ha & Hc & Hs).
  pose proof (loopInv_anchor (weight (airportsArray s) om) _ _ _ Ha Hc Hs) as Hinv.
  unfold inboundDays.
  destruct (count v0 <? n) eqn:Hlt.
  - destruct (Z.gtb_spec mi 0) as [Hm | Hm].
    + refine (shoulderLoop_stops inboundStorage om ov i n (fun j => idx + j)
                (fun v => (count v <? n) && true) s Hov Hn _ (Z.to_nat mi) [idx] v0 v
                Hinv Hst H).
      intros w Hw. rewrite andb_true_r in Hw. apply Z.ltb_ge in Hw. lia.
    + rewrite upto_nonpos in * by lia. injection H as <-. apply Hst.
  - injection H as <-. apply Z.ltb_ge in Hlt. rewrite Hst. symmetry.
    refine (stops_skip inboundStorage s i (weight (airportsArray s) om) _ n [idx] _ v0
              Hn Hinv _). lia.
Qed.

(** X14: in a result on a state the class can be in, the total of stops of
    a candidate is the sum, over the registered origins, of the stops each
    needs on the first day that serves it on the way out (the meeting start,
    then the days before it up to the tolerance) plus the same on the way
    back (the meeting end, then the days after it): 0 for a direct
    connection or for an origin no day serves, 1 when the best that day is
    one stop, 2 otherwise.  A later day with fewer stops does not replace an
    earlier one, and the total lies between 0 and four times the number of
    origins. *)
Theorem total_stops_closed_form
    s origins meetingStart meetingEnd maxOut maxIn take_ r :
  reachable s ->
  (getDestinationsForDatePair origins meetingStart meetingEnd maxOut maxIn take_ s).1 = Ok r ->
  forall d, d ∈ r ->
    exists i,
      airportsArray s !! i = Some (code d) /\
      totalStops d
      = sumArray (firstStops outboundStorage s i
                    (outboundDays (dayIndex s meetingStart) maxOut)
                  <$> originPositions s origins)
        + sumArray (firstStops inboundStorage s i
                      (inboundDays (dayIndex s meetingEnd) maxIn)
                    <$> originPositions s origins) /\
      0 <= totalStops d <= 4 * Z.of_nat (length origins).
Proof.
  intros Hwf%reachable_wf Hr d Hd.
  apply getDestinationsForDatePair_inv in Hr as (ds & Hds & ->).
  assert (d ∈ ds) as Hd1.
  { rewrite <- sortByAvailable_perm.
    destruct (take_ >? 0); [by eapply subseteq_take | done]. }
  apply list_elem_of_lookup in Hd1 as [i Hi].
  destruct (Forall2_lookup_r _ _ _ _ _ Hds Hi) as (k & Hk & Hc).
  apply lookup_seq in Hk as [-> Hlt]. simpl in *.
  pose proof (originsVectorOf_finite s origins) as Hfin.
  pose proof (originsVectorOf_length s origins) as Hlen.
  apply candidate_inv_full in Hc as (out & inb & Ho & Hi1 & ->); [| done].
  apply outboundSide_stops in Ho; [| done | lia].
  apply inboundSide_stops in Hi1; [| done | lia].
  exists i. simpl. split; [by apply wf_codeAt |].
  rewrite Ho, Hi1. fold (originPositions s origins) in *. split; [done |].
  assert (forall f : nat -> Z, (forall x, 0 <= f x <= 2) ->
            forall l : list nat, 0 <= sumArray (f <$> l) <= 2 * Z.of_nat (length l)) as Hsum.
  { intros f Hf l. induction l as [| x l IH]; [done |].
    rewrite fmap_cons, sumArray_cons. cbn [length]. specialize (Hf x). lia. }
  pose proof (Hsum _ (firstStops_range outboundStorage s i
                        (outboundDays (dayIndex s meetingStart) maxOut))
                (originPositions s origins)).
  pose proof (Hsum _ (firstStops_range inboundStorage s i
                        (inboundDays (dayIndex s meetingEnd) maxIn))
                (originPositions s origins)).
  lia.
Qed.

Lemma total_stops_closed_form_witness :
  reachable Fixture.storage /\
  (getDestinationsForDatePair Fixture.origins (Fixture.january 10) (Fixture.january 15)
     1 1 0 Fixture.storage).1 = Ok Fixture.totalCounts /\
  exists i,
    airportsArray Fixture.storage !! i = Some "CCC" /\
    4 = sumArray (firstStops outboundStorage Fixture.storage i
                    (outboundDays (dayIndex Fixture.storage (Fixture.january 10)) 1)
                  <$> originPositions Fixture.storage Fixture.origins)
        + sumArray (firstStops inboundStorage Fixture.storage i
                      (inboundDays (dayIndex Fixture.storage (Fixture.january 15)) 1)
                    <$> originPositions Fixture.storage Fixture.origins).
Proof.
  assert ((getDestinationsForDatePair Fixture.origins (Fixture.january 10)
             (Fixture.january 15) 1 1 0 Fixture.storage).1 = Ok Fixture.totalCounts) as H1
    by (vm_compute; reflexivity).
  split; [apply fixture_reachable |]. split; [exact H1 |].
  destruct (total_stops_closed_form Fixture.storage Fixture.origins
              (Fixture.january 10) (Fixture.january 15) 1 1 0 Fixture.totalCounts
              fixture_reachable H1 (mkDestination "CCC" 4 4 [] 2 [] 1))
    as (i & Hi & Hst & _); [apply list_elem_of_here |].
  exists i. split; [exact Hi | exact Hst].
Defined.

(** ** The errors of a query *)

Lemma raisesOnly_ret {A} P (a : A) : raisesOnly P (mret a).
Proof. by intros s e. Qed.

Lemma raisesOnly_gets {A} P (f : ConnectionsStorage -> A) : raisesOnly P (gets f).
Proof. by intros s e. Qed.

Lemma raisesOnly_defined {A} (P : Exception -> Prop) (o : option A) :
  P TypeError -> raisesOnly P (defined o).
Proof. intros HP s e. destruct o; [done |]. by intros [= <-]. Qed.

Lemma raisesOnly_bind {A B} P (m : M A) (f : A -> M B) :
  raisesOnly P m -> (forall a, raisesOnly P (f a)) -> raisesOnly P (m ≫= f).
Proof.
  intros Hm Hf s e. unfold mbind, M_bind, bind.
  destruct (m s) as [[a | e'] s'] eqn:Hms.
  - apply Hf.
  - simpl. intros [= ->]. apply (Hm s). by rewrite Hms.
Qed.

Lemma raisesOnly_foldM {A B} P (body : A -> B -> M A) xs acc :
  (forall a x, raisesOnly P (body a x)) -> raisesOnly P (foldM body xs acc).
Proof.
  intros Hbody. revert acc. induction xs as [| x xs IH]; intros acc; simpl.
  - by intros s e.
  - apply raisesOnly_bind; [apply Hbody | apply IH].
Qed.

Lemma raisesOnly_if {A} P (b : bool) (m1 m2 : M A) :
  raisesOnly P m1 -> raisesOnly P m2 -> raisesOnly P (if b then m1 else m2).
Proof. by destruct b. Qed.

Lemma raisesOnly_weaken {A} (P Q : Exception -> Prop) (m : M A) :
  (forall e, P e -> Q e) -> raisesOnly P m -> raisesOnly Q m.
Proof. intros HPQ Hm s e He. apply HPQ, (Hm s e He). Qed.

Ltac raises_tac :=
  repeat first
    [ apply raisesOnly_bind; [| intros ?]
    | apply raisesOnly_foldM; intros ? ?
    | apply raisesOnly_if
    | apply raisesOnly_ret
    | apply raisesOnly_gets
    | apply raisesOnly_defined; reflexivity ].

Lemma storeAt_raises sel day a k : raisesOnly (eq TypeError) (storeAt sel day a k).
Proof. unfold storeAt. raises_tac. Qed.

Lemma receiver_raises sel day a k : raisesOnly (eq TypeError) (receiver sel day a k).
Proof. unfold receiver. apply raisesOnly_bind; [apply storeAt_raises |]. intros o. raises_tac. Qed.

Lemma availableConnections_raises sel day i :
  raisesOnly (eq TypeError) (availableConnections sel day i).
Proof.
  unfold availableConnections.
  apply raisesOnly_bind; [apply receiver_raises | intros b0].
  apply raisesOnly_bind; [apply storeAt_raises | intros b1].
  apply raisesOnly_bind; [apply storeAt_raises | intros b2]. raises_tac.
Qed.

Lemma getStopsCount_raises sel ov day i : raisesOnly (eq TypeError) (getStopsCount sel ov day i).
Proof.
  unfold getStopsCount.
  do 4 (apply raisesOnly_bind; [apply receiver_raises | intros ?]). raises_tac.
Qed.

Lemma anchorSide_raises sel ov day i : raisesOnly (eq TypeError) (anchorSide sel ov day i).
Proof.
  unfold anchorSide.
  apply raisesOnly_bind; [apply availableConnections_raises | intros avail].
  apply raisesOnly_bind; [apply getStopsCount_raises | intros total]. raises_tac.
Qed.

Lemma shoulderBody_raises sel om ov i day j v :
  raisesOnly (eq TypeError) (shoulderBody sel om ov i day j v).
Proof.
  unfold shoulderBody.
  apply raisesOnly_bind; [apply availableConnections_raises | intros aoc].
  apply raisesOnly_bind; [apply getStopsCount_raises | intros sc]. raises_tac.
Qed.

Lemma candidate_raises om ov n oi ii mo mi i :
  raisesOnly (eq TypeError) (candidate om ov n oi ii mo mi i).
Proof.
  unfold candidate, outboundSide, inboundSide, getUnavailableOrigins.
  apply raisesOnly_bind; [| intros out].
  { apply raisesOnly_bind; [apply anchorSide_raises | intros v].
    apply raisesOnly_if; [| raises_tac].
    apply raisesOnly_foldM. intros a x.
    apply raisesOnly_if; [apply shoulderBody_raises | raises_tac]. }
  apply raisesOnly_bind; [| intros inb].
  { apply raisesOnly_bind; [apply anchorSide_raises | intros v].
    apply raisesOnly_if; [| raises_tac].
    apply raisesOnly_foldM. intros a x.
    apply raisesOnly_if; [apply shoulderBody_raises | raises_tac]. }
  raises_tac.
Qed.

Lemma candidates_raise origins ms me mo mi s e :
  (foldM (fun result i =>
            d ← candidate (originsMapOf origins) (originsVectorOf s origins)
                  (Z.of_nat (length origins)) (dayIndex s ms) (dayIndex s me) mo mi i;
            mret (result ++ [d]))
     (seq 0 (size (airports s))) [] s).1 = Throw e ->
  e = TypeError.
Proof.
  intros H. symmetry. revert H. apply raisesOnly_foldM. intros a x.
  apply raisesOnly_bind; [apply candidate_raises | intros d]. raises_tac.
Qed.

(** X15: [getDestinationsForDatePair] raises the date-out-of-range error
    exactly when the day index of the meeting start or of the meeting end is
    below 0 or above 360, whatever the stores hold and whatever the other
    arguments are (the meeting end is not compared with the meeting start);
    any other exception of the call is the [TypeError] of reading a missing
    row, never the stops error; and from a state with no airport, a call
    whose dates pass returns the empty list. *)
Theorem query_date_errors s origins meetingStart meetingEnd maxOut maxIn take_ :
  ((getDestinationsForDatePair origins meetingStart meetingEnd maxOut maxIn take_ s).1
   = Throw DateOutsideRange <->
   passesDateValidation (dayIndex s meetingStart) = false \/
   passesDateValidation (dayIndex s meetingEnd) = false) /\
  (forall e,
     (getDestinationsForDatePair origins meetingStart meetingEnd maxOut maxIn take_ s).1
     = Throw e ->
     e = DateOutsideRange \/ e = TypeError) /\
  (size (airports s) = 0%nat ->
   (getDestinationsForDatePair origins meetingStart meetingEnd maxOut maxIn take_ s).1
   = if passesDateValidation (dayIndex s meetingStart)
        && passesDateValidation (dayIndex s meetingEnd)
     then Ok [] else Throw DateOutsideRange).
Proof.
  rewrite getDestinationsForDatePair_run.
  destruct (passesDateValidation (dayIndex s meetingStart)),
           (passesDateValidation (dayIndex s meetingEnd)); simpl;
    try (split; [split; [by right + by left | done] |];
         split; [intros e [= <-]; by left | done]).
  split; [| split].
  - split; [| by intros [? | ?]].
    destruct (foldM _ _ _ _).1 as [result | e] eqn:Hrun; [done |].
    apply candidates_raise in Hrun as ->. done.
  - intros e. destruct (foldM _ _ _ _).1 as [result | e'] eqn:Hrun; [done |].
    apply candidates_raise in Hrun as ->. intros [= <-]. by right.
  - intros ->. simpl. destruct (take_ >? 0); [by rewrite take_nil | done].
Qed.

Lemma query_date_errors_witness :
  (getDestinationsForDatePair [] (Fixture.january 1) (Fixture.january 2) 0 0 0
     (init Fixture.fixedDate)).1 = Ok [].
Proof.
  destruct (query_date_errors (init Fixture.fixedDate) [] (Fixture.january 1)
              (Fixture.january 2) 0 0 0) as (_ & _ & H).
  rewrite H; reflexivity.
Defined.

(** The anchor day of a side that returns is a row of the store. *)
Lemma anchorSide_day n sel ov idx i s v :
  shaped n (sel s) ->
  (anchorSide sel ov idx i s).1 = Ok v ->
  0 <= idx < MAX_DAYS_SUPPORTED.
Proof.
  intros [Hlen _]. unfold anchorSide. intros H. run_inv H as avail Havail.
  unfold availableConnections in Havail. run_inv Havail as b0 Hb0.
  apply receiver_inv in Hb0. unfold vectorAt in Hb0.
  destruct (at_index (sel s) idx) as [row |] eqn:Hrow; [| done].
  apply at_index_Some in Hrow as [Hnn Hrow%lookup_lt_Some].
  unfold MAX_DAYS_SUPPORTED in *. lia.
Qed.

Lemma query_days_stored s origins ms me mo mi tk r :
  wf s -> (0 < size (airports s))%nat ->
  (getDestinationsForDatePair origins ms me mo mi tk s).1 = Ok r ->
  0 <= dayIndex s ms < MAX_DAYS_SUPPORTED /\ 0 <= dayIndex s me < MAX_DAYS_SUPPORTED.
Proof.
  intros Hwf Hpos Hr.
  apply getDestinationsForDatePair_inv in Hr as (ds & Hds & _).
  destruct (size (airports s)) as [| n]; [lia |]. cbn [seq] in Hds.
  apply Forall2_cons_inv_l in Hds as (d & ds' & Hc & _ & _).
  apply candidate_inv_full in Hc as (out & inb & Ho & Hi & _);
    [| apply originsVectorOf_finite].
  unfold outboundSide in Ho. run_inv Ho as v0 Hv0.
  unfold inboundSide in Hi. run_inv Hi as v1 Hv1.
  split.
  - eapply anchorSide_day; [apply (wf_outbound s Hwf) | exact Hv0].
  - eapply anchorSide_day; [apply (wf_inbound s Hwf) | exact Hv1].
Qed.

(** X16: on a state the class can be in that has an airport, a query
    returns only when the day indices of the meeting start and of the
    meeting end are rows 0..359 of the stores; day index 360 passes the date
    validation on either side, and the call then dies with the [TypeError]
    of reading the missing row 360 instead of the date-out-of-range
    error. *)
Theorem query_anchor_days s origins meetingStart meetingEnd maxOut maxIn take_ :
  reachable s -> (0 < size (airports s))%nat ->
  (forall r,
     (getDestinationsForDatePair origins meetingStart meetingEnd maxOut maxIn take_ s).1
     = Ok r ->
     0 <= dayIndex s meetingStart < MAX_DAYS_SUPPORTED /\
     0 <= dayIndex s meetingEnd < MAX_DAYS_SUPPORTED) /\
  (passesDateValidation (dayIndex s meetingStart) = true ->
   passesDateValidation (dayIndex s meetingEnd) = true ->
   dayIndex s meetingStart = MAX_DAYS_SUPPORTED \/
   dayIndex s meetingEnd = MAX_DAYS_SUPPORTED ->
   (getDestinationsForDatePair origins meetingStart meetingEnd maxOut maxIn take_ s).1
   = Throw TypeError).
Proof.
  intros Hwf%reachable_wf Hpos.
  split; [intros r; by apply query_days_stored |].
  intros Hs He Hday.
  destruct (getDestinationsForDatePair origins meetingStart meetingEnd maxOut maxIn take_ s).1
    as [r | e] eqn:Hrun.
  - apply query_days_stored in Hrun; [lia | done | done].
  - rewrite getDestinationsForDatePair_run, Hs, He in Hrun. simpl in Hrun.
    destruct (foldM _ _ _ _).1 as [result | e'] eqn:Hfold; [done |].
    apply candidates_raise in Hfold as ->. done.
Qed.

Lemma query_anchor_days_witness :
  (getDestinationsForDatePair Fixture.origins (Fixture.january 361) (Fixture.january 361)
     0 0 0 Fixture.storage).1 = Throw TypeError.
Proof.
  apply (query_anchor_days Fixture.storage Fixture.origins (Fixture.january 361)
           (Fixture.january 361) 0 0 0 fixture_reachable).
  - vm_compute. lia.
  - vm_compute; reflexivity.
  - vm_compute; reflexivity.
  - left. vm_compute; reflexivity.
Defined.

(** ** Truncation and ties *)

(** X17: [take] only truncates: a call with a positive [take] returns the
    first [take] records of what the same call returns with [take] 0, a call
    with a [take] of 0 or below returns all of it, and each call throws
    exactly when, and what, the other throws; the result has one record per
    registered airport, cut to [take] when [take] is positive. *)
Theorem take_truncates s origins meetingStart meetingEnd maxOut maxIn take_ :
  (getDestinationsForDatePair origins meetingStart meetingEnd maxOut maxIn take_ s).1
  = match (getDestinationsForDatePair origins meetingStart meetingEnd maxOut maxIn 0 s).1 with
    | Ok full => Ok (if take_ >? 0 then take (Z.to_nat take_) full else full)
    | Throw e => Throw e
    end /\
  forall r,
    (getDestinationsForDatePair origins meetingStart meetingEnd maxOut maxIn take_ s).1
    = Ok r ->
    length r = if take_ >? 0 then Nat.min (Z.to_nat take_) (size (airports s))
               else size (airports s).
Proof.
  split.
  - rewrite !getDestinationsForDatePair_run.
    destruct (_ && _); [| done]. by destruct (foldM _ _ _ _).1.
  - intros r (ds & Hds%Forall2_length & ->)%getDestinationsForDatePair_inv.
    rewrite length_seq in Hds.
    destruct (take_ >? 0); rewrite ?length_take, sortByAvailable_perm; lia.
Qed.

Lemma take_truncates_witness :
  length (take 2 Fixture.totalCounts) = 2%nat.
Proof.
  destruct (take_truncates Fixture.storage Fixture.origins (Fixture.january 10)
              (Fixture.january 15) 1 1 2) as [Heq Hlen].
  apply Hlen. rewrite Heq. vm_compute. reflexivity.
Defined.

Lemma filter_take_sublist {A} (P : A -> Prop) `{!forall x, Decision (P x)} n (l : list A) :
  filter P (take n l) `sublist_of` filter P l.
Proof.
  rewrite <- (take_drop n l) at 2. rewrite list.filter_app. by apply sublist_inserts_r.
Qed.

(** X18: in a result on a state the class can be in, every airport occurs
    at most once, and the records that have the same number of available
    origins stand in the order in which their airports were registered: the
    sort is stable and the candidate loop runs in registration order. *)
Theorem ties_keep_registration_order
    s origins meetingStart meetingEnd maxOut maxIn take_ r :
  reachable s ->
  (getDestinationsForDatePair origins meetingStart meetingEnd maxOut maxIn take_ s).1 = Ok r ->
  NoDup (code <$> r) /\
  forall k,
    code <$> filter (fun d => availableOrigins d = k) r `sublist_of` airportsArray s.
Proof.
  intros Hwf%reachable_wf (ds & Hds & ->)%getDestinationsForDatePair_inv.
  assert (code <$> ds = airportsArray s) as Hcodes.
  { eapply candidates_codes; [done | | exact Hds].
    intros i d (? & ? & _ & _ & Hc & _)%candidate_inv. exact Hc. }
  split.
  - assert (NoDup (code <$> sortByAvailable ds)) as Hnd.
    { rewrite sortByAvailable_perm, Hcodes. by apply wf_NoDup. }
    destruct (take_ >? 0); [| done].
    apply (sublist_NoDup _ (code <$> sortByAvailable ds)); [exact Hnd |].
    apply fmap_sublist, sublist_take.
  - intros k. rewrite <- Hcodes.
    apply fmap_sublist.
    transitivity (filter (fun d => availableOrigins d = k) ds); [| apply sublist_filter].
    rewrite <- (sortByAvailable_stable k ds).
    destruct (take_ >? 0); [apply filter_take_sublist | done].
Qed.

Lemma ties_keep_registration_order_witness :
  code <$> filter (fun d => availableOrigins d = 2) Fixture.totalCounts
  `sublist_of` airportsArray Fixture.storage.
Proof.
  apply (ties_keep_registration_order Fixture.storage Fixture.origins (Fixture.january 10)
           (Fixture.january 15) 1 1 0 Fixture.totalCounts fixture_reachable).
  vm_compute. reflexivity.
Defined.

(** ** Origins that are not registered *)

Lemma sortByAvailable_equal_keys k l :
  Forall (fun d => availableOrigins d = k) l -> sortByAvailable l = l.
Proof.
  induction 1 as [| x l Hx Hl IH]; [done |]. simpl. rewrite IH.
  destruct Hl as [| y l' Hy Hl']; [done |]. simpl.
  destruct (Z.leb_spec (availableOrigins y) (availableOrigins x)); [done | lia].
Qed.

Lemma unregistered_positions s origins :
  wf s ->
  (forall o, o ∈ origins -> indexOf s (origin_code o) = None) ->
  originPositions s origins = [].
Proof.
  intros Hwf Hnone. unfold originPositions.
  destruct (BitSet.toArray (originsVectorOf s origins)) as [| x l] eqn:Hl; [done |].
  exfalso.
  destruct (wf_weight s origins x Hwf) as (c & w & Hc & Hw & _).
  { rewrite Hl. apply list_elem_of_here. }
  apply lastCount_Some_elem in Hw as (o & Ho & <- & _).
  apply (wf_registry s Hwf) in Hc. specialize (Hnone o Ho). unfold indexOf in Hnone.
  congruence.
Qed.

(** X19: origin codes that are not registered are dropped without an
    error.  On a state the class can be in, when no code of the list of
    origins is registered (the empty list included), a call that returns
    gives every registered airport the record with no available origin, no
    stops, no shoulder nights and empty lists of unavailable origins, in the
    order of registration, cut to [take] when [take] is positive. *)
Theorem unregistered_origins_rank_nothing
    s origins meetingStart meetingEnd maxOut maxIn take_ r :
  reachable s ->
  (forall o, o ∈ origins -> indexOf s (origin_code o) = None) ->
  (getDestinationsForDatePair origins meetingStart meetingEnd maxOut maxIn take_ s).1 = Ok r ->
  let all := (fun c => mkDestination c 0 0 [] 0 [] 0) <$> airportsArray s in
  r = if take_ >? 0 then take (Z.to_nat take_) all else all.
Proof.
  intros Hwf%reachable_wf Hnone (ds & Hds & ->)%getDestinationsForDatePair_inv all.
  pose proof (unregistered_positions s origins Hwf Hnone) as Hpos.
  unfold originPositions in Hpos.
  pose proof (originsVectorOf_finite s origins) as Hfin.
  assert (code <$> ds = airportsArray s) as Hcodes.
  { eapply candidates_codes; [done | | exact Hds].
    intros i d (? & ? & _ & _ & Hc & _)%candidate_inv. exact Hc. }
  assert (Forall (fun d => d = mkDestination (code d) 0 0 [] 0 [] 0) ds) as Hzero.
  { apply list.Forall_forall. intros d [i Hi]%list_elem_of_lookup.
    destruct (Forall2_lookup_r _ _ _ _ _ Hds Hi) as (k & Hk & Hc).
    apply candidate_inv_full in Hc as (out & inb & Ho & Hi1 & ->); [| done].
    pose proof Ho as Hso. pose proof Hi1 as Hsi.
    apply outboundSide_stops in Hso; [| done | rewrite Hpos; simpl; lia].
    apply inboundSide_stops in Hsi; [| done | rewrite Hpos; simpl; lia].
    apply outboundSide_loopInv in Ho as (_ & Hco & Hno);
      [| done | rewrite Hpos; simpl; lia].
    apply inboundSide_loopInv in Hi1 as (_ & Hci & Hni);
      [| done | rewrite Hpos; simpl; lia].
    rewrite Hpos in *. simpl in *.
    by rewrite Hco, Hci, Hso, Hsi, Hno, Hni. }
  assert (ds = all) as ->.
  { unfold all. rewrite <- Hcodes. clear -Hzero.
    induction Hzero as [| d ds Hd _ IH]; [done |].
    rewrite !fmap_cons, <- IH. by rewrite <- Hd. }
  rewrite (sortByAvailable_equal_keys 0); [done |].
  apply list.Forall_forall. intros d (c & -> & _)%list_elem_of_fmap. done.
Qed.

Lemma unregistered_origins_rank_nothing_witness :
  (getDestinationsForDatePair [mkOriginInput "XXX" 3] (Fixture.january 10)
     (Fixture.january 15) 1 1 2 Fixture.storage).1
  = Ok [mkDestination "AAA" 0 0 [] 0 [] 0; mkDestination "CCC" 0 0 [] 0 [] 0].
Proof.
  destruct (getDestinationsForDatePair [mkOriginInput "XXX" 3] (Fixture.january 10)
              (Fixture.january 15) 1 1 2 Fixture.storage).1 as [r | e] eqn:Hr;
    [| by vm_compute in Hr].
  f_equal.
  apply (unregistered_origins_rank_nothing Fixture.storage [mkOriginInput "XXX" 3]
           (Fixture.january 10) (Fixture.january 15) 1 1 2 r fixture_reachable);
    [| exact Hr].
  intros o ->%list_elem_of_singleton. vm_compute. reflexivity.
Defined.

(** ** The order of the origins *)

Lemma lastCount_None origins c :
  (forall o, o ∈ origins -> origin_code o <> c) -> lastCount origins c = None.
Proof.
  intros Hne. destruct (lastCount origins c) as [w |] eqn:Hw; [| done].
  apply lastCount_Some_elem in Hw as (o & Ho & Hc & _). by destruct (Hne o Ho).
Qed.

Lemma lastCount_NoDup origins o :
  NoDup (origin_code <$> origins) -> o ∈ origins ->
  lastCount origins (origin_code o) = Some (origin_count o).
Proof.
  induction origins as [| o' origins IH]; [by intros _ ?%elem_of_nil |].
  rewrite fmap_cons. intros [Hnotin Hnd]%list.NoDup_cons [-> | Hin]%elem_of_cons; simpl.
  - rewrite lastCount_None.
    + by rewrite decide_True.
    + intros o Ho Heq. apply Hnotin. rewrite <- Heq. by apply list_elem_of_fmap_2.
  - by rewrite (IH Hnd Hin).
Qed.

Lemma originsMapOf_perm origins1 origins2 :
  NoDup (origin_code <$> origins1) -> origins1 ≡ₚ origins2 ->
  originsMapOf origins1 = originsMapOf origins2.
Proof.
  intros Hnd1 Hperm.
  assert (NoDup (origin_code <$> origins2)) as Hnd2 by by rewrite <- Hperm.
  assert (forall l1 l2 c w,
            NoDup (origin_code <$> l2) -> l1 ≡ₚ l2 ->
            lastCount l1 c = Some w -> lastCount l2 c = Some w) as Hstep.
  { intros l1 l2 c w Hnd Hp (o & Ho & <- & <-)%lastCount_Some_elem.
    apply lastCount_NoDup; [done | by rewrite <- Hp]. }
  apply map_eq. intros c. rewrite !originsMapOf_lookup.
  destruct (lastCount origins1 c) as [w |] eqn:H1.
  - symmetry. by apply (Hstep origins1 origins2).
  - destruct (lastCount origins2 c) as [w |] eqn:H2; [| done].
    apply (Hstep origins2 origins1) in H2; [congruence | done | done].
Qed.

(** X20: the order in which the origins are listed does not matter when
    their codes are distinct: a call on a reordering of the list returns the
    same ranking, or throws the same exception, from any state. *)
Theorem origins_order_irrelevant
    s origins1 origins2 meetingStart meetingEnd maxOut maxIn take_ :
  NoDup (origin_code <$> origins1) ->
  origins1 ≡ₚ origins2 ->
  getDestinationsForDatePair origins1 meetingStart meetingEnd maxOut maxIn take_ s
  = getDestinationsForDatePair origins2 meetingStart meetingEnd maxOut maxIn take_ s.
Proof.
  intros Hnd Hperm. unfold getDestinationsForDatePair.
  by rewrite (originsMapOf_perm _ _ Hnd Hperm), (Permutation_length Hperm).
Qed.

Lemma origins_order_irrelevant_witness :
  (getDestinationsForDatePair
     [mkOriginInput "CCC" 1; mkOriginInput "AAA" 2; mkOriginInput "BBB" 1]
     (Fixture.january 10) (Fixture.january 15) 1 1 0 Fixture.storage).1
  = (getDestinationsForDatePair
       [mkOriginInput "AAA" 2; mkOriginInput "BBB" 1; mkOriginInput "CCC" 1]
       (Fixture.january 10) (Fixture.january 15) 1 1 0 Fixture.storage).1.
Proof.
  refine (f_equal fst
            (origins_order_irrelevant Fixture.storage
               [mkOriginInput "CCC" 1; mkOriginInput "AAA" 2; mkOriginInput "BBB" 1]
               [mkOriginInput "AAA" 2; mkOriginInput "BBB" 1; mkOriginInput "CCC" 1]
               _ _ _ _ _ _ _)).
  - apply (bool_decide_unpack _). vm_compute. exact I.
  - etransitivity; [apply Permutation_swap |].
    apply Permutation_skip, Permutation_swap.
Defined.

(** ** Connections between known airports commute *)

Lemma list_alter_comm {A} (f g : A -> A) i j (l : list A) :
  (forall x, f (g x) = g (f x)) ->
  alter f i (alter g j l) = alter g j (alter f i l).
Proof.
  intros Hfg. revert i j. induction l as [| x l IH]; intros [| i] [| j]; simpl; try done.
  - by rewrite Hfg.
  - f_equal. apply IH.
Qed.

Lemma list_insert_as_alter {A} (f : A -> A) i x (l : list A) :
  l !! i = Some x -> <[i := f x]> l = alter f i l.
Proof.
  revert i. induction l as [| y l IH]; intros [| i]; simpl; try done.
  - by intros [= ->].
  - intros H. f_equal. by apply IH.
Qed.

Lemma setBit_alter store day a st o store' :
  setBit store day a st o = Some store' ->
  store'
  = alter (alter (alter (fun b => BitSet.set b o) (Z.to_nat st)) a) (Z.to_nat day) store.
Proof.
  unfold setBit. intros H.
  destruct (at_index store day) as [row |] eqn:Hrow; [| done]. simpl in H.
  destruct (row !! a) as [slot |] eqn:Hslot; [| done]. simpl in H.
  destruct (at_index slot st) as [b |] eqn:Hb; [| done]. simpl in H.
  injection H as <-.
  apply at_index_Some in Hrow as [_ Hrow]. apply at_index_Some in Hb as [_ Hb].
  rewrite <- (list_insert_as_alter _ _ row) by done. f_equal.
  rewrite <- (list_insert_as_alter _ _ slot) by done. f_equal.
  by rewrite <- (list_insert_as_alter _ _ b).
Qed.

Lemma setBit_is_Some store day a st o :
  is_Some (setBit store day a st o) <-> is_Some (vectorAt store day a st).
Proof.
  unfold setBit, vectorAt.
  destruct (at_index store day) as [row |]; simpl; [| done].
  destruct (row !! a) as [slot |]; simpl; [| done].
  destruct (at_index slot st) as [b |]; simpl; [| done].
  split; intros _; eauto.
Qed.

Lemma set_comm b i j : BitSet.set (BitSet.set b i) j = BitSet.set (BitSet.set b j) i.
Proof.
  unfold BitSet.set. rewrite !Z.setbit_spec'.
  rewrite <- !Z.lor_assoc. f_equal. apply Z.lor_comm.
Qed.

(** Two writes that both succeed on a store succeed in either order, with
    the same outcome. *)
Lemma setBit_comm store d1 a1 st1 o1 d2 a2 st2 o2 s1 s2 :
  setBit store d1 a1 st1 o1 = Some s1 ->
  setBit store d2 a2 st2 o2 = Some s2 ->
  exists s12,
    setBit s1 d2 a2 st2 o2 = Some s12 /\ setBit s2 d1 a1 st1 o1 = Some s12.
Proof.
  intros H1 H2.
  assert (forall store d a st o s' d' a' st',
            setBit store d a st o = Some s' ->
            is_Some (vectorAt store d' a' st') -> is_Some (vectorAt s' d' a' st')) as Hkeep.
  { intros st0 d a st o s' d' a' st' H Hsome.
    destruct (setBit_vectorAt _ _ _ _ _ _ H) as (b & _ & Hafter).
    rewrite Hafter. by case_decide. }
  destruct (proj2 (setBit_is_Some s1 d2 a2 st2 o2)) as [s12 H12].
  { apply (Hkeep _ _ _ _ _ _ _ _ _ H1), (proj1 (setBit_is_Some store d2 a2 st2 o2)).
    by rewrite H2. }
  destruct (proj2 (setBit_is_Some s2 d1 a1 st1 o1)) as [s21 H21].
  { apply (Hkeep _ _ _ _ _ _ _ _ _ H2), (proj1 (setBit_is_Some store d1 a1 st1 o1)).
    by rewrite H1. }
  exists s12. split; [done |]. rewrite H21. f_equal.
  apply setBit_alter in H1, H2, H12, H21. subst.
  apply list_alter_comm. intros row.
  apply list_alter_comm. intros slot.
  apply list_alter_comm. intros b. apply set_comm.
Qed.

Lemma registered_known c s :
  is_Some (indexOf s (originAirportCode c)) ->
  is_Some (indexOf s (destinationAirportCode c)) ->
  registered c s = s.
Proof.
  intros [oi Ho] [di Hd]. unfold registered.
  rewrite (addAirport_known _ _ _ Ho). simpl. by rewrite (addAirport_known _ _ _ Hd).
Qed.

(** X21: two connections between airports that are already registered can
    be stored in either order: when each call returns from a state, each
    also returns after the other, and the two orders end in the same
    state. *)
Theorem setConnection_commute c1 c2 s s1 s2 :
  is_Some (indexOf s (originAirportCode c1)) ->
  is_Some (indexOf s (destinationAirportCode c1)) ->
  is_Some (indexOf s (originAirportCode c2)) ->
  is_Some (indexOf s (destinationAirportCode c2)) ->
  setConnection c1 s = (Ok tt, s1) ->
  setConnection c2 s = (Ok tt, s2) ->
  exists s12,
    setConnection c2 s1 = (Ok tt, s12) /\ setConnection c1 s2 = (Ok tt, s12).
Proof.
  intros Ho1 Hd1 Ho2 Hd2.
  rewrite !setConnection_unfold.
  rewrite (registered_known c1 s), (registered_known c2 s) by done.
  destruct (passesStopsValidation (stops c1)); [| done].
  destruct (passesStopsValidation (stops c2)); [| done]. cbv zeta.
  destruct (passesDateValidation (dayIndex s (date c1)) && _) eqn:Hdates1; [| done].
  destruct (passesDateValidation (dayIndex s (date c2)) && _) eqn:Hdates2; [| done].
  destruct Ho1 as [oi1 Ho1], Hd1 as [di1 Hd1], Ho2 as [oi2 Ho2], Hd2 as [di2 Hd2].
  unfold indexOf in *. rewrite Ho1, Hd1, Ho2, Hd2.
  destruct (setBit (outboundStorage s) _ di1 _ _) as [out1 |] eqn:Hout1; [| done].
  destruct (setBit (inboundStorage s) _ oi1 _ _) as [in1 |] eqn:Hin1; [| done].
  intros [= <-].
  destruct (setBit (outboundStorage s) _ di2 _ _) as [out2 |] eqn:Hout2; [| done].
  destruct (setBit (inboundStorage s) _ oi2 _ _) as [in2 |] eqn:Hin2; [| done].
  intros [= <-].
  rewrite !registered_known by (unfold indexOf; simpl; eauto).
  unfold dayIndex in *. simpl. rewrite Hdates1, Hdates2, Ho1, Hd1, Ho2, Hd2.
  destruct (setBit_comm _ _ _ _ _ _ _ _ _ _ _ Hout1 Hout2) as (out12 & -> & ->).
  destruct (setBit_comm _ _ _ _ _ _ _ _ _ _ _ Hin1 Hin2) as (in12 & -> & ->).
  by eexists.
Qed.

Lemma setConnection_commute_witness :
  let c1 := mkConnection "AAA" "DDD" (Fixture.january 20) 1 0 in
  let c2 := mkConnection "BBB" "DDD" (Fixture.january 20) 1 0 in
  bitAt (outboundStorage Fixture.storage) 19 2 1 0 = false /\
  bitAt (outboundStorage Fixture.storage) 19 2 1 3 = false /\
  exists s12,
    setConnection c2 (setConnection c1 Fixture.storage).2 = (Ok tt, s12) /\
    setConnection c1 (setConnection c2 Fixture.storage).2 = (Ok tt, s12) /\
    bitAt (outboundStorage s12) 19 2 1 0 = true /\
    bitAt (outboundStorage s12) 19 2 1 3 = true /\
    bitAt (inboundStorage s12) 19 0 1 2 = true /\
    bitAt (inboundStorage s12) 19 3 1 2 = true.
Proof.
  cbv zeta.
  split; [by vm_compute |]. split; [by vm_compute |].
  destruct (setConnection_commute
              (mkConnection "AAA" "DDD" (Fixture.january 20) 1 0)
              (mkConnection "BBB" "DDD" (Fixture.january 20) 1 0)
              Fixture.storage
              (setConnection (mkConnection "AAA" "DDD" (Fixture.january 20) 1 0)
                 Fixture.storage).2
              (setConnection (mkConnection "BBB" "DDD" (Fixture.january 20) 1 0)
                 Fixture.storage).2)
    as (s12 & H12 & H21); try (vm_compute; eauto; fail).
  exists s12. split; [exact H12 |]. split; [exact H21 |].
  assert (s12 = (setConnection (mkConnection "BBB" "DDD" (Fixture.january 20) 1 0)
                   (setConnection (mkConnection "AAA" "DDD" (Fixture.january 20) 1 0)
                      Fixture.storage).2).2) as -> by (by rewrite H12).
  split; [by vm_compute |]. split; [by vm_compute |]. split; by vm_compute.
Defined.
